(** * A shallow embedding of the rendering core of textcanvas

    The model follows [textcanvas/textcanvas.py]: a [TextCanvas] owns a
    pixel buffer at screen resolution, a lazily allocated color buffer and
    a lazily allocated text buffer at output resolution, the
    [is_inverted] flag and the current draw color.

    Python [str] values are modelled as lists of Unicode code points
    ([ustr]); Python [int] as [Z].  Python lists of lists are stdpp lists,
    read with [!!] and written with [<[ _ := _ ]>] through [alter]. *)

From Stdlib Require Import ZArith Lia.
From Stdlib Require Import String Ascii.
From stdpp Require Import base list.
From Stdlib Require Floats.

Open Scope Z_scope.

(* ------------------------------------------------------------------ *)
(** ** Strings, colors and surfaces *)

(** A Python [str]: a sequence of code points. *)
Definition ustr := list Z.

(** The code points of an ASCII literal. *)
Definition ustr_of (s : String.string) : ustr :=
  map (fun a => Z.of_nat (Ascii.nat_of_ascii a)) (String.list_ascii_of_string s).

Definition ESC : ustr := [27; 91].          (* "\x1b[" *)
Definition RESET : ustr := [27; 91; 48; 109]. (* "\x1b[0m" *)
Definition NEWLINE : Z := 10.                (* "\n" *)
Definition SPACE : Z := 32.                  (* " " *)

(** [color.Color].  The canvas only uses [Color()] (the empty color) and
    [Color.format].  [Color.to_string()] is either the bare placeholder
    ["{}"] (empty color) or [ESC ++ sgr ++ "m{}" ++ RESET], where [sgr] is
    the [';']-joined list of decimal SGR codes built by
    [_format_display_attributes] and [_format_colors_*].  A color is
    modelled by that [sgr] parameter string. *)
Inductive Color :=
| NoColor                  (* Color() *)
| Ansi (sgr : ustr).

(** [Color.format]: [self.to_string().replace("{}", string)]. *)
Definition format (col : Color) (s : ustr) : ustr :=
  match col with
  | NoColor => s
  | Ansi sgr => ESC ++ sgr ++ [109] ++ s ++ RESET
  end.

(** The SGR parameters produced by [Color]: decimal digits and [';']. *)
Definition sgr_char (d : Z) : Prop := (48 <= d <= 57) \/ d = 59.
Definition color_ok (col : Color) : Prop :=
  match col with NoColor => True | Ansi sgr => Forall sgr_char sgr end.

(* ------------------------------------------------------------------ *)
(** [color.py]: the [Color] builder. *)
Module ColorPy.

Definition PLACEHOLDER : ustr := [123; 125].   (* "{}" *)

Inductive ColorMode := NO_COLOR | COLOR_RGB | COLOR_4BIT | COLOR_8BIT.

Definition ColorMode_eqb (a b : ColorMode) : bool :=
  match a, b with
  | NO_COLOR, NO_COLOR | COLOR_RGB, COLOR_RGB | COLOR_4BIT, COLOR_4BIT
  | COLOR_8BIT, COLOR_8BIT => true
  | _, _ => false
  end.

Record Color := mkColor {
  _mode : ColorMode;
  _color_rgb : option (Z * Z * Z);
  _bg_color_rgb : option (Z * Z * Z);
  _color_4bit : option Z;
  _bg_color_4bit : option Z;
  _color_8bit : option Z;
  _bg_color_8bit : option Z;
  _is_bold : bool;
  _is_italic : bool;
  _is_underlined : bool
}.

(** [Color()]. *)
Definition Color_new : Color :=
  mkColor NO_COLOR None None None None None None false false false.

(** [f"{n}"] for a Python [int]. *)
Fixpoint uint_digits (u : Decimal.uint) : ustr :=
  match u with
  | Decimal.Nil => []
  | Decimal.D0 u => 48 :: uint_digits u
  | Decimal.D1 u => 49 :: uint_digits u
  | Decimal.D2 u => 50 :: uint_digits u
  | Decimal.D3 u => 51 :: uint_digits u
  | Decimal.D4 u => 52 :: uint_digits u
  | Decimal.D5 u => 53 :: uint_digits u
  | Decimal.D6 u => 54 :: uint_digits u
  | Decimal.D7 u => 55 :: uint_digits u
  | Decimal.D8 u => 56 :: uint_digits u
  | Decimal.D9 u => 57 :: uint_digits u
  end.

Definition str_of_int (n : Z) : ustr :=
  match Z.to_int n with
  | Decimal.Pos u => uint_digits u
  | Decimal.Neg u => 45 :: uint_digits u
  end.

(** [sep.join(items)]. *)
Fixpoint join (sep : ustr) (items : list ustr) : ustr :=
  match items with
  | [] => []
  | [x] => x
  | x :: items' => x ++ sep ++ join sep items'
  end.

(** [self.to_string().replace("{}", string)]: every occurrence, left to
    right. *)
Fixpoint replace_placeholder (t string : ustr) : ustr :=
  match t with
  | [] => []
  | ch :: t' =>
      match t' with
      | ch2 :: t'' =>
          if (ch =? 123) && (ch2 =? 125) then string ++ replace_placeholder t'' string
          else ch :: replace_placeholder t' string
      | [] => [ch]
      end
  end.

Definition _has_colors (c : Color) : bool := negb (ColorMode_eqb (_mode c) NO_COLOR).

Definition _has_display_attributes (c : Color) : bool :=
  _is_bold c || _is_italic c || _is_underlined c.

Definition _is_empty (c : Color) : bool :=
  ColorMode_eqb (_mode c) NO_COLOR && negb (_has_display_attributes c).

Definition bold (c : Color) : Color :=
  mkColor (_mode c) (_color_rgb c) (_bg_color_rgb c) (_color_4bit c) (_bg_color_4bit c)
    (_color_8bit c) (_bg_color_8bit c) true (_is_italic c) (_is_underlined c).
Definition italic (c : Color) : Color :=
  mkColor (_mode c) (_color_rgb c) (_bg_color_rgb c) (_color_4bit c) (_bg_color_4bit c)
    (_color_8bit c) (_bg_color_8bit c) (_is_bold c) true (_is_underlined c).
Definition underline (c : Color) : Color :=
  mkColor (_mode c) (_color_rgb c) (_bg_color_rgb c) (_color_4bit c) (_bg_color_4bit c)
    (_color_8bit c) (_bg_color_8bit c) (_is_bold c) (_is_italic c) true.

Definition _format_display_attributes (c : Color) : ustr :=
  if negb (_has_display_attributes c) then [48]
  else
    let attributes :=
      (if _is_bold c then [[49]] else []) ++
      (if _is_italic c then [[51]] else []) ++
      (if _is_underlined c then [[52]] else []) in
    join [59] attributes.

Definition _apply_color_rgb (c : Color) (red green blue : Z) : Color :=
  mkColor COLOR_RGB (Some (red, green, blue)) (_bg_color_rgb c) (_color_4bit c) (_bg_color_4bit c)
    (_color_8bit c) (_bg_color_8bit c) (_is_bold c) (_is_italic c) (_is_underlined c).
Definition _apply_bg_color_rgb (c : Color) (red green blue : Z) : Color :=
  mkColor COLOR_RGB (_color_rgb c) (Some (red, green, blue)) (_color_4bit c) (_bg_color_4bit c)
    (_color_8bit c) (_bg_color_8bit c) (_is_bold c) (_is_italic c) (_is_underlined c).
Definition rgb (c : Color) (red green blue : Z) : Color := _apply_color_rgb c red green blue.
Definition bg_rgb (c : Color) (red green blue : Z) : Color := _apply_bg_color_rgb c red green blue.

(** [_hex_to_rgb], for a model [int16] of [int(s, 16)] on a two-character
    string ([None] where it raises [ValueError]). *)
Definition _hex_to_rgb (int16 : ustr -> option Z) (hex_color : ustr) : Z * Z * Z :=
  let hex_color :=
    match hex_color with ch :: rest => if ch =? 35 then rest else hex_color | [] => hex_color end in
  if negb (length hex_color =? 6)%nat then (0, 0, 0)
  else
    let red := default 0 (int16 (take 2 hex_color)) in
    let green := default 0 (int16 (take 2 (drop 2 hex_color))) in
    let blue := default 0 (int16 (drop 4 hex_color)) in
    (red, green, blue).

Definition rbg_from_hex (int16 : ustr -> option Z) (c : Color) (hex_color : ustr) : Color :=
  let '(r, g, b) := _hex_to_rgb int16 hex_color in rgb c r g b.
Definition bg_rbg_from_hex (int16 : ustr -> option Z) (c : Color) (hex_color : ustr) : Color :=
  let '(r, g, b) := _hex_to_rgb int16 hex_color in bg_rgb c r g b.

Definition _format_colors_rgb (c : Color) : ustr :=
  let colors :=
    match _color_rgb c with
    | Some (red, green, blue) =>
        ustr_of "38;2;" ++ str_of_int red ++ [59] ++ str_of_int green ++ [59] ++ str_of_int blue ++
        (match _bg_color_rgb c with Some _ => [109] ++ ESC | None => [] end)
    | None => []
    end in
  colors ++
    match _bg_color_rgb c with
    | Some (red, green, blue) =>
        ustr_of "48;2;" ++ str_of_int red ++ [59] ++ str_of_int green ++ [59] ++ str_of_int blue
    | None => []
    end.

Definition _apply_color_4bit (c : Color) (color : Z) : Color :=
  mkColor COLOR_4BIT (_color_rgb c) (_bg_color_rgb c) (Some color) (_bg_color_4bit c)
    (_color_8bit c) (_bg_color_8bit c) (_is_bold c) (_is_italic c) (_is_underlined c).
Definition _apply_bg_color_4bit (c : Color) (color : Z) : Color :=
  mkColor COLOR_4BIT (_color_rgb c) (_bg_color_rgb c) (_color_4bit c) (Some color)
    (_color_8bit c) (_bg_color_8bit c) (_is_bold c) (_is_italic c) (_is_underlined c).

Definition _format_colors_4bit (c : Color) : ustr :=
  let colors :=
    match _color_4bit c with
    | Some fg => str_of_int fg ++ (match _bg_color_4bit c with Some _ => [59] | None => [] end)
    | None => []
    end in
  colors ++ match _bg_color_4bit c with Some bg => str_of_int bg | None => [] end.

Definition _apply_color_8bit (c : Color) (color : Z) : Color :=
  mkColor COLOR_8BIT (_color_rgb c) (_bg_color_rgb c) (_color_4bit c) (_bg_color_4bit c)
    (Some color) (_bg_color_8bit c) (_is_bold c) (_is_italic c) (_is_underlined c).
Definition _apply_bg_color_8bit (c : Color) (color : Z) : Color :=
  mkColor COLOR_8BIT (_color_rgb c) (_bg_color_rgb c) (_color_4bit c) (_bg_color_4bit c)
    (_color_8bit c) (Some color) (_is_bold c) (_is_italic c) (_is_underlined c).

Definition _format_colors_8bit (c : Color) : ustr :=
  let colors :=
    match _color_8bit c with
    | Some fg => ustr_of "38;5;" ++ str_of_int fg ++
                 (match _bg_color_8bit c with Some _ => [109] ++ ESC | None => [] end)
    | None => []
    end in
  colors ++ match _bg_color_8bit c with Some bg => ustr_of "48;5;" ++ str_of_int bg | None => [] end.

Definition _format_colors (c : Color) : ustr :=
  match _mode c with
  | COLOR_RGB => _format_colors_rgb c
  | COLOR_4BIT => _format_colors_4bit c
  | COLOR_8BIT => _format_colors_8bit c
  | NO_COLOR => []
  end.

Definition to_string (c : Color) : ustr :=
  if _is_empty c then PLACEHOLDER
  else ESC ++ _format_display_attributes c ++ (if _has_colors c then [59] else []) ++
       _format_colors c ++ [109] ++ PLACEHOLDER ++ RESET.

Definition format (c : Color) (string : ustr) : ustr :=
  replace_placeholder (to_string c) string.

End ColorPy.

Record Surface := mkSurface { width : Z; height : Z }.

(** Python exceptions raised by the modelled code. *)
Inductive exn :=
| ValueError_canvas_size                 (* "TextCanvas' minimal size is 1×1." *)
| ValueError_ngon_sides (sides : Z)      (* "Minimum 3 sides needed ... {sides} requested." *)
| FloatToIntError                        (* int(round(x)) on a NaN or an infinity *)
| OverflowError                          (* an int too large to convert to float *)
| IndexError.                            (* a list index out of range *)

(* ------------------------------------------------------------------ *)
(** ** Buffers *)

(** [buf[y][x]] on a list of rows.  On every canvas built by the
    constructor the read is in range (see [wf]); the default is only the
    value of an out-of-range read, where Python raises [IndexError]. *)
Definition get2 {A} (d : A) (b : list (list A)) (y x : Z) : A :=
  default d (b !! Z.to_nat y ≫= fun row => row !! Z.to_nat x).

(** [buf[y][x] = v]. *)
Definition set2 {A} (b : list (list A)) (y x : Z) (v : A) : list (list A) :=
  alter (fun row => <[Z.to_nat x := v]> row) (Z.to_nat y) b.

(** [range(a, b)]. *)
Definition zrange (a b : Z) : list Z :=
  map (fun k => a + Z.of_nat k) (seq 0 (Z.to_nat (b - a))).

(** [range(a, b, s)] for a positive step [s]. *)
Definition zrange_step (a b s : Z) : list Z :=
  map (fun k => a + s * Z.of_nat k) (seq 0 (Z.to_nat ((b - a + s - 1) / s))).

(* ------------------------------------------------------------------ *)
(** ** The canvas *)

Record TextCanvas := mkCanvas {
  output : Surface;
  screen : Surface;
  buffer : list (list bool);
  color_buffer : list (list Color);
  text_buffer : list (list ustr);
  is_inverted : bool;
  _color : Color
}.

Definition with_buffer (c : TextCanvas) (b : list (list bool)) : TextCanvas :=
  mkCanvas (output c) (screen c) b (color_buffer c) (text_buffer c)
    (is_inverted c) (_color c).
Definition with_color_buffer (c : TextCanvas) (b : list (list Color)) : TextCanvas :=
  mkCanvas (output c) (screen c) (buffer c) b (text_buffer c)
    (is_inverted c) (_color c).
Definition with_text_buffer (c : TextCanvas) (b : list (list ustr)) : TextCanvas :=
  mkCanvas (output c) (screen c) (buffer c) (color_buffer c) b
    (is_inverted c) (_color c).

Definition _check_output_bounds (c : TextCanvas) (x y : Z) : bool :=
  (0 <=? x) && (x <? width (output c)) && (0 <=? y) && (y <? height (output c)).

Definition _check_screen_bounds (c : TextCanvas) (x y : Z) : bool :=
  (0 <=? x) && (x <? width (screen c)) && (0 <=? y) && (y <? height (screen c)).

(** [[[v for _ in range(w)] for _ in range(h)]]. *)
Definition grid {A} (w h : Z) (v : A) : list (list A) :=
  map (fun _ => map (fun _ => v) (zrange 0 w)) (zrange 0 h).

(** [TextCanvas(width, height)]. *)
Definition TextCanvas_new (w h : Z) : exn + TextCanvas :=
  if (w <=? 0) || (h <=? 0) then inl ValueError_canvas_size
  else inr (mkCanvas (mkSurface w h) (mkSurface (w * 2) (h * 4))
              (grid (w * 2) (h * 4) false) [] [] false NoColor).

Definition is_colorized (c : TextCanvas) : bool :=
  match color_buffer c with [] => false | _ => true end.

Definition is_textual (c : TextCanvas) : bool :=
  match text_buffer c with [] => false | _ => true end.

Definition _init_color_buffer (c : TextCanvas) : TextCanvas :=
  with_color_buffer c (grid (width (output c)) (height (output c)) NoColor).

Definition _init_text_buffer (c : TextCanvas) : TextCanvas :=
  with_text_buffer c (grid (width (output c)) (height (output c)) []).

Definition set_color (c : TextCanvas) (col : Color) : TextCanvas :=
  let c := if is_colorized c then c else _init_color_buffer c in
  mkCanvas (output c) (screen c) (buffer c) (color_buffer c) (text_buffer c)
    (is_inverted c) col.

Definition invert (c : TextCanvas) : TextCanvas :=
  mkCanvas (output c) (screen c) (buffer c) (color_buffer c) (text_buffer c)
    (negb (is_inverted c)) (_color c).

(** [iter_buffer]: [(x, y)] in row-major order. *)
Definition iter_buffer (c : TextCanvas) : list (Z * Z) :=
  flat_map (fun y => map (fun x => (x, y)) (zrange 0 (width (screen c))))
    (zrange 0 (height (screen c))).

(** [fill]: [self.buffer[y][x] = True] for every [(x, y)]. *)
Definition fill (c : TextCanvas) : TextCanvas :=
  fold_left (fun c' '(x, y) => with_buffer c' (set2 (buffer c') y x true))
    (iter_buffer c) c.

(** [_clear_buffer]: [self.buffer[y][x] = False] for every [(x, y)]. *)
Definition _clear_buffer (c : TextCanvas) : TextCanvas :=
  fold_left (fun c' '(x, y) => with_buffer c' (set2 (buffer c') y x false))
    (iter_buffer c) c.

(** The two [enumerate] loops of [_clear_color_buffer] and
    [_clear_text_buffer]: [buf[y][x] = v] for every row [y] and every
    index [x] of that row. *)
Definition clear_rows {A} (v : A) (b : list (list A)) : list (list A) :=
  fold_left (fun b' y =>
      fold_left (fun b'' x => set2 b'' y x v)
        (zrange 0 (Z.of_nat (length (default [] (b' !! Z.to_nat y))))) b')
    (zrange 0 (Z.of_nat (length b))) b.

Definition _clear_color_buffer (c : TextCanvas) : TextCanvas :=
  if is_colorized c then with_color_buffer c (clear_rows NoColor (color_buffer c)) else c.

Definition _clear_text_buffer (c : TextCanvas) : TextCanvas :=
  if is_textual c then with_text_buffer c (clear_rows [] (text_buffer c)) else c.

Definition clear (c : TextCanvas) : TextCanvas :=
  _clear_text_buffer (_clear_color_buffer (_clear_buffer c)).


(** [get_pixel]: [None] outside the screen. *)
Definition get_pixel (c : TextCanvas) (x y : Z) : option bool :=
  if negb (_check_screen_bounds c x y) then None
  else Some (get2 false (buffer c) y x).

Definition _color_pixel (c : TextCanvas) (x y : Z) : TextCanvas :=
  with_color_buffer c (set2 (color_buffer c) (y / 4) (x / 2) (_color c)).

Definition _decolor_pixel (c : TextCanvas) (x y : Z) : TextCanvas :=
  with_color_buffer c (set2 (color_buffer c) (y / 4) (x / 2) NoColor).

(** [set_pixel]. *)
Definition set_pixel (c : TextCanvas) (x y : Z) (state : bool) : TextCanvas :=
  if negb (_check_screen_bounds c x y) then c
  else
    let state := if is_inverted c then negb state else state in
    let c := with_buffer c (set2 (buffer c) y x state) in
    if is_colorized c then
      (if state then _color_pixel c x y else _decolor_pixel c x y)
    else c.

(* ------------------------------------------------------------------ *)
(** ** Text *)

(** [_draw_char]. *)
Definition _draw_char (c : TextCanvas) (ch : Z) (x y : Z) (merge : bool) : TextCanvas :=
  if negb (_check_output_bounds c x y) then c
  else if ch =? SPACE then
    (if merge then c else with_text_buffer c (set2 (text_buffer c) y x []))
  else with_text_buffer c (set2 (text_buffer c) y x (format (_color c) [ch])).

(** The [for char in text: ...; x += 1] loop of [draw_text] and
    [merge_text]. *)
Fixpoint draw_chars_h (c : TextCanvas) (text : ustr) (x y : Z) (merge : bool) : TextCanvas :=
  match text with
  | [] => c
  | ch :: text' => draw_chars_h (_draw_char c ch x y merge) text' (x + 1) y merge
  end.

(** The [for char in text: ...; y += 1] loop of the vertical variants. *)
Fixpoint draw_chars_v (c : TextCanvas) (text : ustr) (x y : Z) (merge : bool) : TextCanvas :=
  match text with
  | [] => c
  | ch :: text' => draw_chars_v (_draw_char c ch x y merge) text' x (y + 1) merge
  end.

Definition ensure_textual (c : TextCanvas) : TextCanvas :=
  if is_textual c then c else _init_text_buffer c.

Definition draw_text (c : TextCanvas) (text : ustr) (x y : Z) : TextCanvas :=
  draw_chars_h (ensure_textual c) text x y false.
Definition draw_text_vertical (c : TextCanvas) (text : ustr) (x y : Z) : TextCanvas :=
  draw_chars_v (ensure_textual c) text x y false.
Definition merge_text (c : TextCanvas) (text : ustr) (x y : Z) : TextCanvas :=
  draw_chars_h (ensure_textual c) text x y true.
Definition merge_text_vertical (c : TextCanvas) (text : ustr) (x y : Z) : TextCanvas :=
  draw_chars_v (ensure_textual c) text x y true.

(* ------------------------------------------------------------------ *)
(** ** Braille encoding and serialization *)

Definition BRAILLE_UNICODE_0 : Z := 0x2800.

(** [PixelBlock]: four rows of two pixels. *)
Definition PixelBlock : Type := ((bool * bool) * (bool * bool) * (bool * bool) * (bool * bool))%type.

Definition BRAILLE_UNICODE_OFFSET_MAP : list (Z * Z) :=
  [(0x1, 0x8); (0x2, 0x10); (0x4, 0x20); (0x40, 0x80)].

Definition pixel_block_rows (pb : PixelBlock) : list (bool * bool) :=
  let '(r0, r1, r2, r3) := pb in [r0; r1; r2; r3].

(** [_pixel_block_to_braille_char]: the loop over rows [y] and columns
    [x], then [chr]. *)
Definition _pixel_block_to_braille_char (pb : PixelBlock) : ustr :=
  [fold_left
     (fun (acc : Z) (pv : (bool * bool) * (Z * Z)) =>
        let '((p0, p1), (v0, v1)) := pv in
        let acc := if p0 then acc + v0 else acc in
        if p1 then acc + v1 else acc)
     (combine (pixel_block_rows pb) BRAILLE_UNICODE_OFFSET_MAP)
     BRAILLE_UNICODE_0].

(** The block whose top-left screen pixel is [(x, y)]. *)
Definition block_at (c : TextCanvas) (x y : Z) : PixelBlock :=
  let g := get2 false (buffer c) in
  ((g y x, g y (x + 1)), (g (y + 1) x, g (y + 1) (x + 1)),
   (g (y + 2) x, g (y + 2) (x + 1)), (g (y + 3) x, g (y + 3) (x + 1))).

(** [_iter_buffer_by_blocks_lrtb]. *)
Definition _iter_buffer_by_blocks_lrtb (c : TextCanvas) : list PixelBlock :=
  flat_map (fun y => map (fun x => block_at c x y) (zrange_step 0 (width (screen c)) 2))
    (zrange_step 0 (height (screen c)) 4).

Definition _get_text_char (c : TextCanvas) (x y : Z) : ustr :=
  if is_textual c then get2 [] (text_buffer c) y x else [].

Definition _color_pixel_char (c : TextCanvas) (x y : Z) (pixel_char : ustr) : ustr :=
  if is_colorized c then format (get2 NoColor (color_buffer c) y x) pixel_char
  else pixel_char.

(** The body of the [for i, pixel_block in enumerate(...)] loop of
    [to_string]. *)
Fixpoint to_string_loop (c : TextCanvas) (i : Z) (blocks : list PixelBlock) (res : ustr) : ustr :=
  match blocks with
  | [] => res
  | pixel_block :: blocks' =>
      let x := i mod width (output c) in
      let y := i / width (output c) in
      let res :=
        match _get_text_char c x y with
        | [] => res ++ _color_pixel_char c x y (_pixel_block_to_braille_char pixel_block)
        | text_char => res ++ text_char
        end in
      let res := if (i + 1) mod width (output c) =? 0 then res ++ [NEWLINE] else res in
      to_string_loop c (i + 1) blocks' res
  end.

Definition to_string (c : TextCanvas) : ustr :=
  to_string_loop c 0 (_iter_buffer_by_blocks_lrtb c) [].

(** What [to_string] emits for output cell [(x, y)]: the text character
    if there is one, else the (colored) Braille character of the pixel
    block whose top-left screen pixel is [(2 * x, 4 * y)]. *)
Definition to_string_cell (c : TextCanvas) (x y : Z) : ustr :=
  match _get_text_char c x y with
  | [] => _color_pixel_char c x y (_pixel_block_to_braille_char (block_at c (2 * x) (4 * y)))
  | text_char => text_char
  end.

(* ------------------------------------------------------------------ *)
(** ** Compositing *)

(** One iteration of the [for x, y in canvas.iter_buffer()] loop of
    [draw_canvas_onto_canvas], for source pixel [(x, y)] and offset
    [(dx, dy)]. *)
Definition composite_step (src : TextCanvas) (dx dy : Z) (merge : bool)
    (s : TextCanvas) (p : Z * Z) : TextCanvas :=
  let '(x, y) := p in
  let ddx := dx + x in
  let ddy := dy + y in
  if negb (_check_screen_bounds s ddx ddy) then s
  else
    let pixel := get2 false (buffer src) y x in
    let s :=
      if negb merge || pixel then
        let s := with_buffer s (set2 (buffer s) ddy ddx pixel) in
        if is_colorized src then
          let color := get2 NoColor (color_buffer src) (y / 4) (x / 2) in
          with_color_buffer s (set2 (color_buffer s) (ddy / 4) (ddx / 2) color)
        else s
      else s in
    if is_textual src then
      let text := get2 [] (text_buffer src) (y / 4) (x / 2) in
      if negb merge || negb (bool_decide (text = [])) then
        with_text_buffer s (set2 (text_buffer s) (ddy / 4) (ddx / 2) text)
      else s
    else s.

(** [draw_canvas_onto_canvas(canvas, dx, dy, merge)], for a source canvas
    distinct from [self]. *)
Definition draw_canvas_onto_canvas (self src : TextCanvas) (dx dy : Z) (merge : bool) : TextCanvas :=
  let self := if negb (is_colorized self) && is_colorized src then _init_color_buffer self else self in
  let self := if negb (is_textual self) && is_textual src then _init_text_buffer self else self in
  fold_left (composite_step src dx dy merge) (iter_buffer src) self.

Definition draw_canvas (self src : TextCanvas) (dx dy : Z) : TextCanvas :=
  draw_canvas_onto_canvas self src dx dy false.
Definition merge_canvas (self src : TextCanvas) (dx dy : Z) : TextCanvas :=
  draw_canvas_onto_canvas self src dx dy true.

(* ------------------------------------------------------------------ *)
(** ** Drawing primitives

    Primitives run in a state monad over the canvas that also carries a
    raised exception ([Raise], with the canvas as it was when raising) and
    the exhaustion of the iteration bound given to a [while True] loop
    ([OutOfFuel]). *)

Inductive res (A : Type) : Type :=
| Ok (a : A) (c : TextCanvas)
| Raise (e : exn) (c : TextCanvas)
| OutOfFuel (c : TextCanvas).
Arguments Ok {A} a c.
Arguments Raise {A} e c.
Arguments OutOfFuel {A} c.

Definition M (A : Type) : Type := TextCanvas -> res A.

Global Instance M_ret : MRet M := fun A a c => Ok a c.
Global Instance M_bind : MBind M := fun A B k m c =>
  match m c with
  | Ok a c' => k a c'
  | Raise e c' => Raise e c'
  | OutOfFuel c' => OutOfFuel c'
  end.

Definition raise {A} (e : exn) : M A := fun c => Raise e c.
Definition out_of_fuel {A} : M A := fun c => OutOfFuel c.
Definition gets {A} (f : TextCanvas -> A) : M A := fun c => Ok (f c) c.
Definition set_pixel_M (x y : Z) (state : bool) : M unit :=
  fun c => Ok tt (set_pixel c x y state).

(** [for a in l: body(a)]. *)
Fixpoint for_each {A} (l : list A) (body : A -> M unit) : M unit :=
  match l with
  | [] => mret tt
  | a :: l' => body a ;; for_each l' body
  end.

(** The [while True] loop of [_bresenham_line], run for at most [fuel]
    iterations; [mret tt] is a [break]. *)
Fixpoint bres_loop (fuel : nat) (x1 y1 x2 y2 sx sy dx dy error : Z) : M unit :=
  match fuel with
  | O => out_of_fuel
  | S fuel' =>
      set_pixel_M x1 y1 true ;;
      if (x1 =? x2) && (y1 =? y2) then mret tt
      else
        let e2 := 2 * error in
        let step_x :=
          if e2 >=? dy then (if x1 =? x2 then None else Some (error + dy, x1 + sx))
          else Some (error, x1) in
        match step_x with
        | None => mret tt
        | Some (error, x1) =>
            let step_y :=
              if e2 <=? dx then (if y1 =? y2 then None else Some (error + dx, y1 + sy))
              else Some (error, y1) in
            match step_y with
            | None => mret tt
            | Some (error, y1) => bres_loop fuel' x1 y1 x2 y2 sx sy dx dy error
            end
        end
  end.

(** [_bresenham_line].  The general case is given [dx - dy + 1]
    iterations, one more than the number of steps of the line. *)
Definition _bresenham_line (x1 y1 x2 y2 : Z) : M unit :=
  let dx := Z.abs (x2 - x1) in
  let sx := if x1 <? x2 then 1 else -1 in
  let dy := - Z.abs (y2 - y1) in
  let sy := if y1 <? y2 then 1 else -1 in
  let error := dx + dy in
  if dx =? 0 then
    for_each (zrange (Z.min y1 y2) (Z.max y1 y2 + 1)) (fun y => set_pixel_M x1 y true)
  else if dy =? 0 then
    for_each (zrange (Z.min x1 x2) (Z.max x1 x2 + 1)) (fun x => set_pixel_M x y1 true)
  else bres_loop (Z.to_nat (dx - dy + 1)) x1 y1 x2 y2 sx sy dx dy error.

Definition stroke_line (x1 y1 x2 y2 : Z) : M unit := _bresenham_line x1 y1 x2 y2.

Definition stroke_triangle (x1 y1 x2 y2 x3 y3 : Z) : M unit :=
  stroke_line x1 y1 x2 y2 ;; stroke_line x2 y2 x3 y3 ;; stroke_line x3 y3 x1 y1.

(** [_is_point_in_triangle] on integer points (the products and sums are
    exact Python [int]s compared with [0.0]). *)
Definition _is_point_in_triangle (px py p0x p0y p1x p1y p2x p2y : Z) : bool :=
  let s := (p0x - p2x) * (py - p2y) - (p0y - p2y) * (px - p2x) in
  let t := (p1x - p0x) * (py - p0y) - (p1y - p0y) * (px - p0x) in
  if negb (Bool.eqb (s <? 0) (t <? 0)) && negb (s =? 0) && negb (t =? 0) then false
  else
    let d := (p2x - p1x) * (py - p1y) - (p2y - p1y) * (px - p1x) in
    (d =? 0) || Bool.eqb (d <? 0) (s + t <=? 0).

Definition fill_triangle (x1 y1 x2 y2 x3 y3 : Z) : M unit :=
  stroke_triangle x1 y1 x2 y2 x3 y3 ;;
  let min_x := Z.min x1 (Z.min x2 x3) in
  let max_x := Z.max x1 (Z.max x2 x3) in
  let min_y := Z.min y1 (Z.min y2 y3) in
  let max_y := Z.max y1 (Z.max y2 y3) in
  for_each (zrange min_x (max_x + 1)) (fun x =>
    for_each (zrange min_y (max_y + 1)) (fun y =>
      if _is_point_in_triangle x y x1 y1 x2 y2 x3 y3 then set_pixel_M x y true
      else mret tt)).

Definition cx (c : TextCanvas) : Z := width (screen c) / 2.
Definition cy (c : TextCanvas) : Z := height (screen c) / 2.

Section Ngon.

(** Python [float] angles, and the floating-point part of
    [_compute_ngon_vertices] for one vertex index:
    [(int(round(cx + cos(theta) * radius)), int(round(cy - sin(theta) * radius)))]
    with [theta = vertex * (2 pi / sides) + angle]; [None] where the
    conversion to [int] raises. *)
Variable angle_t : Type.
Variable vertex_at : Z -> Z -> Z -> Z -> angle_t -> Z -> option (Z * Z).

Fixpoint collect_vertices (cx0 cy0 radius sides : Z) (angle : angle_t) (vs : list Z)
  : M (list (Z * Z)) :=
  match vs with
  | [] => mret []
  | v :: vs' =>
      match vertex_at cx0 cy0 radius sides angle v with
      | None => raise FloatToIntError
      | Some p => rest ← collect_vertices cx0 cy0 radius sides angle vs'; mret (p :: rest)
      end
  end.

Definition _compute_ngon_vertices (cx0 cy0 radius sides : Z) (angle : angle_t)
  : M (list (Z * Z)) :=
  collect_vertices cx0 cy0 radius sides angle (zrange 0 sides).

Definition join_vertices (fill : bool) (from_ to : Z * Z) : M unit :=
  if fill then
    cx0 ← gets cx; cy0 ← gets cy;
    fill_triangle cx0 cy0 from_.1 from_.2 to.1 to.2
  else stroke_line from_.1 from_.2 to.1 to.2.

(** [for vertex in vertices[1:]: join_vertices(previous, vertex); previous = vertex]. *)
Fixpoint join_all (fill : bool) (previous : Z * Z) (vs : list (Z * Z)) : M (Z * Z) :=
  match vs with
  | [] => mret previous
  | v :: vs' => join_vertices fill previous v ;; join_all fill v vs'
  end.

Definition _ngon (x y radius sides : Z) (angle : angle_t) (fill : bool) : M unit :=
  if sides <? 3 then raise (ValueError_ngon_sides sides)
  else
    vertices ← _compute_ngon_vertices x y radius sides angle;
    match vertices with
    | [] => raise IndexError
    | first :: rest =>
        previous ← join_all fill first rest;
        join_vertices fill previous first
    end.

Definition stroke_ngon (x y radius sides : Z) (angle : angle_t) : M unit :=
  _ngon x y radius sides angle false.
Definition fill_ngon (x y radius sides : Z) (angle : angle_t) : M unit :=
  _ngon x y radius sides angle true.

End Ngon.

(* ------------------------------------------------------------------ *)
(** ** Rectangles and circles *)

(** [stroke_rect]: [width, height = width - 1, height - 1], then four
    lines. *)
Definition stroke_rect (x y width height : Z) : M unit :=
  let width := width - 1 in
  let height := height - 1 in
  stroke_line x y (x + width) y ;;
  stroke_line (x + width) y (x + width) (y + height) ;;
  stroke_line (x + width) (y + height) x (y + height) ;;
  stroke_line x (y + height) x y.

(** [frame]: [stroke_rect(0, 0, screen.width, screen.height)]. *)
Definition frame : M unit :=
  sw ← gets (fun c => width (screen c));
  sh ← gets (fun c => height (screen c));
  stroke_rect 0 0 sw sh.

(** [fill_rect]: [for y in range(y, y + height): stroke_line(x, y, x + width - 1, y)]. *)
Definition fill_rect (x y width height : Z) : M unit :=
  for_each (zrange y (y + height)) (fun y' => stroke_line x y' (x + width - 1) y').

(** Python's conversion of an [int] [n] to a [float], also the true
    division [n / 2 ** s] of two ints: the double nearest to
    [n * 2 ** -s], ties to even, or [OverflowError] when that rounds to
    [2 ** 1024] or beyond, which happens from [FLOAT_OVERFLOW * 2 ** s]
    on (halfway between the largest double and [2 ** 1024]).  The
    magnitude is cut to 62 significant bits, with a sticky last bit for
    any nonzero bit shifted out, rounded by [of_uint63] and scaled
    exactly by [ldexp]. *)
Definition FLOAT_OVERFLOW : Z := 2 ^ 1024 - 2 ^ 970.

Definition int_to_float_shifted (n s : Z) : option PrimFloat.float :=
  let a := Z.abs n in
  if FLOAT_OVERFLOW * 2 ^ s <=? a then None
  else
    let k := Z.max 0 (Z.log2 a + 1 - 62) in
    let m := Z.lor (Z.shiftr a k) (if Z.land a (Z.ones k) =? 0 then 0 else 1) in
    let f := FloatOps.Z.ldexp (PrimFloat.of_uint63 (Uint63.of_Z m)) (k - s) in
    Some (if n <? 0 then PrimFloat.opp f else f).

(** [float(n)], as [float + int] and [float - int] convert [n]. *)
Definition int_to_float (n : Z) : option PrimFloat.float := int_to_float_shifted n 0.

(** The body of the loop: four lines ([fill]) or eight pixels. *)
Definition circle_points (cx0 cy0 : Z) (fill : bool) (x y : Z) : M unit :=
  if fill then
    stroke_line (cx0 - x) (cy0 - y) (cx0 + x) (cy0 - y) ;;
    stroke_line (cx0 + x) (cy0 + y) (cx0 - x) (cy0 + y) ;;
    stroke_line (cx0 - y) (cy0 - x) (cx0 + y) (cy0 - x) ;;
    stroke_line (cx0 + y) (cy0 + x) (cx0 - y) (cy0 + x)
  else
    set_pixel_M (cx0 - x) (cy0 - y) true ;;
    set_pixel_M (cx0 + x) (cy0 - y) true ;;
    set_pixel_M (cx0 + x) (cy0 + y) true ;;
    set_pixel_M (cx0 - x) (cy0 + y) true ;;
    set_pixel_M (cx0 - y) (cy0 - x) true ;;
    set_pixel_M (cx0 + y) (cy0 - x) true ;;
    set_pixel_M (cx0 + y) (cy0 + x) true ;;
    set_pixel_M (cx0 - y) (cy0 + x) true.

(** The [while x >= y] loop of [_bresenham_circle]: [t1] is a Python
    [float]; [t1 += y] and [t2 = t1 - x] convert the [int] operand first
    (raising [OverflowError] when it is too large), then add or subtract
    in double precision.  The loop is given [fuel] iterations. *)
Fixpoint circle_loop (fuel : nat) (cx0 cy0 : Z) (fill : bool) (x y : Z) (t1 : PrimFloat.float) : M unit :=
  match fuel with
  | O => out_of_fuel
  | S fuel' =>
      if x >=? y then
        circle_points cx0 cy0 fill x y ;;
        let y := y + 1 in
        match int_to_float y with
        | None => raise OverflowError
        | Some fy =>
            let t1 := PrimFloat.add t1 fy in
            match int_to_float x with
            | None => raise OverflowError
            | Some fx =>
                let t2 := PrimFloat.sub t1 fx in
                if PrimFloat.leb PrimFloat.zero t2 then circle_loop fuel' cx0 cy0 fill (x - 1) y t2
                else circle_loop fuel' cx0 cy0 fill x y t1
            end
        end
      else mret tt
  end.

(** [_bresenham_circle]: [t1 = radius / 16] (true division: a float, or
    [OverflowError]); then [x] starts at [radius] and [y] at [0]; every
    iteration increments [y] and never increments [x], so [radius + 1]
    iterations (and one more check) suffice. *)
Definition _bresenham_circle (x y radius : Z) (fill : bool) : M unit :=
  match int_to_float_shifted radius 4 with
  | None => raise OverflowError
  | Some t1 => circle_loop (S (Z.to_nat (radius + 1))) x y fill radius 0 t1
  end.

Definition stroke_circle (x y radius : Z) : M unit := _bresenham_circle x y radius false.
Definition fill_circle (x y radius : Z) : M unit := _bresenham_circle x y radius true.

(* ================================================================== *)
(** * Well-formed canvases and buffer lemmas *)

Definition lookup2 {A} (b : list (list A)) (y x : Z) : option A :=
  b !! Z.to_nat y ≫= fun row => row !! Z.to_nat x.

(** A grid of [h] rows of [w] entries. *)
Definition rows_of {A} (b : list (list A)) (h w : Z) : Prop :=
  length b = Z.to_nat h /\ Forall (fun row => length row = Z.to_nat w) b.

(** The shape invariant established by the constructor and the lazy
    buffer initialisations. *)
Definition wf (c : TextCanvas) : Prop :=
  1 <= width (output c) /\ 1 <= height (output c) /\
  width (screen c) = width (output c) * 2 /\
  height (screen c) = height (output c) * 4 /\
  rows_of (buffer c) (height (screen c)) (width (screen c)) /\
  (color_buffer c = [] \/ rows_of (color_buffer c) (height (output c)) (width (output c))) /\
  (text_buffer c = [] \/ rows_of (text_buffer c) (height (output c)) (width (output c))).

Lemma get2_lookup2 {A} (d : A) (b : list (list A)) y x :
  get2 d b y x = default d (lookup2 b y x).
Proof. reflexivity. Qed.

Lemma lookup2_set2_eq {A} (b : list (list A)) y x v w :
  lookup2 b y x = Some w -> lookup2 (set2 b y x v) y x = Some v.
Proof.
  unfold lookup2, set2. rewrite list_lookup_alter_eq.
  destruct (b !! Z.to_nat y) as [row|]; simpl; [|discriminate].
  intros H. apply list_lookup_insert_eq. eapply lookup_lt_Some; eauto.
Qed.

Lemma lookup2_set2_ne {A} (b : list (list A)) y x y' x' v :
  (Z.to_nat y, Z.to_nat x) <> (Z.to_nat y', Z.to_nat x') ->
  lookup2 (set2 b y x v) y' x' = lookup2 b y' x'.
Proof.
  intros Hne. unfold lookup2, set2.
  destruct (decide (Z.to_nat y = Z.to_nat y')) as [E|E].
  - rewrite <- E, list_lookup_alter_eq.
    destruct (b !! Z.to_nat y) as [row|]; simpl; [|done].
    rewrite list_lookup_insert_ne; [done|].
    intros Ex. apply Hne. rewrite E, Ex. done.
  - rewrite list_lookup_alter_ne; done.
Qed.

Lemma lookup2_set2_Some_inv {A} (b : list (list A)) y x y' x' v w :
  lookup2 b y' x' = Some w -> exists w', lookup2 (set2 b y x v) y' x' = Some w'.
Proof.
  intros H.
  destruct (decide ((Z.to_nat y, Z.to_nat x) = (Z.to_nat y', Z.to_nat x'))) as [E|E].
  - injection E as E1 E2. exists v.
    unfold lookup2 in *. rewrite <- E1, <- E2 in *.
    apply (lookup2_set2_eq b y x v w H).
  - exists w. rewrite lookup2_set2_ne; done.
Qed.

Lemma rows_of_set2 {A} (b : list (list A)) h w y x v :
  rows_of b h w -> rows_of (set2 b y x v) h w.
Proof.
  intros [Hl Hf]. split.
  - unfold set2. rewrite length_alter. done.
  - apply Forall_lookup_2. intros i row Hi. unfold set2 in Hi.
    destruct (decide (i = Z.to_nat y)) as [->|Hne].
    + rewrite list_lookup_alter_eq in Hi.
      destruct (b !! Z.to_nat y) as [r|] eqn:Er; simpl in Hi; [|discriminate].
      injection Hi as <-. rewrite length_insert.
      eapply (Forall_lookup_1 _ _ _ _ Hf Er).
    + rewrite list_lookup_alter_ne in Hi by done.
      eapply (Forall_lookup_1 _ _ _ _ Hf Hi).
Qed.

Lemma rows_of_lookup2 {A} (b : list (list A)) h w y x :
  rows_of b h w -> 0 <= y < h -> 0 <= x < w -> exists v, lookup2 b y x = Some v.
Proof.
  intros [Hl Hf] Hy Hx. unfold lookup2.
  destruct (b !! Z.to_nat y) as [row|] eqn:Er.
  - simpl. pose proof (Forall_lookup_1 _ _ _ _ Hf Er) as Hrow. simpl in Hrow.
    destruct (row !! Z.to_nat x) as [v|] eqn:Ev; [eauto|].
    apply lookup_ge_None in Ev. lia.
  - apply lookup_ge_None in Er. lia.
Qed.

Lemma rows_of_nonempty {A} (b : list (list A)) h w :
  rows_of b h w -> 1 <= h -> b <> [].
Proof. intros [Hl _] Hh ->. simpl in Hl. lia. Qed.

Lemma check_screen_bounds_spec c x y :
  _check_screen_bounds c x y = true <->
  0 <= x < width (screen c) /\ 0 <= y < height (screen c).
Proof.
  unfold _check_screen_bounds.
  rewrite !andb_true_iff, !Z.leb_le, !Z.ltb_lt. tauto.
Qed.

Lemma check_output_bounds_spec c x y :
  _check_output_bounds c x y = true <->
  0 <= x < width (output c) /\ 0 <= y < height (output c).
Proof.
  unfold _check_output_bounds.
  rewrite !andb_true_iff, !Z.leb_le, !Z.ltb_lt. tauto.
Qed.

(** The output cell owning an in-bounds screen pixel is in bounds. *)
Lemma owning_cell_in_bounds c x y :
  wf c -> 0 <= x < width (screen c) -> 0 <= y < height (screen c) ->
  0 <= x / 2 < width (output c) /\ 0 <= y / 4 < height (output c).
Proof.
  intros (Hw & Hh & Hsw & Hsh & _) Hx Hy.
  split; split.
  - apply Z.div_pos; lia.
  - apply Z.div_lt_upper_bound; lia.
  - apply Z.div_pos; lia.
  - apply Z.div_lt_upper_bound; lia.
Qed.

Lemma colorized_rows c :
  wf c -> is_colorized c = true ->
  rows_of (color_buffer c) (height (output c)) (width (output c)).
Proof.
  intros (_ & _ & _ & _ & _ & [Hc|Hc] & _) Hcol; [|done].
  unfold is_colorized in Hcol. rewrite Hc in Hcol. discriminate.
Qed.

Lemma with_buffer_wf c y x v :
  wf c -> wf (with_buffer c (set2 (buffer c) y x v)).
Proof.
  intros (Hw & Hh & Hsw & Hsh & Hb & Hcb & Htb).
  refine (conj Hw (conj Hh (conj Hsw (conj Hsh (conj _ (conj Hcb Htb)))))).
  apply rows_of_set2; done.
Qed.

Lemma with_color_buffer_wf c y x v :
  wf c -> wf (with_color_buffer c (set2 (color_buffer c) y x v)).
Proof.
  intros (Hw & Hh & Hsw & Hsh & Hb & Hcb & Htb).
  refine (conj Hw (conj Hh (conj Hsw (conj Hsh (conj Hb (conj _ Htb)))))).
  destruct Hcb as [Hc|Hc]; [left; rewrite Hc; done | right; apply rows_of_set2; done].
Qed.

Lemma with_text_buffer_wf c y x v :
  wf c -> wf (with_text_buffer c (set2 (text_buffer c) y x v)).
Proof.
  intros (Hw & Hh & Hsw & Hsh & Hb & Hcb & Htb).
  refine (conj Hw (conj Hh (conj Hsw (conj Hsh (conj Hb (conj Hcb _)))))).
  destruct Htb as [Ht|Ht]; [left; rewrite Ht; done | right; apply rows_of_set2; done].
Qed.

Lemma set_pixel_wf c x y state : wf c -> wf (set_pixel c x y state).
Proof.
  intros Hwf. unfold set_pixel.
  destruct (negb (_check_screen_bounds c x y)); [done|].
  pose proof (with_buffer_wf c y x (if is_inverted c then negb state else state) Hwf) as H1.
  destruct (is_colorized _); [destruct (if is_inverted c then _ else _)|]; try done;
    apply with_color_buffer_wf; done.
Qed.

Lemma set_pixel_frame c x y state :
  output (set_pixel c x y state) = output c /\
  screen (set_pixel c x y state) = screen c /\
  is_inverted (set_pixel c x y state) = is_inverted c /\
  _color (set_pixel c x y state) = _color c /\
  text_buffer (set_pixel c x y state) = text_buffer c.
Proof.
  unfold set_pixel. destruct (negb _); [done|].
  destruct (is_colorized _); [destruct (if is_inverted c then _ else _)|]; done.
Qed.

Lemma set_pixel_buffer c x y state :
  buffer (set_pixel c x y state) =
  if _check_screen_bounds c x y
  then set2 (buffer c) y x (if is_inverted c then negb state else state)
  else buffer c.
Proof.
  unfold set_pixel. destruct (_check_screen_bounds c x y); [|done]. simpl.
  destruct (is_colorized _); [destruct (if is_inverted c then _ else _)|]; done.
Qed.

Lemma set_pixel_color_buffer c x y state :
  color_buffer (set_pixel c x y state) =
  if _check_screen_bounds c x y && is_colorized c
  then set2 (color_buffer c) (y / 4) (x / 2)
         (if (if is_inverted c then negb state else state) then _color c else NoColor)
  else color_buffer c.
Proof.
  unfold set_pixel, is_colorized, _color_pixel, _decolor_pixel, with_buffer,
    with_color_buffer.
  destruct (_check_screen_bounds c x y); [|done]. simpl.
  destruct (color_buffer c); [done|].
  destruct (is_inverted c), state; done.
Qed.

Lemma get_pixel_same_screen c c' x y :
  screen c' = screen c ->
  get_pixel c' x y =
  if _check_screen_bounds c x y then Some (get2 false (buffer c') y x) else None.
Proof.
  intros Hs. unfold get_pixel, _check_screen_bounds. rewrite Hs.
  destruct (_ && _); done.
Qed.

(** The effect of an in-bounds [set_pixel] on its pixel and on the color
    cell that owns it. *)
Lemma set_pixel_cell c x y state :
  wf c -> 0 <= x < width (screen c) -> 0 <= y < height (screen c) ->
  let st := if is_inverted c then negb state else state in
  get_pixel (set_pixel c x y state) x y = Some st /\
  (is_colorized c = true ->
   lookup2 (color_buffer (set_pixel c x y state)) (y / 4) (x / 2) =
   Some (if st then _color c else NoColor)).
Proof.
  intros Hwf Hx Hy st.
  pose proof (owning_cell_in_bounds c x y Hwf Hx Hy) as [Hcx Hcy].
  assert (Hin : _check_screen_bounds c x y = true) by (apply check_screen_bounds_spec; lia).
  pose proof (set_pixel_frame c x y state) as (_ & Hs & _).
  destruct Hwf as (Hw & Hh & Hsw & Hsh & Hb & Hcb & Htb).
  destruct (rows_of_lookup2 _ _ _ y x Hb Hy Hx) as [p Hp].
  split.
  - rewrite (get_pixel_same_screen c _ x y Hs), Hin, set_pixel_buffer, Hin.
    rewrite get2_lookup2, (lookup2_set2_eq _ _ _ _ _ Hp). done.
  - intros Hcol. rewrite set_pixel_color_buffer, Hin, Hcol. simpl.
    destruct Hcb as [Hc|Hcb]; [unfold is_colorized in Hcol; rewrite Hc in Hcol; discriminate|].
    destruct (rows_of_lookup2 _ _ _ (y / 4) (x / 2) Hcb Hcy Hcx) as [col Hcol'].
    eapply lookup2_set2_eq; eauto.
Qed.

(** A boolean check of [wf], to establish it on concrete canvases. *)
Definition rows_ofb {A} (b : list (list A)) (h w : Z) : bool :=
  (length b =? Z.to_nat h)%nat && forallb (fun row => (length row =? Z.to_nat w)%nat) b.

Definition wfb (c : TextCanvas) : bool :=
  (1 <=? width (output c)) && (1 <=? height (output c)) &&
  (width (screen c) =? width (output c) * 2) &&
  (height (screen c) =? height (output c) * 4) &&
  rows_ofb (buffer c) (height (screen c)) (width (screen c)) &&
  (negb (is_colorized c) || rows_ofb (color_buffer c) (height (output c)) (width (output c))) &&
  (negb (is_textual c) || rows_ofb (text_buffer c) (height (output c)) (width (output c))).

Lemma rows_ofb_rows_of {A} (b : list (list A)) h w : rows_ofb b h w = true -> rows_of b h w.
Proof.
  unfold rows_ofb, rows_of. rewrite andb_true_iff, Nat.eqb_eq, forallb_forall.
  intros [Hl Hf]. split; [done|]. apply Forall_forall.
  intros row Hr. apply Nat.eqb_eq, Hf, list_elem_of_In, Hr.
Qed.

Lemma wfb_wf c : wfb c = true -> wf c.
Proof.
  unfold wfb, wf, is_colorized, is_textual. rewrite !andb_true_iff, !orb_true_iff.
  rewrite !Z.leb_le, !Z.eqb_eq.
  intros ((((((Hw & Hh) & Hsw) & Hsh) & Hb) & Hcb) & Htb).
  refine (conj Hw (conj Hh (conj Hsw (conj Hsh (conj _ (conj _ _)))))).
  - apply rows_ofb_rows_of; done.
  - destruct (color_buffer c); [left; done|].
    destruct Hcb as [Hcb|Hcb]; [discriminate|right; apply rows_ofb_rows_of; done].
  - destruct (text_buffer c); [left; done|].
    destruct Htb as [Htb|Htb]; [discriminate|right; apply rows_ofb_rows_of; done].
Qed.

(** The canvas [TextCanvas(w, h)] (for sizes the constructor accepts). *)
Definition new_canvas (w h : Z) : TextCanvas :=
  mkCanvas (mkSurface w h) (mkSurface (w * 2) (h * 4))
    (grid (w * 2) (h * 4) false) [] [] false NoColor.

Lemma TextCanvas_new_ok (w h : Z) :
  1 <= w -> 1 <= h -> TextCanvas_new w h = inr (new_canvas w h).
Proof.
  intros Hw Hh. unfold TextCanvas_new.
  replace (w <=? 0) with false by lia. replace (h <=? 0) with false by lia. done.
Qed.

(** Bright red, [Color().bright_red()]: [ESC[0;91m]. *)
Definition bright_red : Color := Ansi [48; 59; 57; 49].

(* ================================================================== *)
(** * Pixels *)

(** C3: outside [0, screen.width) x [0, screen.height), [get_pixel]
    returns [None] and [set_pixel] leaves the whole canvas unchanged. *)
Theorem pixel_out_of_bounds (c : TextCanvas) (x y : Z) (state : bool) :
  ~ (0 <= x < width (screen c) /\ 0 <= y < height (screen c)) ->
  get_pixel c x y = None /\ set_pixel c x y state = c.
Proof.
  intros Hout.
  assert (Hb : _check_screen_bounds c x y = false).
  { destruct (_check_screen_bounds c x y) eqn:E; [|done].
    apply check_screen_bounds_spec in E. contradiction. }
  unfold get_pixel, set_pixel. rewrite Hb. done.
Qed.

Lemma pixel_out_of_bounds_witness :
  ~ (0 <= -1 < width (screen (new_canvas 1 1)) /\ 0 <= 0 < height (screen (new_canvas 1 1))) /\
  get_pixel (new_canvas 1 1) (-1) 0 = None /\
  set_pixel (new_canvas 1 1) (-1) 0 true = new_canvas 1 1.
Proof.
  split; [simpl; lia|].
  apply (pixel_out_of_bounds (new_canvas 1 1) (-1) 0 true). simpl; lia.
Defined.

(** [set_pixel] at one pixel leaves the state of every other pixel as
    it was. *)
Lemma set_pixel_other c x y x' y' state :
  (x, y) <> (x', y') -> get_pixel (set_pixel c x y state) x' y' = get_pixel c x' y'.
Proof.
  intros Hne. pose proof (set_pixel_frame c x y state) as (_ & Hs & _).
  rewrite (get_pixel_same_screen c _ x' y' Hs), set_pixel_buffer.
  unfold get_pixel.
  destruct (_check_screen_bounds c x' y') eqn:E'; [|done].
  destruct (_check_screen_bounds c x y) eqn:E; [|done].
  apply check_screen_bounds_spec in E, E'.
  rewrite !get2_lookup2, lookup2_set2_ne; [done|].
  intros Heq. injection Heq as H1 H2. apply Hne. f_equal; lia.
Qed.

(** C2: on a colorized canvas, an in-bounds [set_pixel] whose effective
    state is [false] resets the color of the owning output cell
    [(x / 2, y / 4)] to [Color()], while every other pixel (in particular
    the other pixels of the same cell) keeps its state; an effective
    [true] paints that cell with the current draw color. *)
Theorem set_pixel_cell_color (c : TextCanvas) (x y : Z) (state : bool) :
  wf c -> is_colorized c = true ->
  0 <= x < width (screen c) -> 0 <= y < height (screen c) ->
  let effective := if is_inverted c then negb state else state in
  get_pixel (set_pixel c x y state) x y = Some effective /\
  (forall x' y', (x, y) <> (x', y') ->
     get_pixel (set_pixel c x y state) x' y' = get_pixel c x' y') /\
  (effective = false ->
   lookup2 (color_buffer (set_pixel c x y state)) (y / 4) (x / 2) = Some NoColor) /\
  (effective = true ->
   lookup2 (color_buffer (set_pixel c x y state)) (y / 4) (x / 2) = Some (_color c)).
Proof.
  intros Hwf Hcol Hx Hy effective.
  destruct (set_pixel_cell c x y state Hwf Hx Hy) as [Hp Hc].
  split; [exact Hp|]. split; [intros; apply set_pixel_other; done|].
  specialize (Hc Hcol). fold effective in Hc.
  split; intros He; rewrite He in Hc; exact Hc.
Qed.

(** Pixel [(1, 0)] is on and painted red; turning pixel [(0, 0)] of the
    same cell off resets the cell color. *)
Definition red_cell_canvas : TextCanvas :=
  set_pixel (set_color (new_canvas 1 1) bright_red) 1 0 true.

Lemma set_pixel_cell_color_witness :
  get_pixel red_cell_canvas 1 0 = Some true /\
  get_pixel (set_pixel red_cell_canvas 0 0 false) 1 0 = Some true /\
  lookup2 (color_buffer (set_pixel red_cell_canvas 0 0 false)) 0 0 = Some NoColor.
Proof.
  split; [vm_compute; reflexivity|].
  destruct (set_pixel_cell_color red_cell_canvas 0 0 false) as (_ & Hother & Hoff & _).
  - apply wfb_wf. vm_compute. reflexivity.
  - vm_compute. reflexivity.
  - simpl; lia.
  - simpl; lia.
  - split.
    + rewrite Hother; [vm_compute; reflexivity|]. intros H; discriminate.
    + apply Hoff. vm_compute. reflexivity.
Defined.

(** C9: in inverted mode the color side effect follows the effective
    (inverted) state: [set_pixel x y true] turns the pixel off and resets
    the cell color, [set_pixel x y false] turns it on and paints the cell
    with the current draw color. *)
Theorem set_pixel_inverted_color (c : TextCanvas) (x y : Z) :
  wf c -> is_colorized c = true -> is_inverted c = true ->
  0 <= x < width (screen c) -> 0 <= y < height (screen c) ->
  (get_pixel (set_pixel c x y true) x y = Some false /\
   lookup2 (color_buffer (set_pixel c x y true)) (y / 4) (x / 2) = Some NoColor) /\
  (get_pixel (set_pixel c x y false) x y = Some true /\
   lookup2 (color_buffer (set_pixel c x y false)) (y / 4) (x / 2) = Some (_color c)).
Proof.
  intros Hwf Hcol Hinv Hx Hy.
  destruct (set_pixel_cell c x y true Hwf Hx Hy) as [Hp1 Hc1].
  destruct (set_pixel_cell c x y false Hwf Hx Hy) as [Hp2 Hc2].
  specialize (Hc1 Hcol). specialize (Hc2 Hcol).
  simpl in *. rewrite Hinv in *. simpl in *. auto.
Qed.

Lemma set_pixel_inverted_color_witness :
  (get_pixel (set_pixel (invert (set_color (new_canvas 1 1) bright_red)) 1 2 true) 1 2 = Some false /\
   lookup2 (color_buffer (set_pixel (invert (set_color (new_canvas 1 1) bright_red)) 1 2 true)) 0 0
     = Some NoColor) /\
  (get_pixel (set_pixel (invert (set_color (new_canvas 1 1) bright_red)) 1 2 false) 1 2 = Some true /\
   lookup2 (color_buffer (set_pixel (invert (set_color (new_canvas 1 1) bright_red)) 1 2 false)) 0 0
     = Some bright_red).
Proof.
  apply (set_pixel_inverted_color (invert (set_color (new_canvas 1 1) bright_red)) 1 2).
  - apply wfb_wf. vm_compute. reflexivity.
  - vm_compute. reflexivity.
  - vm_compute. reflexivity.
  - simpl; lia.
  - simpl; lia.
Defined.

(* ================================================================== *)
(** * Braille encoding *)

(** C6: the encoding of a 2x4 block is total (a function on all 256
    blocks): the code point [0x2800] plus the bit values of the on
    pixels, always in the Braille Patterns block [0x2800 .. 0x28FF];
    the all-off block is [U+2800] and the all-on block [0x2800 + 0xFF]. *)
Theorem braille_encoding (p00 p01 p10 p11 p20 p21 p30 p31 : bool) :
  let n := 0x2800 + (Z.b2z p00 * 0x1 + Z.b2z p01 * 0x8 +
                     Z.b2z p10 * 0x2 + Z.b2z p11 * 0x10 +
                     Z.b2z p20 * 0x4 + Z.b2z p21 * 0x20 +
                     Z.b2z p30 * 0x40 + Z.b2z p31 * 0x80) in
  _pixel_block_to_braille_char ((p00, p01), (p10, p11), (p20, p21), (p30, p31)) = [n] /\
  0x2800 <= n <= 0x28FF /\
  _pixel_block_to_braille_char
    ((false, false), (false, false), (false, false), (false, false)) = [0x2800] /\
  _pixel_block_to_braille_char
    ((true, true), (true, true), (true, true), (true, true)) = [0x2800 + 0xFF].
Proof.
  intros n. subst n.
  split; [|split; [|split; reflexivity]].
  - unfold _pixel_block_to_braille_char. simpl.
    destruct p00, p01, p10, p11, p20, p21, p30, p31; reflexivity.
  - destruct p00, p01, p10, p11, p20, p21, p30, p31; simpl; lia.
Qed.

(* ================================================================== *)
(** * Text *)

(** C8: on a fresh 5x1 canvas (draw color [Color()]),
    [draw_text("bar", 1, 0)] gives the row [["", "b", "a", "r", ""]];
    then [draw_text("  ", 2, 0)] erases [a] and [r], while
    [merge_text("  ", 2, 0)] leaves them. *)
Theorem text_draw_merge_scenario :
  TextCanvas_new 5 1 = inr (new_canvas 5 1) /\
  _color (new_canvas 5 1) = NoColor /\
  text_buffer (draw_text (new_canvas 5 1) (ustr_of "bar"%string) 1 0) =
    [[ustr_of ""%string; ustr_of "b"%string; ustr_of "a"%string; ustr_of "r"%string; ustr_of ""%string]] /\
  text_buffer (draw_text (draw_text (new_canvas 5 1) (ustr_of "bar"%string) 1 0) (ustr_of "  "%string) 2 0) =
    [[ustr_of ""%string; ustr_of "b"%string; ustr_of ""%string; ustr_of ""%string; ustr_of ""%string]] /\
  text_buffer (merge_text (draw_text (new_canvas 5 1) (ustr_of "bar"%string) 1 0) (ustr_of "  "%string) 2 0) =
    [[ustr_of ""%string; ustr_of "b"%string; ustr_of "a"%string; ustr_of "r"%string; ustr_of ""%string]].
Proof. vm_compute. repeat split. Qed.

(* ================================================================== *)
(** * fill *)

Lemma zrange_In (a b k : Z) : In k (zrange a b) <-> a <= k < b.
Proof.
  unfold zrange. rewrite in_map_iff. split.
  - intros (n & <- & Hn). apply in_seq in Hn. lia.
  - intros Hk. exists (Z.to_nat (k - a)). split; [lia|]. apply in_seq. lia.
Qed.

Lemma in_iter_buffer (c : TextCanvas) (x y : Z) :
  0 <= x < width (screen c) -> 0 <= y < height (screen c) -> In (x, y) (iter_buffer c).
Proof.
  intros Hx Hy. unfold iter_buffer. apply in_flat_map.
  exists y. split; [apply zrange_In; done|].
  apply in_map_iff. exists x. split; [done|]. apply zrange_In; done.
Qed.

Lemma fill_loop_spec (l : list (Z * Z)) (c0 : TextCanvas) :
  let c' := fold_left (fun c' '(x, y) => with_buffer c' (set2 (buffer c') y x true)) l c0 in
  output c' = output c0 /\ screen c' = screen c0 /\
  color_buffer c' = color_buffer c0 /\ text_buffer c' = text_buffer c0 /\
  is_inverted c' = is_inverted c0 /\ _color c' = _color c0 /\
  (forall x y w, lookup2 (buffer c0) y x = Some w -> In (x, y) l \/ w = true ->
     lookup2 (buffer c') y x = Some true).
Proof.
  revert c0. induction l as [|[a b] l IH]; intros c0 c'.
  - subst c'. simpl. repeat split; try done.
    intros x y w Hw [Hf|Hw']; [destruct Hf|subst w; done].
  - subst c'. simpl.
    destruct (IH (with_buffer c0 (set2 (buffer c0) b a true)))
      as (Ho & Hs & Hc & Ht & Hi & Hcol & Hp).
    simpl in *. repeat split; try done.
    intros x y w Hw Hin.
    destruct (decide ((Z.to_nat b, Z.to_nat a) = (Z.to_nat y, Z.to_nat x))) as [E|E].
    + injection E as E1 E2. apply (Hp x y true); [|right; done].
      unfold lookup2 in *. rewrite <- E1, <- E2 in *.
      apply (lookup2_set2_eq (buffer c0) b a true w Hw).
    + apply (Hp x y w); [rewrite lookup2_set2_ne; done|].
      destruct Hin as [[Hab|Hin]|Hw']; auto.
      injection Hab as -> ->. contradiction.
Qed.

(** C10: [fill] turns every in-bounds pixel on, also in inverted mode
    (it does not go through [set_pixel]), and keeps the color buffer,
    the text buffer, the draw color and the [is_inverted] flag. *)
Theorem fill_frame (c : TextCanvas) :
  wf c ->
  (forall x y, 0 <= x < width (screen c) -> 0 <= y < height (screen c) ->
     get_pixel (fill c) x y = Some true) /\
  color_buffer (fill c) = color_buffer c /\
  text_buffer (fill c) = text_buffer c /\
  _color (fill c) = _color c /\
  is_inverted (fill c) = is_inverted c.
Proof.
  intros Hwf.
  destruct (fill_loop_spec (iter_buffer c) c) as (Ho & Hs & Hc & Ht & Hi & Hcol & Hp).
  unfold fill. repeat split; try done.
  intros x y Hx Hy.
  rewrite (get_pixel_same_screen c _ x y Hs).
  replace (_check_screen_bounds c x y) with true by (symmetry; apply check_screen_bounds_spec; done).
  destruct Hwf as (_ & _ & _ & _ & Hb & _).
  destruct (rows_of_lookup2 _ _ _ y x Hb Hy Hx) as [w Hw].
  rewrite get2_lookup2, (Hp x y w Hw); [done|].
  left. apply in_iter_buffer; done.
Qed.

(** In inverted mode, on a colorized and textual canvas. *)
Definition fill_witness_canvas : TextCanvas :=
  invert (draw_text (set_pixel (set_color (new_canvas 2 1) bright_red) 0 0 false)
            (ustr_of "hi"%string) 0 0).

Lemma fill_frame_witness :
  is_inverted fill_witness_canvas = true /\
  get_pixel (fill fill_witness_canvas) 3 3 = Some true /\
  color_buffer (fill fill_witness_canvas) = color_buffer fill_witness_canvas /\
  text_buffer (fill fill_witness_canvas) = text_buffer fill_witness_canvas /\
  _color (fill fill_witness_canvas) = _color fill_witness_canvas /\
  is_inverted (fill fill_witness_canvas) = is_inverted fill_witness_canvas.
Proof.
  destruct (fill_frame fill_witness_canvas) as (Hp & Hrest).
  - apply wfb_wf. vm_compute. reflexivity.
  - split; [vm_compute; reflexivity|]. split; [|exact Hrest].
    apply (Hp 3 3); simpl; lia.
Defined.

(* ================================================================== *)
(** * Compositing *)

(** A 1x1 canvas whose only cell is red while the cell's pixel [(1, 0)]
    is on. *)
Definition red_source_1x1 : TextCanvas :=
  set_pixel (set_color (new_canvas 1 1) bright_red) 1 0 true.

(** Drawn at offset [(1, 0)] onto a fresh 2x1 canvas: the first cell of
    the result is red while all of its pixels are off. *)
Definition red_cell_all_off : TextCanvas :=
  draw_canvas (new_canvas 2 1) red_source_1x1 1 0.

(** C1 (as stated, refuted): merging [red_cell_all_off] at [(0, 0)] onto a
    fresh 1x1 canvas, source pixel [(0, 0)] is off and its destination is
    in bounds, yet the destination cell [(0, 0)] does not receive the
    source cell's red: it keeps [Color()]. *)
Lemma merge_color_unconditional_counterexample :
  is_colorized red_cell_all_off = true /\
  get_pixel red_cell_all_off 0 0 = Some false /\
  _check_screen_bounds (new_canvas 1 1) (0 + 0) (0 + 0) = true /\
  lookup2 (color_buffer red_cell_all_off) (0 / 4) (0 / 2) = Some bright_red /\
  lookup2 (color_buffer (merge_canvas (new_canvas 1 1) red_cell_all_off 0 0))
    ((0 + 0) / 4) ((0 + 0) / 2) = Some NoColor /\
  lookup2 (color_buffer (merge_canvas (new_canvas 1 1) red_cell_all_off 0 0))
    ((0 + 0) / 4) ((0 + 0) / 2) <> lookup2 (color_buffer red_cell_all_off) (0 / 4) (0 / 2).
Proof. vm_compute. repeat split; discriminate. Qed.

(** C1 (amended): one iteration of the compositing loop for a source pixel
    [(x, y)] whose destination is in bounds.  In merge mode the color of
    the source cell [(x / 2, y / 4)] is copied to the destination cell
    only together with the pixel, i.e. only when the source pixel is on
    (and the source is colorized); an off source pixel writes neither
    pixel nor color.  In draw mode both are copied whenever the source is
    colorized. *)
Theorem composite_step_color (src s : TextCanvas) (dx dy x y : Z) :
  _check_screen_bounds s (dx + x) (dy + y) = true ->
  let pixel := get2 false (buffer src) y x in
  let color := get2 NoColor (color_buffer src) (y / 4) (x / 2) in
  (buffer (composite_step src dx dy true s (x, y)) =
     (if pixel then set2 (buffer s) (dy + y) (dx + x) pixel else buffer s) /\
   color_buffer (composite_step src dx dy true s (x, y)) =
     (if pixel && is_colorized src
      then set2 (color_buffer s) ((dy + y) / 4) ((dx + x) / 2) color
      else color_buffer s)) /\
  (buffer (composite_step src dx dy false s (x, y)) =
     set2 (buffer s) (dy + y) (dx + x) pixel /\
   color_buffer (composite_step src dx dy false s (x, y)) =
     (if is_colorized src
      then set2 (color_buffer s) ((dy + y) / 4) ((dx + x) / 2) color
      else color_buffer s)).
Proof.
  intros Hin pixel color. unfold composite_step. rewrite Hin. simpl.
  fold pixel color.
  destruct pixel, (is_colorized src), (is_textual src); simpl;
    try (destruct (bool_decide _)); repeat split.
Qed.

Lemma composite_step_color_witness :
  buffer (composite_step red_cell_all_off 0 0 true (new_canvas 1 1) (0, 0)) =
    buffer (new_canvas 1 1) /\
  color_buffer (composite_step red_cell_all_off 0 0 true (new_canvas 1 1) (0, 0)) =
    color_buffer (new_canvas 1 1).
Proof.
  destruct (composite_step_color red_cell_all_off (new_canvas 1 1) 0 0 0 0) as [[Hb Hc] _].
  - vm_compute. reflexivity.
  - rewrite Hb, Hc. vm_compute. split; reflexivity.
Defined.

(* ================================================================== *)
(** * The n-gon side-count check *)

(** A computation that never raises the n-gon side-count error. *)
Definition no_sides_error {A} (m : M A) : Prop :=
  forall c e c', m c <> Raise (ValueError_ngon_sides e) c'.

Lemma nse_bind {A B} (m : M A) (k : A -> M B) :
  no_sides_error m -> (forall a, no_sides_error (k a)) -> no_sides_error (m ≫= k).
Proof.
  intros Hm Hk c e c'. unfold mbind, M_bind.
  specialize (Hm c e c').
  destruct (m c) as [a c0|e0 c0|c0]; [apply Hk|congruence|discriminate].
Qed.

Lemma nse_ret {A} (a : A) : no_sides_error (mret a).
Proof. intros c e c'. discriminate. Qed.

Lemma nse_set_pixel x y st : no_sides_error (set_pixel_M x y st).
Proof. intros c e c'. discriminate. Qed.

Lemma nse_gets {A} (f : TextCanvas -> A) : no_sides_error (gets f).
Proof. intros c e c'. discriminate. Qed.

Lemma nse_out_of_fuel {A} : no_sides_error (@out_of_fuel A).
Proof. intros c e c'. discriminate. Qed.

Lemma nse_raise_float {A} : no_sides_error (@raise A FloatToIntError).
Proof. intros c e c'. discriminate. Qed.

Lemma nse_raise_index {A} : no_sides_error (@raise A IndexError).
Proof. intros c e c'. discriminate. Qed.

Lemma nse_for_each {A} (l : list A) (body : A -> M unit) :
  (forall a, no_sides_error (body a)) -> no_sides_error (for_each l body).
Proof.
  intros Hb. induction l as [|a l IH]; simpl; [apply nse_ret|].
  apply nse_bind; auto.
Qed.

Create HintDb nse.
#[local] Hint Resolve nse_bind nse_ret nse_set_pixel nse_gets nse_out_of_fuel
  nse_raise_float nse_raise_index nse_for_each : nse.

Lemma nse_bres_loop fuel x1 y1 x2 y2 sx sy dx dy error :
  no_sides_error (bres_loop fuel x1 y1 x2 y2 sx sy dx dy error).
Proof.
  revert x1 y1 error. induction fuel as [|fuel IH]; intros x1 y1 error; simpl;
    [apply nse_out_of_fuel|].
  apply nse_bind; [apply nse_set_pixel|intros _].
  destruct (_ && _); [apply nse_ret|].
  destruct (if _ >=? _ then _ else _) as [[error' x1']|]; [|apply nse_ret].
  destruct (if _ <=? _ then _ else _) as [[error'' y1']|]; [apply IH|apply nse_ret].
Qed.
#[local] Hint Resolve nse_bres_loop : nse.

Lemma nse_stroke_line x1 y1 x2 y2 : no_sides_error (stroke_line x1 y1 x2 y2).
Proof.
  unfold stroke_line, _bresenham_line.
  destruct (_ =? 0); [|destruct (_ =? 0)]; auto with nse.
Qed.
#[local] Hint Resolve nse_stroke_line : nse.

Lemma nse_fill_triangle x1 y1 x2 y2 x3 y3 : no_sides_error (fill_triangle x1 y1 x2 y2 x3 y3).
Proof.
  unfold fill_triangle, stroke_triangle.
  apply nse_bind; [auto with nse|intros _].
  apply nse_for_each. intros x. apply nse_for_each. intros y.
  destruct (_is_point_in_triangle _ _ _ _ _ _ _ _); auto with nse.
Qed.
#[local] Hint Resolve nse_fill_triangle : nse.

Lemma nse_join_vertices fill from_ to :
  no_sides_error (join_vertices fill from_ to).
Proof. unfold join_vertices. destruct fill; auto with nse. Qed.
#[local] Hint Resolve nse_join_vertices : nse.

Lemma nse_join_all fill previous vs :
  no_sides_error (join_all fill previous vs).
Proof.
  revert previous. induction vs as [|v vs IH]; intros previous; simpl; auto with nse.
Qed.
#[local] Hint Resolve nse_join_all : nse.

Lemma nse_collect_vertices angle_t vertex_at cx0 cy0 radius sides angle vs :
  no_sides_error (@collect_vertices angle_t vertex_at cx0 cy0 radius sides angle vs).
Proof.
  induction vs as [|v vs IH]; simpl; [apply nse_ret|].
  destruct (vertex_at _ _ _ _ _ _); auto with nse.
Qed.
#[local] Hint Resolve nse_collect_vertices : nse.

(** C4: with [sides < 3], [stroke_ngon] and [fill_ngon] raise the
    side-count [ValueError] on the canvas exactly as it was (nothing is
    drawn before the check); with [sides >= 3] that error is never
    raised.  The floating-point vertex computation is left abstract
    ([vertex_at]), so this holds whatever it computes. *)
Theorem ngon_sides_check (angle_t : Type)
    (vertex_at : Z -> Z -> Z -> Z -> angle_t -> Z -> option (Z * Z))
    (x y radius sides : Z) (angle : angle_t) (c : TextCanvas) :
  (sides < 3 ->
   stroke_ngon angle_t vertex_at x y radius sides angle c = Raise (ValueError_ngon_sides sides) c /\
   fill_ngon angle_t vertex_at x y radius sides angle c = Raise (ValueError_ngon_sides sides) c) /\
  (3 <= sides -> forall e c',
   stroke_ngon angle_t vertex_at x y radius sides angle c <> Raise (ValueError_ngon_sides e) c' /\
   fill_ngon angle_t vertex_at x y radius sides angle c <> Raise (ValueError_ngon_sides e) c').
Proof.
  unfold stroke_ngon, fill_ngon, _ngon. split.
  - intros Hs. replace (sides <? 3) with true by lia. split; reflexivity.
  - intros Hs e c'. replace (sides <? 3) with false by lia.
    assert (H : forall fill : bool, no_sides_error (
      vertices ← _compute_ngon_vertices angle_t vertex_at x y radius sides angle;
      match vertices with
      | [] => raise IndexError
      | first :: rest =>
          previous ← join_all fill first rest;
          join_vertices fill previous first
      end)).
    { intros fill. apply nse_bind; [unfold _compute_ngon_vertices; auto with nse|].
      intros [|first rest]; auto with nse. }
    split; apply H.
Qed.

(** A regular polygon whose vertices are placed on the canvas centre. *)
Definition center_vertices (cx0 cy0 radius sides : Z) (_ : unit) (v : Z) : option (Z * Z) :=
  Some (cx0 + v, cy0).

Lemma ngon_sides_check_witness :
  stroke_ngon unit center_vertices 15 10 7 2 tt (new_canvas 15 5) =
    Raise (ValueError_ngon_sides 2) (new_canvas 15 5) /\
  (forall e c', fill_ngon unit center_vertices 15 10 7 3 tt (new_canvas 15 5) <>
                Raise (ValueError_ngon_sides e) c').
Proof.
  split.
  - apply (ngon_sides_check unit center_vertices 15 10 7 2 tt (new_canvas 15 5)). lia.
  - intros e c'.
    apply (ngon_sides_check unit center_vertices 15 10 7 3 tt (new_canvas 15 5)). lia.
Defined.

(* ================================================================== *)
(** * Lines *)

(** [c'] is [c] with some more pixels turned on. *)
Definition grows (c c' : TextCanvas) : Prop :=
  wf c' /\ screen c' = screen c /\ is_inverted c' = is_inverted c /\
  (forall x y, get_pixel c x y = Some true -> get_pixel c' x y = Some true).

Lemma grows_refl c : wf c -> grows c c.
Proof. intros Hwf. exact (conj Hwf (conj eq_refl (conj eq_refl (fun x y H => H)))). Qed.

Lemma grows_trans c1 c2 c3 : grows c1 c2 -> grows c2 c3 -> grows c1 c3.
Proof.
  intros (_ & Hs1 & Hi1 & Hp1) (Hwf & Hs2 & Hi2 & Hp2).
  split; [exact Hwf|]. split; [congruence|]. split; [congruence|]. auto.
Qed.

Lemma set_pixel_hits c x y :
  wf c -> is_inverted c = false ->
  0 <= x < width (screen c) -> 0 <= y < height (screen c) ->
  get_pixel (set_pixel c x y true) x y = Some true.
Proof.
  intros Hwf Hi Hx Hy. destruct (set_pixel_cell c x y true Hwf Hx Hy) as [H _].
  rewrite Hi in H. exact H.
Qed.

Lemma set_pixel_grows c x y :
  wf c -> is_inverted c = false -> grows c (set_pixel c x y true).
Proof.
  intros Hwf Hi. pose proof (set_pixel_frame c x y true) as (_ & Hs & Hinv & _).
  split; [apply set_pixel_wf; done|]. split; [done|]. split; [done|].
  intros x' y' Hp.
  destruct (decide ((x, y) = (x', y'))) as [E|E].
  - injection E as <- <-. unfold get_pixel in Hp.
    destruct (_check_screen_bounds c x y) eqn:Eb; [|discriminate].
    apply check_screen_bounds_spec in Eb.
    apply set_pixel_hits; tauto.
  - rewrite set_pixel_other; done.
Qed.

Lemma bind_Ok {A B} (m : M A) (k : A -> M B) c a c' :
  m c = Ok a c' -> (m ≫= k) c = k a c'.
Proof. intros H. unfold mbind, M_bind. rewrite H. done. Qed.

(** A [for] loop of [set_pixel(.., .., True)] calls. *)
Lemma for_each_set_pixels (l : list Z) (fx fy : Z -> Z) (c : TextCanvas) :
  wf c -> is_inverted c = false ->
  exists c', for_each l (fun a => set_pixel_M (fx a) (fy a) true) c = Ok tt c' /\
    grows c c' /\
    (forall a, In a l -> 0 <= fx a < width (screen c) -> 0 <= fy a < height (screen c) ->
       get_pixel c' (fx a) (fy a) = Some true).
Proof.
  revert c. induction l as [|a l IH]; intros c Hwf Hi.
  - exists c. split; [done|]. split; [apply grows_refl; done|]. intros a [].
  - pose proof (set_pixel_grows c (fx a) (fy a) Hwf Hi) as Hg.
    destruct Hg as (Hwf1 & Hs1 & Hi1 & Hp1).
    destruct (IH (set_pixel c (fx a) (fy a) true) Hwf1 ltac:(congruence))
      as (c' & Hrun & Hg' & Hin).
    exists c'. split.
    { simpl. rewrite (bind_Ok _ _ c tt (set_pixel c (fx a) (fy a) true)); done. }
    split; [eapply grows_trans; [split; [exact Hwf1|split; [exact Hs1|split; [exact Hi1|exact Hp1]]]|exact Hg']|].
    intros b [<-|Hb] Hx Hy.
    + destruct Hg' as (_ & _ & _ & Hp'). apply Hp'. apply set_pixel_hits; done.
    + apply Hin; [done| |]; rewrite Hs1; done.
Qed.

(** The invariant of the general case of [_bresenham_line]: with [u] and
    [v] the distances still to go in x and y ([dx = |x2 - x1|] and
    [dy = -|y2 - y1|] at the start),
    [error = dx * (1 - v) - dy * (u - 1)].  Each iteration decreases
    [u + v], neither [break] is reached before [(x2, y2)], and the loop
    ends with both [(x1, y1)] and [(x2, y2)] set. *)
Lemma bres_loop_spec (fuel : nat) (x2 y2 sx sy dx dy : Z) :
  0 < dx -> dy < 0 -> (sx = 1 \/ sx = -1) -> (sy = 1 \/ sy = -1) ->
  forall (u v x1 y1 error : Z) (c : TextCanvas),
  0 <= u -> 0 <= v -> x2 - x1 = sx * u -> y2 - y1 = sy * v ->
  error = dx * (1 - v) - dy * (u - 1) -> u + v < Z.of_nat fuel ->
  wf c -> is_inverted c = false ->
  exists c', bres_loop fuel x1 y1 x2 y2 sx sy dx dy error c = Ok tt c' /\ grows c c' /\
    (0 <= x1 < width (screen c) -> 0 <= y1 < height (screen c) -> get_pixel c' x1 y1 = Some true) /\
    (0 <= x2 < width (screen c) -> 0 <= y2 < height (screen c) -> get_pixel c' x2 y2 = Some true).
Proof.
  intros Hdx Hdy Hsx Hsy.
  induction fuel as [|fuel IH]; intros u v x1 y1 error c Hu Hv Hx Hy He Hf Hwf Hi; [lia|].
  pose proof (set_pixel_grows c x1 y1 Hwf Hi) as Hg1.
  pose proof Hg1 as (Hwf1 & Hs1 & Hi1 & Hp1).
  assert (Hhit : 0 <= x1 < width (screen c) -> 0 <= y1 < height (screen c) ->
                 get_pixel (set_pixel c x1 y1 true) x1 y1 = Some true)
    by (intros; apply set_pixel_hits; done).
  assert (Hrec : forall u' v' x1' y1' error',
    0 <= u' -> 0 <= v' -> x2 - x1' = sx * u' -> y2 - y1' = sy * v' ->
    error' = dx * (1 - v') - dy * (u' - 1) -> u' + v' < u + v ->
    exists c', bres_loop fuel x1' y1' x2 y2 sx sy dx dy error' (set_pixel c x1 y1 true) = Ok tt c' /\
      grows c c' /\
      (0 <= x1 < width (screen c) -> 0 <= y1 < height (screen c) -> get_pixel c' x1 y1 = Some true) /\
      (0 <= x2 < width (screen c) -> 0 <= y2 < height (screen c) -> get_pixel c' x2 y2 = Some true)).
  { intros u' v' x1' y1' error' Hu' Hv' Hx' Hy' He' Hlt.
    destruct (IH u' v' x1' y1' error' (set_pixel c x1 y1 true)) as (c' & Hr & Hg & _ & H2);
      try done; [lia|congruence|].
    exists c'. split; [done|]. split; [eapply grows_trans; eauto|]. split.
    - intros Hbx Hby. destruct Hg as (_ & _ & _ & Hp). apply Hp, Hhit; done.
    - intros Hbx Hby. apply H2; rewrite Hs1; done. }
  simpl. rewrite (bind_Ok _ _ c tt (set_pixel c x1 y1 true)) by done.
  destruct ((x1 =? x2) && (y1 =? y2)) eqn:Eend.
  { apply andb_true_iff in Eend as [E1 E2]. apply Z.eqb_eq in E1, E2. subst x2 y2.
    exists (set_pixel c x1 y1 true). split; [done|]. split; [done|].
    split; intros; apply Hhit; done. }
  assert (Hnz : u <> 0 \/ v <> 0).
  { destruct (Z.eq_dec u 0) as [->|]; [|tauto]. destruct (Z.eq_dec v 0) as [->|]; [|tauto].
    exfalso. rewrite andb_false_iff, !Z.eqb_neq in Eend. lia. }
  destruct (2 * error >=? dy) eqn:Ex.
  - apply Z.geb_le in Ex.
    destruct (x1 =? x2) eqn:Ex1.
    + exfalso. apply Z.eqb_eq in Ex1.
      assert (u = 0) by (destruct Hsx; subst; lia). subst u.
      assert (dx * (1 - v) <= 0) by nia. lia.
    + apply Z.eqb_neq in Ex1.
      assert (u <> 0) by (intros ->; lia).
      destruct (2 * error <=? dx) eqn:Ey; simpl.
      * apply Z.leb_le in Ey.
        destruct (y1 =? y2) eqn:Ey1.
        -- exfalso. apply Z.eqb_eq in Ey1.
           assert (v = 0) by (destruct Hsy; subst; lia). subst v.
           assert (dy * (u - 1) <= 0) by nia. lia.
        -- apply Z.eqb_neq in Ey1.
           assert (v <> 0) by (intros ->; lia).
           apply (Hrec (u - 1) (v - 1)); try lia; destruct Hsx, Hsy; subst; lia.
      * apply (Hrec (u - 1) v); try lia; destruct Hsx; subst; lia.
  - rewrite Z.geb_leb, Z.leb_gt in Ex.
    destruct (2 * error <=? dx) eqn:Ey; simpl.
    + apply Z.leb_le in Ey.
      destruct (y1 =? y2) eqn:Ey1.
      * exfalso. apply Z.eqb_eq in Ey1.
        assert (v = 0) by (destruct Hsy; subst; lia). subst v.
        assert (u <> 0) by tauto.
        assert (dy * (u - 1) <= 0) by nia. lia.
      * apply Z.eqb_neq in Ey1.
        assert (v <> 0) by (intros ->; lia).
        apply (Hrec u (v - 1)); try lia; destruct Hsy; subst; lia.
    + exfalso. apply Z.leb_gt in Ey. lia.
Qed.

(** Claim C7.  On a well-formed, non-inverted canvas, for endpoints
    [(x1, y1)] and [(x2, y2)] inside the screen, [stroke_line] terminates
    normally (no exception, and the loop of the general case ends within
    its [dx - dy + 1] iterations) and leaves both endpoints on; covered
    are the vertical ([dx = 0]), horizontal ([dy = 0]) and general cases.
    When start and end coincide, the line is exactly one [set_pixel] of
    that point. *)
Theorem stroke_line_endpoints (c : TextCanvas) (x1 y1 x2 y2 : Z) :
  wf c -> is_inverted c = false ->
  0 <= x1 < width (screen c) -> 0 <= y1 < height (screen c) ->
  0 <= x2 < width (screen c) -> 0 <= y2 < height (screen c) ->
  (exists c', stroke_line x1 y1 x2 y2 c = Ok tt c' /\
     get_pixel c' x1 y1 = Some true /\ get_pixel c' x2 y2 = Some true) /\
  (x1 = x2 -> y1 = y2 -> stroke_line x1 y1 x2 y2 c = Ok tt (set_pixel c x1 y1 true)).
Proof.
  intros Hwf Hi Hx1 Hy1 Hx2 Hy2. split.
  - unfold stroke_line, _bresenham_line. cbv zeta.
    destruct (Z.abs (x2 - x1) =? 0) eqn:Edx.
    + apply Z.eqb_eq in Edx. assert (x2 = x1) as -> by lia.
      destruct (for_each_set_pixels (zrange (Z.min y1 y2) (Z.max y1 y2 + 1))
                  (fun _ => x1) (fun y => y) c Hwf Hi) as (c' & Hr & _ & Hin).
      exists c'. split; [exact Hr|].
      split; [apply (Hin y1)|apply (Hin y2)]; try done; apply zrange_In; lia.
    + destruct (- Z.abs (y2 - y1) =? 0) eqn:Edy.
      * apply Z.eqb_eq in Edy. assert (y2 = y1) as -> by lia.
        destruct (for_each_set_pixels (zrange (Z.min x1 x2) (Z.max x1 x2 + 1))
                    (fun x => x) (fun _ => y1) c Hwf Hi) as (c' & Hr & _ & Hin).
        exists c'. split; [exact Hr|].
        split; [apply (Hin x1)|apply (Hin x2)]; try done; apply zrange_In; lia.
      * apply Z.eqb_neq in Edx, Edy.
        edestruct (bres_loop_spec (Z.to_nat (Z.abs (x2 - x1) - - Z.abs (y2 - y1) + 1))
                     x2 y2 (if x1 <? x2 then 1 else -1) (if y1 <? y2 then 1 else -1)
                     (Z.abs (x2 - x1)) (- Z.abs (y2 - y1)))
          with (u := Z.abs (x2 - x1)) (v := Z.abs (y2 - y1)) (x1 := x1) (y1 := y1) (c := c)
          as (c' & Hr & _ & H1 & H2);
          [lia|lia
          |destruct (x1 <? x2); auto
          |destruct (y1 <? y2); auto
          |lia|lia
          |destruct (x1 <? x2) eqn:E; [apply Z.ltb_lt in E|apply Z.ltb_ge in E]; lia
          |destruct (y1 <? y2) eqn:E; [apply Z.ltb_lt in E|apply Z.ltb_ge in E]; lia
          |reflexivity|lia|done|done|].
        exists c'. split; [|split; [apply H1|apply H2]; done].
        replace (Z.abs (x2 - x1) + - Z.abs (y2 - y1))
          with (Z.abs (x2 - x1) * (1 - Z.abs (y2 - y1)) - - Z.abs (y2 - y1) * (Z.abs (x2 - x1) - 1))
          by ring.
        exact Hr.
  - intros <- <-. unfold stroke_line, _bresenham_line. cbv zeta.
    rewrite Z.sub_diag. simpl.
    unfold zrange. rewrite Z.min_id, Z.max_id.
    replace (Z.to_nat (y1 + 1 - y1)) with 1%nat by lia. simpl.
    rewrite Z.add_0_r. done.
Qed.

Lemma stroke_line_endpoints_witness :
  (exists c', stroke_line 0 0 29 19 (new_canvas 15 5) = Ok tt c' /\
     get_pixel c' 0 0 = Some true /\ get_pixel c' 29 19 = Some true) /\
  (0 = 29 -> 0 = 19 -> stroke_line 0 0 29 19 (new_canvas 15 5) = Ok tt (set_pixel (new_canvas 15 5) 0 0 true)).
Proof.
  apply (stroke_line_endpoints (new_canvas 15 5) 0 0 29 19);
    [apply wfb_wf; vm_compute; reflexivity|reflexivity|simpl; lia..].
Defined.

(* ================================================================== *)
(** * Shape of [to_string] *)

(** Removal of the [ESC '[' ... 'm'] sequences that [Color.format] puts
    around a character, as a three-state scanner. *)
Inductive ansi_state := Plain | AfterEsc | InCsi.

Fixpoint strip_ansi_from (st : ansi_state) (s : ustr) : ustr :=
  match s with
  | [] => []
  | ch :: r =>
      match st with
      | Plain => if ch =? 27 then strip_ansi_from AfterEsc r else ch :: strip_ansi_from Plain r
      | AfterEsc => if ch =? 91 then strip_ansi_from InCsi r else 27 :: ch :: strip_ansi_from Plain r
      | InCsi => if ch =? 109 then strip_ansi_from Plain r else strip_ansi_from InCsi r
      end
  end.

Definition strip_ansi (s : ustr) : ustr := strip_ansi_from Plain s.

(** [s.count("\n")]. *)
Fixpoint count_newlines (s : ustr) : nat :=
  match s with
  | [] => O
  | ch :: r => Nat.add (if ch =? NEWLINE then 1%nat else 0%nat) (count_newlines r)
  end.

(** SGR parameter strings that [strip_ansi] removes together with the
    [ESC '['] before them and the final ["m"]: no ["m"] and no line feed,
    except where one sequence is closed and the next opened
    (["m" ESC '[']), as [Color] does for an RGB or 8-bit foreground and
    background. *)
Inductive csi_ok : ustr -> Prop :=
| csi_nil : csi_ok []
| csi_char d t : d <> 109 -> d <> NEWLINE -> csi_ok t -> csi_ok (d :: t)
| csi_reopen t : csi_ok t -> csi_ok (109 :: 27 :: 91 :: t).

Definition color_strips (col : Color) : Prop :=
  match col with NoColor => True | Ansi sgr => csi_ok sgr end.

(** A text-buffer entry as [_draw_char] stores it: empty, or one
    character passed through [Color.format]; here the character is
    neither a line feed nor an escape. *)
Definition text_cell_ok (t : ustr) : Prop :=
  t = [] \/ exists col ch, t = format col [ch] /\ color_strips col /\ ch <> NEWLINE /\ ch <> 27.

Definition is_braille (g : Z) : Prop := 0x2800 <= g <= 0x28FF.

(** What one iteration of the [to_string] loop appends: the cell's
    text, or else its (colored) Braille character; then the line feed. *)
Definition to_string_piece (c : TextCanvas) (i : Z) (pixel_block : PixelBlock) : ustr :=
  let x := i mod width (output c) in
  let y := i / width (output c) in
  match _get_text_char c x y with
  | [] => _color_pixel_char c x y (_pixel_block_to_braille_char pixel_block)
  | text_char => text_char
  end.

Definition to_string_eol (c : TextCanvas) (i : Z) : ustr :=
  if (i + 1) mod width (output c) =? 0 then [NEWLINE] else [].

Fixpoint to_string_pieces (c : TextCanvas) (i : Z) (blocks : list PixelBlock) : ustr :=
  match blocks with
  | [] => []
  | pb :: blocks' => (to_string_piece c i pb ++ to_string_eol c i) ++ to_string_pieces c (i + 1) blocks'
  end.

Lemma to_string_loop_pieces c i blocks res :
  to_string_loop c i blocks res = res ++ to_string_pieces c i blocks.
Proof.
  revert i res. induction blocks as [|pb blocks IH]; intros i res; simpl.
  - rewrite app_nil_r. done.
  - rewrite IH. rewrite !app_assoc. f_equal.
    unfold to_string_piece, to_string_eol.
    destruct (_get_text_char _ _ _); destruct (_ =? 0); rewrite ?app_nil_r, ?app_assoc; done.
Qed.

Lemma to_string_pieces_app c i b1 b2 :
  to_string_pieces c i (b1 ++ b2) =
  to_string_pieces c i b1 ++ to_string_pieces c (i + Z.of_nat (length b1)) b2.
Proof.
  revert i. induction b1 as [|pb b1 IH]; intros i; simpl.
  - rewrite Z.add_0_r. done.
  - replace (i + Z.of_nat (S (length b1))) with (i + 1 + Z.of_nat (length b1)) by lia.
    rewrite IH, !app_assoc. done.
Qed.

Lemma count_newlines_app s1 s2 :
  count_newlines (s1 ++ s2) = (count_newlines s1 + count_newlines s2)%nat.
Proof. induction s1 as [|ch s1 IH]; simpl; [done|]. rewrite IH. lia. Qed.

Lemma strip_csi_ok sgr s :
  csi_ok sgr -> strip_ansi_from InCsi (sgr ++ s) = strip_ansi_from InCsi s.
Proof.
  induction 1 as [|d sgr Hd _ _ IH|sgr _ IH]; [done| |].
  - simpl. destruct (Z.eqb_spec d 109); [contradiction|exact IH].
  - exact IH.
Qed.

Lemma count_newlines_csi sgr :
  csi_ok sgr -> count_newlines sgr = O.
Proof.
  induction 1 as [|d sgr Hd Hn _ IH|sgr _ IH]; [done| |exact IH].
  simpl. destruct (Z.eqb_spec d NEWLINE); [contradiction|exact IH].
Qed.

Lemma strip_format col ch r :
  color_strips col -> ch <> 27 ->
  strip_ansi (format col [ch] ++ r) = ch :: strip_ansi r.
Proof.
  intros Hc Hch. unfold strip_ansi. destruct (Z.eqb_spec ch 27) as [|Hne]; [contradiction|].
  destruct col as [|sgr]; simpl.
  - rewrite (proj2 (Z.eqb_neq ch 27) Hne). done.
  - unfold ESC, RESET. rewrite <- !app_assoc. simpl.
    rewrite strip_csi_ok by exact Hc. simpl.
    rewrite (proj2 (Z.eqb_neq ch 27) Hne). done.
Qed.

Lemma count_newlines_format col ch :
  color_strips col -> ch <> NEWLINE -> count_newlines (format col [ch]) = O.
Proof.
  intros Hc Hch. destruct (Z.eqb_spec ch NEWLINE) as [|Hne]; [contradiction|].
  destruct col as [|sgr]; simpl.
  - rewrite (proj2 (Z.eqb_neq ch NEWLINE) Hne). done.
  - unfold ESC, RESET. rewrite count_newlines_app, count_newlines_csi by exact Hc. simpl.
    rewrite (proj2 (Z.eqb_neq ch NEWLINE) Hne). done.
Qed.

Lemma braille_char_range pb :
  exists g, _pixel_block_to_braille_char pb = [g] /\ is_braille g.
Proof.
  destruct pb as [[[[p00 p01] [p10 p11]] [p20 p21]] [p30 p31]].
  eexists. split; [reflexivity|]. unfold is_braille, BRAILLE_UNICODE_0.
  destruct p00, p01, p10, p11, p20, p21, p30, p31; simpl; lia.
Qed.

Lemma get2_Forall {A} (P : A -> Prop) (d : A) b y x :
  P d -> Forall (Forall P) b -> P (get2 d b y x).
Proof.
  intros Hd Hb. unfold get2.
  destruct (b !! Z.to_nat y) as [row|] eqn:Er; simpl; [|done].
  destruct (row !! Z.to_nat x) as [v|] eqn:Ev; simpl; [|done].
  eapply Forall_lookup_1; [eapply Forall_lookup_1|]; eauto.
Qed.

Lemma length_zrange_step a b s :
  length (zrange_step a b s) = Z.to_nat ((b - a + s - 1) / s).
Proof. unfold zrange_step. rewrite length_map, length_seq. done. Qed.

Lemma length_flat_map_const {A B} (f : A -> list B) (n : nat) (l : list A) :
  (forall a, length (f a) = n) -> length (flat_map f l) = (length l * n)%nat.
Proof. intros Hf. induction l as [|a l IH]; simpl; [done|]. rewrite length_app, Hf, IH. done. Qed.

Section ToStringShape.
Variable c : TextCanvas.
Hypothesis Hwf : wf c.
Hypothesis Htext : Forall (Forall text_cell_ok) (text_buffer c).
Hypothesis Hcolor : Forall (Forall color_strips) (color_buffer c).

Let W := width (output c).

Lemma piece_glyph i pb :
  exists g, g <> NEWLINE /\
    (forall s, strip_ansi (to_string_piece c i pb ++ s) = g :: strip_ansi s) /\
    count_newlines (to_string_piece c i pb) = O /\
    (is_textual c = false -> is_colorized c = false ->
       is_braille g /\ to_string_piece c i pb = [g]).
Proof.
  unfold to_string_piece. cbv zeta.
  set (x := i mod width (output c)). set (y := i / width (output c)).
  destruct (_get_text_char c x y) as [|t0 ts] eqn:Et.
  - destruct (braille_char_range pb) as (g & Hb & Hg). rewrite Hb.
    unfold is_braille in Hg.
    exists g. split; [unfold NEWLINE; lia|].
    unfold _color_pixel_char. destruct (is_colorized c) eqn:Ec.
    + assert (Hcol : color_strips (get2 NoColor (color_buffer c) y x))
        by (apply get2_Forall; [exact I|exact Hcolor]).
      split; [intros s; apply strip_format; [exact Hcol|lia]|].
      split; [apply count_newlines_format; [exact Hcol|unfold NEWLINE; lia]|].
      intros _ E. discriminate.
    + split; [intros s; apply (strip_format NoColor); [exact I|lia]|].
      split; [apply (count_newlines_format NoColor); [exact I|unfold NEWLINE; lia]|].
      intros _ _. split; [exact Hg|done].
  - unfold _get_text_char in Et. destruct (is_textual c) eqn:Etx; [|discriminate].
    assert (Hok : text_cell_ok (get2 [] (text_buffer c) y x))
      by (apply get2_Forall; [left; done|exact Htext]).
    rewrite Et in Hok. destruct Hok as [E|(col & ch & E & Hcol & Hnl & Hesc)]; [discriminate|].
    rewrite E. exists ch. split; [exact Hnl|].
    split; [intros s; apply strip_format; done|].
    split; [apply count_newlines_format; done|].
    intros E'. discriminate.
Qed.

(** The blocks of one output row, from column [m] on. *)
Lemma pieces_row (r : Z) :
  0 <= r ->
  forall (L : list PixelBlock) (m : Z), 0 <= m -> m + Z.of_nat (length L) = W -> L <> [] ->
  exists gs, length gs = length L /\ ~ In NEWLINE gs /\
    (forall s, strip_ansi (to_string_pieces c (W * r + m) L ++ s) = gs ++ NEWLINE :: strip_ansi s) /\
    count_newlines (to_string_pieces c (W * r + m) L) = 1%nat /\
    (is_textual c = false -> is_colorized c = false ->
       Forall is_braille gs /\ to_string_pieces c (W * r + m) L = gs ++ [NEWLINE]).
Proof.
  intros Hr L. induction L as [|pb L IH]; intros m Hm Hlen HL; [done|].
  destruct (piece_glyph (W * r + m) pb) as (g & Hg & Hs & Hn & Hb).
  assert (HW : 1 <= W) by (destruct Hwf; done).
  simpl in Hlen.
  destruct L as [|pb' L']; simpl in Hlen.
  - (* the last column: a line feed follows *)
    assert (Heol : to_string_eol c (W * r + m) = [NEWLINE]).
    { unfold to_string_eol. fold W.
      replace (W * r + m + 1) with ((r + 1) * W) by lia.
      rewrite Z.mod_mul by lia. done. }
    exists [g]. simpl. rewrite Heol, !app_nil_r.
    split; [done|]. split; [intros [E|[]]; congruence|].
    split; [intros s; rewrite <- app_assoc; rewrite Hs; done|].
    split; [rewrite count_newlines_app, Hn; done|].
    intros Ht Hc. destruct (Hb Ht Hc) as [Hbr ->]. split; [constructor; [exact Hbr|constructor]|done].
  - assert (Heol : to_string_eol c (W * r + m) = []).
    { unfold to_string_eol. fold W.
      replace (W * r + m + 1) with ((m + 1) + r * W) by lia.
      rewrite Z.mod_add by lia. rewrite Z.mod_small by (simpl in Hlen; lia).
      destruct (Z.eqb_spec (m + 1) 0); [lia|done]. }
    destruct (IH (m + 1)) as (gs & Hl & Hnin & Hss & Hcnt & Hbr);
      [lia|simpl in Hlen |- *; lia|discriminate|].
    replace (W * r + (m + 1)) with (W * r + m + 1) in * by lia.
    exists (g :: gs).
    change (to_string_pieces c (W * r + m) (pb :: pb' :: L'))
      with ((to_string_piece c (W * r + m) pb ++ to_string_eol c (W * r + m)) ++
            to_string_pieces c (W * r + m + 1) (pb' :: L')).
    rewrite Heol, app_nil_r.
    split; [simpl; rewrite Hl; done|].
    split; [intros [E|E]; [congruence|contradiction]|].
    split; [intros s; rewrite <- app_assoc, Hs, Hss; done|].
    split; [rewrite count_newlines_app, Hn, Hcnt; done|].
    intros Ht Hc. destruct (Hb Ht Hc) as [Hbg ->]. destruct (Hbr Ht Hc) as [Hbgs ->].
    split; [constructor; done|done].
Qed.

Let XS := zrange_step 0 (width (screen c)) 2.
Let row_blocks (y : Z) : list PixelBlock := map (fun x => block_at c x y) XS.

Lemma length_XS : length XS = Z.to_nat W.
Proof.
  destruct Hwf as (HW & _ & Hsw & _). unfold XS. rewrite length_zrange_step, Hsw. fold W.
  replace (W * 2 - 0 + 2 - 1) with (W * 2 + 1) by lia.
  rewrite Z.div_add_l by lia. change (1 / 2) with 0. rewrite Z.add_0_r. done.
Qed.

Lemma pieces_rows (YS : list Z) (r : Z) :
  0 <= r ->
  exists rows : list ustr,
    length rows = length YS /\
    Forall (fun row => length row = Z.to_nat W /\ ~ In NEWLINE row) rows /\
    (forall s, strip_ansi (to_string_pieces c (W * r) (flat_map row_blocks YS) ++ s) =
               concat (map (fun row => row ++ [NEWLINE]) rows) ++ strip_ansi s) /\
    count_newlines (to_string_pieces c (W * r) (flat_map row_blocks YS)) = length YS /\
    (is_textual c = false -> is_colorized c = false ->
       Forall (Forall is_braille) rows /\
       to_string_pieces c (W * r) (flat_map row_blocks YS) = concat (map (fun row => row ++ [NEWLINE]) rows)).
Proof.
  assert (HW : 1 <= W) by (destruct Hwf; done).
  revert r. induction YS as [|y YS IH]; intros r Hr.
  - exists []. simpl. split; [done|]. split; [constructor|]. split; [done|]. split; [done|].
    intros _ _. split; [constructor|done].
  - simpl flat_map. rewrite to_string_pieces_app.
    assert (Hlen : length (row_blocks y) = Z.to_nat W)
      by (unfold row_blocks; rewrite length_map; apply length_XS).
    destruct (pieces_row r Hr (row_blocks y) 0) as (gs & Hl & Hnin & Hs & Hn & Hb);
      [lia|lia|intros E; rewrite E in Hlen; simpl in Hlen; lia|].
    rewrite Z.add_0_r in Hs, Hn, Hb.
    replace (W * r + Z.of_nat (length (row_blocks y))) with (W * (r + 1)) by lia.
    destruct (IH (r + 1)) as (rows & Hrl & Hrows & Hrs & Hrn & Hrb); [lia|].
    exists (gs :: rows). simpl.
    split; [rewrite Hrl; done|].
    split; [constructor; [split; [lia|exact Hnin]|exact Hrows]|].
    split; [intros s; rewrite <- app_assoc, Hs, Hrs, <- !app_assoc; done|].
    split; [rewrite count_newlines_app, Hn, Hrn; lia|].
    intros Ht Hc. destruct (Hb Ht Hc) as [Hbg ->]. destruct (Hrb Ht Hc) as [Hbr ->].
    split; [constructor; done|rewrite <- app_assoc; done].
Qed.

Lemma to_string_rows :
  exists rows : list ustr,
    length rows = Z.to_nat (height (output c)) /\
    Forall (fun row => length row = Z.to_nat W /\ ~ In NEWLINE row) rows /\
    strip_ansi (to_string c) = concat (map (fun row => row ++ [NEWLINE]) rows) /\
    count_newlines (to_string c) = Z.to_nat (height (output c)) /\
    (is_textual c = false -> is_colorized c = false ->
       Forall (Forall is_braille) rows /\
       to_string c = concat (map (fun row => row ++ [NEWLINE]) rows)).
Proof.
  destruct Hwf as (HW & HH & _ & Hsh & _).
  unfold to_string. rewrite to_string_loop_pieces. simpl app.
  change (_iter_buffer_by_blocks_lrtb c)
    with (flat_map row_blocks (zrange_step 0 (height (screen c)) 4)).
  assert (HY : length (zrange_step 0 (height (screen c)) 4) = Z.to_nat (height (output c))).
  { rewrite length_zrange_step, Hsh.
    replace (height (output c) * 4 - 0 + 4 - 1) with (height (output c) * 4 + 3) by lia.
    rewrite Z.div_add_l by lia. change (3 / 4) with 0. rewrite Z.add_0_r. done. }
  destruct (pieces_rows (zrange_step 0 (height (screen c)) 4) 0) as (rows & Hl & Hrows & Hs & Hn & Hb);
    [lia|].
  rewrite Z.mul_0_r in Hs, Hn, Hb.
  specialize (Hs []). rewrite app_nil_r in Hs. simpl in Hs. rewrite app_nil_r in Hs.
  exists rows. rewrite <- HY.
  split; [exact Hl|]. split; [exact Hrows|].
  split; [exact Hs|].
  split; [exact Hn|exact Hb].
Qed.
End ToStringShape.

(** [draw_text("\n", 0, 0)] on a 1x1 canvas: [_draw_char] stores the
    line feed as the cell's text. *)
Definition newline_text_canvas : TextCanvas := draw_text (new_canvas 1 1) [NEWLINE] 0 0.

(** [draw_text("\x1b[m", 0, 0)] on a 3x1 canvas: with the empty draw
    color the three characters are stored as they are, and together they
    form an SGR sequence. *)
Definition esc_text_canvas : TextCanvas := draw_text (new_canvas 3 1) [27; 91; 109] 0 0.

(** C5 fails for text containing a line feed or an escape: the 1x1
    canvas with a line feed renders as ["\n\n"], two line terminators for
    one output row, its only line holding no glyph; the 3x1 canvas
    with [ESC "[m"] renders as [ESC "[m\n"], whose only line holds no
    glyph once the escape sequence is disregarded, for an output width
    of 3. *)
Lemma to_string_text_counterexample :
  (wf newline_text_canvas /\ height (output newline_text_canvas) = 1 /\
   width (output newline_text_canvas) = 1 /\
   to_string newline_text_canvas = [NEWLINE; NEWLINE] /\
   count_newlines (to_string newline_text_canvas) = 2%nat) /\
  (wf esc_text_canvas /\ height (output esc_text_canvas) = 1 /\
   width (output esc_text_canvas) = 3 /\
   to_string esc_text_canvas = [27; 91; 109; NEWLINE] /\
   strip_ansi (to_string esc_text_canvas) = [NEWLINE]).
Proof.
  split; (split; [apply wfb_wf; vm_compute; reflexivity|]);
    refine (conj _ (conj _ (conj _ _))); vm_compute; reflexivity.
Qed.


(* ================================================================== *)
(** * Drawing primitives: what they touch and what they set *)

(** [paints P Q m]: on a well-formed, non-inverted canvas, [m] returns
    normally, never turns a pixel off (nor changes the shape), turns on
    every on-screen pixel of [Q], and leaves every pixel outside [P] as
    it was. *)
Definition paints (P Q : Z -> Z -> Prop) (m : M unit) : Prop :=
  forall c, wf c -> is_inverted c = false ->
    exists c', m c = Ok tt c' /\ grows c c' /\
      (forall x y, Q x y -> 0 <= x < width (screen c) -> 0 <= y < height (screen c) ->
         get_pixel c' x y = Some true) /\
      (forall x y, ~ P x y -> get_pixel c' x y = get_pixel c x y).

(** The bounding box of two points. *)
Definition box (x1 y1 x2 y2 : Z) (x y : Z) : Prop :=
  Z.min x1 x2 <= x <= Z.max x1 x2 /\ Z.min y1 y2 <= y <= Z.max y1 y2.

(** The pixels [stroke_line] is sure to set: both endpoints, and the
    whole segment when the line is vertical or horizontal. *)
Definition line_pixels (x1 y1 x2 y2 : Z) (x y : Z) : Prop :=
  (x = x1 /\ y = y1) \/ (x = x2 /\ y = y2) \/
  (x1 = x2 /\ x = x1 /\ Z.min y1 y2 <= y <= Z.max y1 y2) \/
  (y1 = y2 /\ y = y1 /\ Z.min x1 x2 <= x <= Z.max x1 x2).

Lemma paints_weaken (P Q P' Q' : Z -> Z -> Prop) m :
  paints P Q m -> (forall x y, P x y -> P' x y) -> (forall x y, Q' x y -> Q x y) ->
  paints P' Q' m.
Proof.
  intros H HP HQ c Hwf Hi. destruct (H c Hwf Hi) as (c' & Hr & Hg & Hq & Hp).
  exists c'. split; [done|]. split; [done|]. split.
  - intros x y Hq'. apply Hq, HQ; done.
  - intros x y Hn. apply Hp. intros HP'. apply Hn, HP; done.
Qed.

Lemma paints_ret : paints (fun _ _ => False) (fun _ _ => False) (mret tt).
Proof.
  intros c Hwf Hi. exists c. split; [done|]. split; [apply grows_refl; done|].
  split; [intros ? ? []|done].
Qed.

Lemma paints_set_pixel x0 y0 :
  paints (fun x y => x = x0 /\ y = y0) (fun x y => x = x0 /\ y = y0) (set_pixel_M x0 y0 true).
Proof.
  intros c Hwf Hi. exists (set_pixel c x0 y0 true). split; [done|].
  split; [apply set_pixel_grows; done|]. split.
  - intros x y [-> ->] Hx Hy. apply set_pixel_hits; done.
  - intros x y Hn. apply set_pixel_other. intros E. injection E as -> ->. tauto.
Qed.

Lemma paints_seq (P1 Q1 P2 Q2 : Z -> Z -> Prop) (m1 m2 : M unit) :
  paints P1 Q1 m1 -> paints P2 Q2 m2 ->
  paints (fun x y => P1 x y \/ P2 x y) (fun x y => Q1 x y \/ Q2 x y) (m1 ;; m2).
Proof.
  intros H1 H2 c Hwf Hi.
  destruct (H1 c Hwf Hi) as (c1 & Hr1 & Hg1 & Hq1 & Hp1).
  pose proof Hg1 as (Hwf1 & Hs1 & Hi1 & Hm1).
  destruct (H2 c1 Hwf1 ltac:(congruence)) as (c2 & Hr2 & Hg2 & Hq2 & Hp2).
  exists c2. split; [rewrite (bind_Ok _ _ c tt c1); done|].
  split; [eapply grows_trans; eauto|]. split.
  - intros x y [Hq|Hq] Hx Hy.
    + destruct Hg2 as (_ & _ & _ & Hm2). apply Hm2, Hq1; done.
    + apply Hq2; [done| |]; rewrite Hs1; done.
  - intros x y Hn. rewrite Hp2, Hp1; [done| |]; tauto.
Qed.

Lemma paints_for_each {A} (l : list A) (body : A -> M unit) (P Q : A -> Z -> Z -> Prop) :
  (forall a, In a l -> paints (P a) (Q a) (body a)) ->
  paints (fun x y => exists a, In a l /\ P a x y) (fun x y => exists a, In a l /\ Q a x y)
    (for_each l body).
Proof.
  induction l as [|a l IH]; intros H; simpl.
  - eapply paints_weaken; [apply paints_ret|intros x y []|intros x y (b & [] & _)].
  - eapply paints_weaken; [apply paints_seq; [apply H; left; done|apply IH; intros b Hb; apply H; right; done]| |].
    + intros x y [Hp|(b & Hb & Hp)]; [exists a; auto|exists b; auto].
    + intros x y (b & [<-|Hb] & Hq); [left; done|right; exists b; auto].
Qed.

Lemma box_shrink x1 y1 x1' y1' x2 y2 x y :
  Z.min x1 x2 <= x1' <= Z.max x1 x2 -> Z.min y1 y2 <= y1' <= Z.max y1 y2 ->
  box x1' y1' x2 y2 x y -> box x1 y1 x2 y2 x y.
Proof. unfold box. lia. Qed.

(** The Bresenham loop touches only the box of its current point and
    its end point, and sets both. *)
Lemma bres_loop_paints (fuel : nat) (x2 y2 sx sy dx dy : Z) :
  0 < dx -> dy < 0 -> (sx = 1 \/ sx = -1) -> (sy = 1 \/ sy = -1) ->
  forall (u v x1 y1 error : Z),
  0 <= u -> 0 <= v -> x2 - x1 = sx * u -> y2 - y1 = sy * v ->
  error = dx * (1 - v) - dy * (u - 1) -> u + v < Z.of_nat fuel ->
  paints (box x1 y1 x2 y2) (fun x y => (x = x1 /\ y = y1) \/ (x = x2 /\ y = y2))
    (bres_loop fuel x1 y1 x2 y2 sx sy dx dy error).
Proof.
  intros Hdx Hdy Hsx Hsy.
  induction fuel as [|fuel IH]; intros u v x1 y1 error Hu Hv Hx Hy He Hf; [lia|].
  assert (Hstep : forall u' v' x1' y1' error',
    0 <= u' -> 0 <= v' -> x2 - x1' = sx * u' -> y2 - y1' = sy * v' ->
    error' = dx * (1 - v') - dy * (u' - 1) -> u' + v' < u + v ->
    Z.min x1 x2 <= x1' <= Z.max x1 x2 -> Z.min y1 y2 <= y1' <= Z.max y1 y2 ->
    paints (box x1 y1 x2 y2) (fun x y => (x = x1 /\ y = y1) \/ (x = x2 /\ y = y2))
      (set_pixel_M x1 y1 true ;; bres_loop fuel x1' y1' x2 y2 sx sy dx dy error')).
  { intros u' v' x1' y1' error' Hu' Hv' Hx' Hy' He' Hlt Hbx Hby.
    eapply paints_weaken;
      [apply paints_seq; [apply paints_set_pixel|apply (IH u' v'); try done; lia]| |].
    - intros x y [[-> ->]|Hb]; [unfold box; lia|eapply box_shrink; eauto].
    - intros x y [[-> ->]|[-> ->]]; [left; done|right; right; done]. }
  simpl.
  destruct ((x1 =? x2) && (y1 =? y2)) eqn:Eend.
  { apply andb_true_iff in Eend as [E1 E2]. apply Z.eqb_eq in E1, E2. subst x2 y2.
    eapply paints_weaken; [apply paints_seq; [apply paints_set_pixel|apply paints_ret]| |].
    - intros x y [[-> ->]|[]]. unfold box. lia.
    - intros x y [H|H]; left; done. }
  assert (Hnz : u <> 0 \/ v <> 0).
  { destruct (Z.eq_dec u 0) as [->|]; [|tauto]. destruct (Z.eq_dec v 0) as [->|]; [|tauto].
    exfalso. rewrite andb_false_iff, !Z.eqb_neq in Eend. lia. }
  destruct (2 * error >=? dy) eqn:Ex.
  - apply Z.geb_le in Ex.
    destruct (x1 =? x2) eqn:Ex1.
    + exfalso. apply Z.eqb_eq in Ex1.
      assert (u = 0) by (destruct Hsx; subst; lia). subst u.
      assert (dx * (1 - v) <= 0) by nia. lia.
    + apply Z.eqb_neq in Ex1.
      assert (u <> 0) by (intros ->; lia).
      destruct (2 * error <=? dx) eqn:Ey; simpl.
      * apply Z.leb_le in Ey.
        destruct (y1 =? y2) eqn:Ey1.
        -- exfalso. apply Z.eqb_eq in Ey1.
           assert (v = 0) by (destruct Hsy; subst; lia). subst v.
           assert (dy * (u - 1) <= 0) by nia. lia.
        -- apply Z.eqb_neq in Ey1.
           assert (v <> 0) by (intros ->; lia).
           apply (Hstep (u - 1) (v - 1)); try lia; destruct Hsx, Hsy; subst; lia.
      * apply (Hstep (u - 1) v); try lia; destruct Hsx; subst; lia.
  - rewrite Z.geb_leb, Z.leb_gt in Ex.
    destruct (2 * error <=? dx) eqn:Ey; simpl.
    + apply Z.leb_le in Ey.
      destruct (y1 =? y2) eqn:Ey1.
      * exfalso. apply Z.eqb_eq in Ey1.
        assert (v = 0) by (destruct Hsy; subst; lia). subst v.
        assert (u <> 0) by tauto.
        assert (dy * (u - 1) <= 0) by nia. lia.
      * apply Z.eqb_neq in Ey1.
        assert (v <> 0) by (intros ->; lia).
        apply (Hstep u (v - 1)); try lia; destruct Hsy; subst; lia.
    + exfalso. apply Z.leb_gt in Ey. lia.
Qed.

Lemma stroke_line_paints x1 y1 x2 y2 :
  paints (box x1 y1 x2 y2) (line_pixels x1 y1 x2 y2) (stroke_line x1 y1 x2 y2).
Proof.
  unfold stroke_line, _bresenham_line. cbv zeta.
  destruct (Z.abs (x2 - x1) =? 0) eqn:Edx.
  - apply Z.eqb_eq in Edx.
    eapply paints_weaken;
      [apply (paints_for_each _ _ (fun a x y => x = x1 /\ y = a) (fun a x y => x = x1 /\ y = a));
       intros a _; apply paints_set_pixel| |].
    + intros x y (a & Ha & -> & ->). apply zrange_In in Ha. unfold box. lia.
    + intros x y Hq. exists y. split; [apply zrange_In|]; unfold line_pixels in Hq; lia.
  - destruct (- Z.abs (y2 - y1) =? 0) eqn:Edy.
    + apply Z.eqb_eq in Edy.
      eapply paints_weaken;
        [apply (paints_for_each _ _ (fun a x y => x = a /\ y = y1) (fun a x y => x = a /\ y = y1));
         intros a _; apply paints_set_pixel| |].
      * intros x y (a & Ha & -> & ->). apply zrange_In in Ha. unfold box. lia.
      * intros x y Hq. exists x. split; [apply zrange_In|]; unfold line_pixels in Hq; lia.
    + apply Z.eqb_neq in Edx, Edy.
      eapply paints_weaken;
        [apply (bres_loop_paints _ x2 y2 (if x1 <? x2 then 1 else -1) (if y1 <? y2 then 1 else -1)
                  (Z.abs (x2 - x1)) (- Z.abs (y2 - y1)))
           with (u := Z.abs (x2 - x1)) (v := Z.abs (y2 - y1))| |].
      * lia.
      * lia.
      * destruct (x1 <? x2); auto.
      * destruct (y1 <? y2); auto.
      * lia.
      * lia.
      * destruct (x1 <? x2) eqn:E; [apply Z.ltb_lt in E|apply Z.ltb_ge in E]; lia.
      * destruct (y1 <? y2) eqn:E; [apply Z.ltb_lt in E|apply Z.ltb_ge in E]; lia.
      * ring.
      * lia.
      * done.
      * intros x y Hq. unfold line_pixels in Hq. simpl. lia.
Qed.

(** The border of the rectangle with corners [(x1, y1)] and [(x2, y2)]. *)
Definition rect_border (x1 y1 x2 y2 : Z) (x y : Z) : Prop :=
  ((y = y1 \/ y = y2) /\ Z.min x1 x2 <= x <= Z.max x1 x2) \/
  ((x = x1 \/ x = x2) /\ Z.min y1 y2 <= y <= Z.max y1 y2).

Lemma stroke_rect_paints x y width height :
  paints (rect_border x y (x + (width - 1)) (y + (height - 1)))
         (rect_border x y (x + (width - 1)) (y + (height - 1)))
         (stroke_rect x y width height).
Proof.
  unfold stroke_rect. cbv zeta.
  eapply paints_weaken;
    [apply paints_seq; [apply stroke_line_paints|];
     apply paints_seq; [apply stroke_line_paints|];
     apply paints_seq; [apply stroke_line_paints|apply stroke_line_paints]| |].
  - intros px py [H|[H|[H|H]]]; unfold box in H; unfold rect_border.
    + left. split; [left|]; lia.
    + right. split; [right|]; lia.
    + left. split; [right|]; lia.
    + right. split; [left|]; lia.
  - intros px py [[[->| ->] H]|[[->| ->] H]]; unfold line_pixels.
    + left. do 3 right. split; [reflexivity|lia].
    + right. right. left. do 3 right. split; [reflexivity|lia].
    + right. right. right. right. right. left. split; [reflexivity|lia].
    + right. left. right. right. left. split; [reflexivity|lia].
Qed.

Lemma fill_rect_paints x y width height :
  let region := fun px py => y <= py < y + height /\
                             Z.min x (x + width - 1) <= px <= Z.max x (x + width - 1) in
  paints region region (fill_rect x y width height).
Proof.
  intros region. unfold fill_rect.
  eapply paints_weaken;
    [apply (paints_for_each _ _ (fun a => box x a (x + width - 1) a)
                                (fun a => line_pixels x a (x + width - 1) a));
     intros a _; apply stroke_line_paints| |].
  - intros px py (a & Ha & Hb). apply zrange_In in Ha. unfold box in Hb. unfold region. lia.
  - intros px py Hr. unfold region in Hr. exists py. split; [apply zrange_In; lia|].
    unfold line_pixels. lia.
Qed.

(** The bounding box of three points. *)
Definition tri_box (x1 y1 x2 y2 x3 y3 : Z) (x y : Z) : Prop :=
  Z.min x1 (Z.min x2 x3) <= x <= Z.max x1 (Z.max x2 x3) /\
  Z.min y1 (Z.min y2 y3) <= y <= Z.max y1 (Z.max y2 y3).

Definition tri_vertices (x1 y1 x2 y2 x3 y3 : Z) (x y : Z) : Prop :=
  (x = x1 /\ y = y1) \/ (x = x2 /\ y = y2) \/ (x = x3 /\ y = y3).

Lemma stroke_triangle_paints x1 y1 x2 y2 x3 y3 :
  paints (tri_box x1 y1 x2 y2 x3 y3) (tri_vertices x1 y1 x2 y2 x3 y3)
    (stroke_triangle x1 y1 x2 y2 x3 y3).
Proof.
  unfold stroke_triangle.
  eapply paints_weaken;
    [apply paints_seq; [apply stroke_line_paints|];
     apply paints_seq; [apply stroke_line_paints|apply stroke_line_paints]| |].
  - intros px py [H|[H|H]]; unfold box in H; unfold tri_box; lia.
  - intros px py [H|[H|H]]; unfold line_pixels.
    + left. left. exact H.
    + right. left. left. exact H.
    + right. right. left. exact H.
Qed.

Lemma fill_triangle_paints x1 y1 x2 y2 x3 y3 :
  paints (tri_box x1 y1 x2 y2 x3 y3)
    (fun x y => tri_vertices x1 y1 x2 y2 x3 y3 x y \/
                (tri_box x1 y1 x2 y2 x3 y3 x y /\ _is_point_in_triangle x y x1 y1 x2 y2 x3 y3 = true))
    (fill_triangle x1 y1 x2 y2 x3 y3).
Proof.
  unfold fill_triangle. cbv zeta.
  set (inside := fun x y => _is_point_in_triangle x y x1 y1 x2 y2 x3 y3 = true).
  assert (Hbody : forall x y,
    paints (fun px py => px = x /\ py = y /\ inside x y) (fun px py => px = x /\ py = y /\ inside x y)
      (if _is_point_in_triangle x y x1 y1 x2 y2 x3 y3 then set_pixel_M x y true else mret tt)).
  { intros x y. unfold inside. destruct (_is_point_in_triangle x y x1 y1 x2 y2 x3 y3).
    - eapply paints_weaken; [apply paints_set_pixel| |]; intros px py; cbv beta; intuition.
    - eapply paints_weaken; [apply paints_ret| |]; intros px py; cbv beta; [tauto|intros (_ & _ & E); discriminate]. }
  eapply paints_weaken;
    [apply paints_seq;
       [apply stroke_triangle_paints
       |apply paints_for_each; intros x _; apply paints_for_each; intros y _; apply Hbody]| |].
  - intros px py [H|(a & Ha & b & Hb & -> & -> & _)]; [exact H|].
    apply zrange_In in Ha, Hb. unfold tri_box. lia.
  - intros px py [H|[Hb Hin]]; [left; exact H|right].
    exists px. split; [apply zrange_In; unfold tri_box in Hb; lia|].
    exists py. split; [apply zrange_In; unfold tri_box in Hb; lia|].
    split; [done|]. split; [done|]. exact Hin.
Qed.

(** The square of side [2 * r + 1] around [(cx0, cy0)]. *)
Definition square (cx0 cy0 r : Z) (x y : Z) : Prop :=
  cx0 - r <= x <= cx0 + r /\ cy0 - r <= y <= cy0 + r.

(** What one iteration of the circle loop is sure to set. *)
Definition circle_points_set (cx0 cy0 : Z) (fill : bool) (x y : Z) (px py : Z) : Prop :=
  if fill then
    line_pixels (cx0 - x) (cy0 - y) (cx0 + x) (cy0 - y) px py \/
    line_pixels (cx0 + x) (cy0 + y) (cx0 - x) (cy0 + y) px py \/
    line_pixels (cx0 - y) (cy0 - x) (cx0 + y) (cy0 - x) px py \/
    line_pixels (cx0 + y) (cy0 + x) (cx0 - y) (cy0 + x) px py
  else
    (px = cx0 - x /\ py = cy0 - y) \/ (px = cx0 + x /\ py = cy0 - y) \/
    (px = cx0 + x /\ py = cy0 + y) \/ (px = cx0 - x /\ py = cy0 + y) \/
    (px = cx0 - y /\ py = cy0 - x) \/ (px = cx0 + y /\ py = cy0 - x) \/
    (px = cx0 + y /\ py = cy0 + x) \/ (px = cx0 - y /\ py = cy0 + x).

Lemma circle_points_paints cx0 cy0 r fill x y :
  0 <= y <= x -> x <= r ->
  paints (square cx0 cy0 r) (circle_points_set cx0 cy0 fill x y) (circle_points cx0 cy0 fill x y).
Proof.
  intros Hyx Hxr. unfold circle_points, circle_points_set. destruct fill.
  - eapply paints_weaken;
      [apply paints_seq; [apply stroke_line_paints|];
       apply paints_seq; [apply stroke_line_paints|];
       apply paints_seq; [apply stroke_line_paints|apply stroke_line_paints]| |];
      [|intros px py Hq; exact Hq];
      intros px py H; unfold square;
      repeat (destruct H as [H|H]; [unfold box in H; lia|]); unfold box in H; lia.
  - eapply paints_weaken;
      [repeat (apply paints_seq; [apply paints_set_pixel|]); apply paints_set_pixel| |];
      [|intros px py Hq; exact Hq];
      intros px py H; unfold square;
      repeat (destruct H as [H|H]; [lia|]); lia.
Qed.

Lemma FLOAT_OVERFLOW_pos : 0 < FLOAT_OVERFLOW.
Proof. apply Z.ltb_lt. vm_compute. reflexivity. Qed.

Lemma int_to_float_shifted_Some n s :
  Z.abs n < FLOAT_OVERFLOW * 2 ^ s -> exists f, int_to_float_shifted n s = Some f.
Proof.
  intros Hn. unfold int_to_float_shifted.
  destruct (Z.leb_spec (FLOAT_OVERFLOW * 2 ^ s) (Z.abs n)); [lia|eexists; reflexivity].
Qed.

Lemma int_to_float_Some n : Z.abs n < FLOAT_OVERFLOW -> exists f, int_to_float n = Some f.
Proof.
  intros Hn. apply int_to_float_shifted_Some. rewrite Z.pow_0_r, Z.mul_1_r. exact Hn.
Qed.

Lemma circle_loop_paints (fuel : nat) cx0 cy0 fill r :
  r + 1 < FLOAT_OVERFLOW ->
  forall x y t1, 0 <= y -> x <= r -> (1 <= fuel)%nat -> x - y + 2 <= Z.of_nat fuel ->
  paints (square cx0 cy0 r) (fun px py => y <= x /\ circle_points_set cx0 cy0 fill x y px py)
    (circle_loop fuel cx0 cy0 fill x y t1).
Proof.
  intros HF. induction fuel as [|fuel IH]; intros x y t1 Hy Hxr Hf1 Hf; [lia|].
  simpl. destruct (x >=? y) eqn:Exy.
  - apply Z.geb_le in Exy.
    destruct (int_to_float_Some (y + 1)) as [fy Efy]; [lia|].
    destruct (int_to_float_Some x) as [fx Efx]; [lia|].
    rewrite Efy, Efx.
    eapply paints_weaken;
      [apply paints_seq with (Q2 := fun _ _ => False);
         [apply (circle_points_paints cx0 cy0 r fill x y); lia|]| |].
    + destruct (PrimFloat.leb _ _); (eapply paints_weaken; [apply IH; lia|done|intros ? ? []]).
    + intros px py [H|H]; exact H.
    + intros px py [_ H]. left. exact H.
  - rewrite Z.geb_leb, Z.leb_gt in Exy.
    eapply paints_weaken; [apply paints_ret|intros px py []|intros px py [H _]; lia].
Qed.

Lemma circle_paints cx0 cy0 r fill :
  0 <= r -> r + 1 < FLOAT_OVERFLOW ->
  paints (square cx0 cy0 r) (circle_points_set cx0 cy0 fill r 0) (_bresenham_circle cx0 cy0 r fill).
Proof.
  intros Hr HF. unfold _bresenham_circle.
  destruct (int_to_float_shifted_Some r 4) as [t1 ->];
    [change (2 ^ 4) with 16; pose proof FLOAT_OVERFLOW_pos; lia|].
  eapply paints_weaken;
    [apply circle_loop_paints|done|]; try lia.
  intros px py H. split; [lia|exact H].
Qed.

(** The cross product of [b - a] and [p - a]: which side of the line
    through [a] and [b] the point [p] lies on. *)
Definition edge_cross (ax ay bx by' px py : Z) : Z :=
  (bx - ax) * (py - ay) - (by' - ay) * (px - ax).

(** Reference definition: [p] lies in the closed triangle [(p0, p1, p2)]
    when no two of the three edge cross products have strictly opposite
    signs (whatever the winding of the triangle). *)
Definition in_closed_triangle (px py p0x p0y p1x p1y p2x p2y : Z) : bool :=
  let d1 := edge_cross p0x p0y p1x p1y px py in
  let d2 := edge_cross p1x p1y p2x p2y px py in
  let d3 := edge_cross p2x p2y p0x p0y px py in
  negb (((d1 <? 0) || (d2 <? 0) || (d3 <? 0)) && ((0 <? d1) || (0 <? d2) || (0 <? d3))).

Lemma pit_sign_logic s t d :
  ~ (s = 0 /\ t = 0) ->
  (if negb (Bool.eqb (s <? 0) (t <? 0)) && negb (s =? 0) && negb (t =? 0) then false
   else (d =? 0) || Bool.eqb (d <? 0) (s + t <=? 0)) =
  negb (((t <? 0) || (d <? 0) || (s <? 0)) && ((0 <? t) || (0 <? d) || (0 <? s))).
Proof.
  intros Hst.
  destruct (Z.ltb_spec s 0), (Z.ltb_spec t 0), (Z.eqb_spec s 0), (Z.eqb_spec t 0),
    (Z.eqb_spec d 0), (Z.ltb_spec d 0), (Z.leb_spec (s + t) 0),
    (Z.ltb_spec 0 s), (Z.ltb_spec 0 t), (Z.ltb_spec 0 d);
    simpl; try reflexivity; lia.
Qed.

Lemma pit_closed_triangle_aux px py p0x p0y p1x p1y p2x p2y :
  edge_cross p1x p1y p2x p2y p0x p0y <> 0 -> (px, py) <> (p0x, p0y) ->
  _is_point_in_triangle px py p0x p0y p1x p1y p2x p2y =
  in_closed_triangle px py p0x p0y p1x p1y p2x p2y.
Proof.
  intros HD Hp. unfold _is_point_in_triangle, in_closed_triangle, edge_cross. cbv zeta.
  apply pit_sign_logic. intros [Hs Ht]. apply Hp.
  set (e1x := p1x - p0x). set (e1y := p1y - p0y). set (e2x := p2x - p0x). set (e2y := p2y - p0y).
  set (K := e1x * e2y - e1y * e2x).
  assert (HK : K <> 0).
  { replace K with (edge_cross p1x p1y p2x p2y p0x p0y); [exact HD|].
    unfold K, e1x, e1y, e2x, e2y, edge_cross; ring. }
  assert (Hu : (px - p0x) * K = 0).
  { transitivity (e2x * ((p1x - p0x) * (py - p0y) - (p1y - p0y) * (px - p0x)) +
                  e1x * ((p0x - p2x) * (py - p2y) - (p0y - p2y) * (px - p2x)));
      [unfold K, e1x, e1y, e2x, e2y; ring|rewrite Hs, Ht; ring]. }
  assert (Hv : (py - p0y) * K = 0).
  { transitivity (e2y * ((p1x - p0x) * (py - p0y) - (p1y - p0y) * (px - p0x)) +
                  e1y * ((p0x - p2x) * (py - p2y) - (p0y - p2y) * (px - p2x)));
      [unfold K, e1x, e1y, e2x, e2y; ring|rewrite Hs, Ht; ring]. }
  apply Z.mul_eq_0 in Hu, Hv. f_equal; lia.
Qed.

Lemma pit_first_vertex_aux p0x p0y p1x p1y p2x p2y :
  _is_point_in_triangle p0x p0y p0x p0y p1x p1y p2x p2y =
  (edge_cross p1x p1y p2x p2y p0x p0y <=? 0).
Proof.
  unfold _is_point_in_triangle, edge_cross. cbv zeta.
  replace ((p0x - p2x) * (p0y - p2y) - (p0y - p2y) * (p0x - p2x)) with 0 by ring.
  replace ((p1x - p0x) * (p0y - p0y) - (p1y - p0y) * (p0x - p0x)) with 0 by ring.
  simpl.
  destruct (Z.eqb_spec ((p2x - p1x) * (p0y - p1y) - (p2y - p1y) * (p0x - p1x)) 0),
    (Z.ltb_spec ((p2x - p1x) * (p0y - p1y) - (p2y - p1y) * (p0x - p1x)) 0),
    (Z.leb_spec ((p2x - p1x) * (p0y - p1y) - (p2y - p1y) * (p0x - p1x)) 0);
    simpl; try reflexivity; lia.
Qed.

Lemma bary_bound D w1 w2 w3 a b c p :
  D * p = w1 * a + w2 * b + w3 * c -> D = w1 + w2 + w3 ->
  0 <= w1 -> 0 <= w2 -> 0 <= w3 -> 0 < D ->
  Z.min a (Z.min b c) <= p <= Z.max a (Z.max b c).
Proof.
  intros Hp HD H1 H2 H3 HDp.
  set (m := Z.min a (Z.min b c)). set (M' := Z.max a (Z.max b c)).
  assert (m <= a /\ m <= b /\ m <= c /\ a <= M' /\ b <= M' /\ c <= M') as (Ha & Hb & Hc & Ha' & Hb' & Hc')
    by (unfold m, M'; lia).
  split; apply (Z.mul_le_mono_pos_l _ _ D HDp); rewrite Hp; subst D.
  - pose proof (Z.mul_le_mono_nonneg_l _ _ w1 H1 Ha). pose proof (Z.mul_le_mono_nonneg_l _ _ w2 H2 Hb).
    pose proof (Z.mul_le_mono_nonneg_l _ _ w3 H3 Hc). lia.
  - pose proof (Z.mul_le_mono_nonneg_l _ _ w1 H1 Ha'). pose proof (Z.mul_le_mono_nonneg_l _ _ w2 H2 Hb').
    pose proof (Z.mul_le_mono_nonneg_l _ _ w3 H3 Hc'). lia.
Qed.

Lemma closed_triangle_in_box px py x1 y1 x2 y2 x3 y3 :
  edge_cross x2 y2 x3 y3 x1 y1 <> 0 ->
  in_closed_triangle px py x1 y1 x2 y2 x3 y3 = true ->
  tri_box x1 y1 x2 y2 x3 y3 px py.
Proof.
  unfold in_closed_triangle. cbv zeta.
  set (t := edge_cross x1 y1 x2 y2 px py). set (d := edge_cross x2 y2 x3 y3 px py).
  set (s := edge_cross x3 y3 x1 y1 px py). set (D := edge_cross x2 y2 x3 y3 x1 y1).
  intros HD Hin.
  assert (Hsum : D = d + s + t) by (unfold D, d, s, t, edge_cross; ring).
  assert (Hx : D * px = d * x1 + s * x2 + t * x3) by (unfold D, d, s, t, edge_cross; ring).
  assert (Hy : D * py = d * y1 + s * y2 + t * y3) by (unfold D, d, s, t, edge_cross; ring).
  assert (Hsg : (0 <= t /\ 0 <= d /\ 0 <= s) \/ (t <= 0 /\ d <= 0 /\ s <= 0)).
  { destruct (Z.ltb_spec t 0), (Z.ltb_spec d 0), (Z.ltb_spec s 0),
      (Z.ltb_spec 0 t), (Z.ltb_spec 0 d), (Z.ltb_spec 0 s); simpl in Hin; try discriminate; lia. }
  unfold tri_box. destruct Hsg as [(Ht & Hd & Hs)|(Ht & Hd & Hs)].
  - split; eapply bary_bound; eauto; lia.
  - split; eapply (bary_bound (- D) (- d) (- s) (- t)); lia.
Qed.

(* ================================================================== *)
(** * Shapes *)

(** X1. stroke_line: on a well-formed, non-inverted canvas, [stroke_line
    x1 y1 x2 y2] turns on both endpoints when they are on the screen, and
    the whole segment when the line is vertical or horizontal; it changes
    no pixel outside the bounding box of the endpoints, and turns no pixel
    off. *)
Theorem stroke_line_confined c x1 y1 x2 y2 :
  wf c -> is_inverted c = false ->
  exists c', stroke_line x1 y1 x2 y2 c = Ok tt c' /\ grows c c' /\
    (forall px py, line_pixels x1 y1 x2 y2 px py ->
       0 <= px < width (screen c) -> 0 <= py < height (screen c) ->
       get_pixel c' px py = Some true) /\
    (forall px py, ~ box x1 y1 x2 y2 px py -> get_pixel c' px py = get_pixel c px py).
Proof. intros Hwf Hi. exact (stroke_line_paints x1 y1 x2 y2 c Hwf Hi). Qed.

Lemma stroke_line_confined_witness :
  exists c', stroke_line 0 0 5 0 (new_canvas 15 5) = Ok tt c' /\
    get_pixel c' 3 0 = Some true /\ get_pixel c' 3 1 = Some false.
Proof.
  destruct (stroke_line_confined (new_canvas 15 5) 0 0 5 0) as (c' & E & _ & Hon & Hoff);
    [apply wfb_wf; vm_compute; reflexivity|reflexivity|].
  exists c'. split; [exact E|]. split.
  - apply Hon; [unfold line_pixels; lia|simpl; lia|simpl; lia].
  - rewrite Hoff; [reflexivity|unfold box; lia].
Defined.

(** X2. stroke_rect: on a well-formed, non-inverted canvas, [stroke_rect x y
    width height] turns on every in-screen pixel of the border of the
    rectangle with corners [(x, y)] and [(x + width - 1, y + height - 1)],
    changes no pixel off that border, and turns no pixel off. *)
Theorem stroke_rect_border c x y w h :
  wf c -> is_inverted c = false ->
  exists c', stroke_rect x y w h c = Ok tt c' /\ grows c c' /\
    (forall px py, rect_border x y (x + (w - 1)) (y + (h - 1)) px py ->
       0 <= px < width (screen c) -> 0 <= py < height (screen c) ->
       get_pixel c' px py = Some true) /\
    (forall px py, ~ rect_border x y (x + (w - 1)) (y + (h - 1)) px py ->
       get_pixel c' px py = get_pixel c px py).
Proof. intros Hwf Hi. exact (stroke_rect_paints x y w h c Hwf Hi). Qed.

Lemma stroke_rect_border_witness :
  exists c', stroke_rect 2 1 10 6 (new_canvas 15 5) = Ok tt c' /\
    get_pixel c' 11 4 = Some true /\ get_pixel c' 5 3 = Some false.
Proof.
  destruct (stroke_rect_border (new_canvas 15 5) 2 1 10 6) as (c' & E & _ & Hon & Hoff);
    [apply wfb_wf; vm_compute; reflexivity|reflexivity|].
  exists c'. split; [exact E|]. split.
  - apply Hon; [unfold rect_border; lia|simpl; lia|simpl; lia].
  - rewrite Hoff; [reflexivity|unfold rect_border; lia].
Defined.

(** X3. frame: on a well-formed, non-inverted canvas, [frame] turns on every
    pixel of the first and last screen rows and columns, leaves every
    pixel strictly inside them as it was, and turns no pixel off. *)
Theorem frame_screen_border c :
  wf c -> is_inverted c = false ->
  exists c', frame c = Ok tt c' /\ grows c c' /\
    (forall px py, 0 <= px < width (screen c) -> 0 <= py < height (screen c) ->
       (px = 0 \/ px = width (screen c) - 1 \/ py = 0 \/ py = height (screen c) - 1) ->
       get_pixel c' px py = Some true) /\
    (forall px py, 0 < px < width (screen c) - 1 -> 0 < py < height (screen c) - 1 ->
       get_pixel c' px py = get_pixel c px py).
Proof.
  intros Hwf Hi.
  change (frame c) with (stroke_rect 0 0 (width (screen c)) (height (screen c)) c).
  destruct (stroke_rect_paints 0 0 (width (screen c)) (height (screen c)) c Hwf Hi)
    as (c' & E & G & Hon & Hoff).
  destruct Hwf as (Hw & Hh & Hsw & Hsh & _).
  exists c'. split; [exact E|]. split; [exact G|]. split.
  - intros px py Hx Hy Hb. apply Hon; [unfold rect_border; lia|exact Hx|exact Hy].
  - intros px py Hx Hy. apply Hoff. unfold rect_border. lia.
Qed.

Lemma frame_screen_border_witness :
  exists c', frame (new_canvas 15 5) = Ok tt c' /\
    get_pixel c' 29 7 = Some true /\ get_pixel c' 0 19 = Some true /\
    get_pixel c' 1 1 = Some false.
Proof.
  destruct (frame_screen_border (new_canvas 15 5)) as (c' & E & _ & Hon & Hoff);
    [apply wfb_wf; vm_compute; reflexivity|reflexivity|].
  exists c'. split; [exact E|].
  split; [apply Hon; simpl; lia|]. split; [apply Hon; simpl; lia|].
  rewrite Hoff; [reflexivity|simpl; lia..].
Defined.

(** X4. fill_rect: on a well-formed, non-inverted canvas, [fill_rect x y width
    height] turns on every in-screen pixel of rows [y .. y + height - 1]
    whose column lies between [x] and [x + width - 1] (both included, in
    either order, so a zero width still covers columns [x - 1] and [x]),
    changes no other pixel, and turns no pixel off. *)
Theorem fill_rect_region c x y w h :
  wf c -> is_inverted c = false ->
  exists c', fill_rect x y w h c = Ok tt c' /\ grows c c' /\
    (forall px py, y <= py < y + h -> Z.min x (x + w - 1) <= px <= Z.max x (x + w - 1) ->
       0 <= px < width (screen c) -> 0 <= py < height (screen c) ->
       get_pixel c' px py = Some true) /\
    (forall px py, ~ (y <= py < y + h /\ Z.min x (x + w - 1) <= px <= Z.max x (x + w - 1)) ->
       get_pixel c' px py = get_pixel c px py).
Proof.
  intros Hwf Hi.
  destruct (fill_rect_paints x y w h c Hwf Hi) as (c' & E & G & Hon & Hoff).
  exists c'. split; [exact E|]. split; [exact G|]. split.
  - intros px py Hy Hx. apply Hon. split; assumption.
  - exact Hoff.
Qed.

Lemma fill_rect_region_witness :
  exists c', fill_rect 3 1 0 2 (new_canvas 15 5) = Ok tt c' /\
    get_pixel c' 2 2 = Some true /\ get_pixel c' 3 3 = Some false.
Proof.
  destruct (fill_rect_region (new_canvas 15 5) 3 1 0 2) as (c' & E & _ & Hon & Hoff);
    [apply wfb_wf; vm_compute; reflexivity|reflexivity|].
  exists c'. split; [exact E|]. split.
  - apply Hon; simpl; lia.
  - rewrite Hoff; [reflexivity|lia].
Defined.

(** X5. stroke_triangle: on a well-formed, non-inverted canvas,
    [stroke_triangle] turns on its three vertices when they are on the
    screen, changes no pixel outside the bounding box of the vertices, and
    turns no pixel off. *)
Theorem stroke_triangle_vertices c x1 y1 x2 y2 x3 y3 :
  wf c -> is_inverted c = false ->
  exists c', stroke_triangle x1 y1 x2 y2 x3 y3 c = Ok tt c' /\ grows c c' /\
    (forall px py, tri_vertices x1 y1 x2 y2 x3 y3 px py ->
       0 <= px < width (screen c) -> 0 <= py < height (screen c) ->
       get_pixel c' px py = Some true) /\
    (forall px py, ~ tri_box x1 y1 x2 y2 x3 y3 px py ->
       get_pixel c' px py = get_pixel c px py).
Proof. intros Hwf Hi. exact (stroke_triangle_paints x1 y1 x2 y2 x3 y3 c Hwf Hi). Qed.

Lemma stroke_triangle_vertices_witness :
  exists c', stroke_triangle 5 5 20 10 4 17 (new_canvas 15 5) = Ok tt c' /\
    get_pixel c' 20 10 = Some true /\ get_pixel c' 25 2 = Some false.
Proof.
  destruct (stroke_triangle_vertices (new_canvas 15 5) 5 5 20 10 4 17) as (c' & E & _ & Hon & Hoff);
    [apply wfb_wf; vm_compute; reflexivity|reflexivity|].
  exists c'. split; [exact E|]. split.
  - apply Hon; [unfold tri_vertices; lia|simpl; lia|simpl; lia].
  - rewrite Hoff; [reflexivity|unfold tri_box; simpl; lia].
Defined.

(** X6. fill_triangle: on a well-formed, non-inverted canvas and for a
    non-degenerate triangle, [fill_triangle] turns on every on-screen point
    of the closed triangle (either winding), changes no pixel outside the
    bounding box of the vertices, and turns no pixel off. *)
Theorem fill_triangle_closed c x1 y1 x2 y2 x3 y3 :
  wf c -> is_inverted c = false -> edge_cross x2 y2 x3 y3 x1 y1 <> 0 ->
  exists c', fill_triangle x1 y1 x2 y2 x3 y3 c = Ok tt c' /\ grows c c' /\
    (forall px py, in_closed_triangle px py x1 y1 x2 y2 x3 y3 = true ->
       0 <= px < width (screen c) -> 0 <= py < height (screen c) ->
       get_pixel c' px py = Some true) /\
    (forall px py, ~ tri_box x1 y1 x2 y2 x3 y3 px py ->
       get_pixel c' px py = get_pixel c px py).
Proof.
  intros Hwf Hi HD.
  destruct (fill_triangle_paints x1 y1 x2 y2 x3 y3 c Hwf Hi) as (c' & E & G & Hon & Hoff).
  exists c'. split; [exact E|]. split; [exact G|]. split; [|exact Hoff].
  intros px py Hin Hx Hy. apply Hon; [|exact Hx|exact Hy].
  destruct (decide ((px, py) = (x1, y1))) as [Heq|Hne].
  - left. left. injection Heq. lia.
  - right. split; [apply closed_triangle_in_box; assumption|].
    rewrite pit_closed_triangle_aux; assumption.
Qed.

Lemma fill_triangle_closed_witness :
  exists c', fill_triangle 5 5 20 10 4 17 (new_canvas 15 5) = Ok tt c' /\
    get_pixel c' 9 10 = Some true /\ get_pixel c' 21 5 = Some false.
Proof.
  destruct (fill_triangle_closed (new_canvas 15 5) 5 5 20 10 4 17) as (c' & E & _ & Hon & Hoff);
    [apply wfb_wf; vm_compute; reflexivity|reflexivity|vm_compute; discriminate|].
  exists c'. split; [exact E|]. split.
  - apply Hon; [vm_compute; reflexivity|simpl; lia|simpl; lia].
  - rewrite Hoff; [reflexivity|unfold tri_box; simpl; lia].
Defined.

(** X7. _is_point_in_triangle: for a non-degenerate triangle and any point
    other than the first vertex, the test is the closed-triangle test, in
    either winding direction. *)
Theorem point_in_triangle_closed px py p0x p0y p1x p1y p2x p2y :
  edge_cross p1x p1y p2x p2y p0x p0y <> 0 -> (px, py) <> (p0x, p0y) ->
  _is_point_in_triangle px py p0x p0y p1x p1y p2x p2y =
  in_closed_triangle px py p0x p0y p1x p1y p2x p2y.
Proof. exact (pit_closed_triangle_aux px py p0x p0y p1x p1y p2x p2y). Qed.

Lemma point_in_triangle_closed_witness :
  _is_point_in_triangle 4 17 5 5 20 10 4 17 = true /\
  _is_point_in_triangle 12 3 5 5 20 10 4 17 = false.
Proof.
  rewrite !point_in_triangle_closed; [split; vm_compute; reflexivity|vm_compute; congruence..].
Defined.

(** X8. _is_point_in_triangle: at its first vertex [p0] the test does not
    follow the closed triangle: it holds exactly when the cross product
    [(p2 - p1) x (p0 - p1)] is [<= 0], so it fails at [p0] for triangles of
    one of the two windings. *)
Theorem point_in_triangle_first_vertex p0x p0y p1x p1y p2x p2y :
  _is_point_in_triangle p0x p0y p0x p0y p1x p1y p2x p2y =
  (edge_cross p1x p1y p2x p2y p0x p0y <=? 0).
Proof. exact (pit_first_vertex_aux p0x p0y p1x p1y p2x p2y). Qed.

(** X9. stroke_circle: on a well-formed, non-inverted canvas and for a radius
    [0 <= r] with [r + 1 < 2 ** 1024 - 2 ** 970] (so that no [int] of the
    loop overflows a [float]), [stroke_circle x y r] returns normally,
    turns on the four on-screen points [(x - r, y)], [(x + r, y)],
    [(x, y - r)], [(x, y + r)], changes no pixel outside the square
    [[x - r, x + r] x [y - r, y + r]], and turns no pixel off. *)
Theorem stroke_circle_extremes c x y r :
  wf c -> is_inverted c = false -> 0 <= r -> r + 1 < FLOAT_OVERFLOW ->
  exists c', stroke_circle x y r c = Ok tt c' /\ grows c c' /\
    (forall px py, ((px = x - r \/ px = x + r) /\ py = y \/ px = x /\ (py = y - r \/ py = y + r)) ->
       0 <= px < width (screen c) -> 0 <= py < height (screen c) ->
       get_pixel c' px py = Some true) /\
    (forall px py, ~ square x y r px py -> get_pixel c' px py = get_pixel c px py).
Proof.
  intros Hwf Hi Hr HF.
  destruct (circle_paints x y r false Hr HF c Hwf Hi) as (c' & E & G & Hon & Hoff).
  exists c'. split; [exact E|]. split; [exact G|]. split; [|exact Hoff].
  intros px py Hp. apply Hon. unfold circle_points_set.
  destruct Hp as [[[->| ->] ->]|[-> [->| ->]]].
  - left. lia.
  - right. left. lia.
  - do 4 right. left. lia.
  - do 6 right. left. lia.
Qed.

Lemma stroke_circle_extremes_witness :
  exists c', stroke_circle 14 10 5 (new_canvas 15 5) = Ok tt c' /\
    get_pixel c' 19 10 = Some true /\ get_pixel c' 20 10 = Some false.
Proof.
  destruct (stroke_circle_extremes (new_canvas 15 5) 14 10 5) as (c' & E & _ & Hon & Hoff);
    [apply wfb_wf; vm_compute; reflexivity|reflexivity|lia|apply Z.ltb_lt; vm_compute; reflexivity|].
  exists c'. split; [exact E|]. split.
  - apply Hon; simpl; lia.
  - rewrite Hoff; [reflexivity|unfold square; lia].
Defined.

(** X10. fill_circle: on a well-formed, non-inverted canvas and for a radius
    [0 <= r] with [r + 1 < 2 ** 1024 - 2 ** 970], [fill_circle x y r]
    returns normally, turns on every on-screen pixel of the horizontal
    diameter [[x - r, x + r] x {y}] and the points [(x, y - r)] and
    [(x, y + r)], changes no pixel outside the square
    [[x - r, x + r] x [y - r, y + r]], and turns no pixel off. *)
Theorem fill_circle_diameter c x y r :
  wf c -> is_inverted c = false -> 0 <= r -> r + 1 < FLOAT_OVERFLOW ->
  exists c', fill_circle x y r c = Ok tt c' /\ grows c c' /\
    (forall px py, (py = y /\ x - r <= px <= x + r \/ px = x /\ (py = y - r \/ py = y + r)) ->
       0 <= px < width (screen c) -> 0 <= py < height (screen c) ->
       get_pixel c' px py = Some true) /\
    (forall px py, ~ square x y r px py -> get_pixel c' px py = get_pixel c px py).
Proof.
  intros Hwf Hi Hr HF.
  destruct (circle_paints x y r true Hr HF c Hwf Hi) as (c' & E & G & Hon & Hoff).
  exists c'. split; [exact E|]. split; [exact G|]. split; [|exact Hoff].
  intros px py Hp. apply Hon. unfold circle_points_set, line_pixels.
  destruct Hp as [[-> Hx]|[-> [->| ->]]].
  - left. do 3 right. lia.
  - right. right. left. left. lia.
  - do 3 right. left. lia.
Qed.

Lemma fill_circle_diameter_witness :
  exists c', fill_circle 14 10 5 (new_canvas 15 5) = Ok tt c' /\
    get_pixel c' 11 10 = Some true /\ get_pixel c' 20 10 = Some false.
Proof.
  destruct (fill_circle_diameter (new_canvas 15 5) 14 10 5) as (c' & E & _ & Hon & Hoff);
    [apply wfb_wf; vm_compute; reflexivity|reflexivity|lia|apply Z.ltb_lt; vm_compute; reflexivity|].
  exists c'. split; [exact E|]. split.
  - apply Hon; simpl; lia.
  - rewrite Hoff; [reflexivity|unfold square; lia].
Defined.

(** X11. stroke_circle, fill_circle: with a negative radius neither draws
    anything: the canvas is returned unchanged, unless [radius / 16]
    overflows a [float] ([-r >= 16 * (2 ** 1024 - 2 ** 970)]), where both
    raise [OverflowError] on the unchanged canvas. *)
Theorem circle_negative_radius c x y r :
  r < 0 ->
  stroke_circle x y r c =
    (if FLOAT_OVERFLOW * 16 <=? - r then Raise OverflowError c else Ok tt c) /\
  fill_circle x y r c =
    (if FLOAT_OVERFLOW * 16 <=? - r then Raise OverflowError c else Ok tt c).
Proof.
  intros Hr. unfold stroke_circle, fill_circle, _bresenham_circle, int_to_float_shifted.
  cbv zeta. change (2 ^ 4) with 16. rewrite Z.abs_neq by lia.
  destruct (FLOAT_OVERFLOW * 16 <=? - r); [split; reflexivity|].
  replace (Z.to_nat (r + 1)) with O by lia. simpl.
  destruct (r >=? 0) eqn:E; [apply Z.geb_le in E; lia|split; reflexivity].
Qed.

Lemma circle_negative_radius_witness :
  (stroke_circle 7 7 (-2) (new_canvas 15 5) = Ok tt (new_canvas 15 5) /\
   fill_circle 7 7 (-2) (new_canvas 15 5) = Ok tt (new_canvas 15 5)) /\
  (stroke_circle 7 7 (- (16 * FLOAT_OVERFLOW)) (new_canvas 15 5) =
     Raise OverflowError (new_canvas 15 5) /\
   fill_circle 7 7 (- (16 * FLOAT_OVERFLOW)) (new_canvas 15 5) =
     Raise OverflowError (new_canvas 15 5)).
Proof.
  split.
  - destruct (circle_negative_radius (new_canvas 15 5) 7 7 (-2)) as [E1 E2]; [lia|].
    rewrite E1, E2. split; reflexivity.
  - destruct (circle_negative_radius (new_canvas 15 5) 7 7 (- (16 * FLOAT_OVERFLOW))) as [E1 E2];
      [pose proof FLOAT_OVERFLOW_pos; lia|].
    rewrite E1, E2. split; vm_compute; reflexivity.
Defined.




(* ================================================================== *)
(** * Construction, inversion and clearing *)

Lemma length_zrange a b : length (zrange a b) = Z.to_nat (b - a).
Proof. unfold zrange. rewrite length_map, length_seq. done. Qed.

Lemma grid_rows_of {A} (w h : Z) (v : A) :
  0 <= w -> 0 <= h -> rows_of (grid w h v) h w.
Proof.
  intros Hw Hh. unfold grid, rows_of. rewrite length_map, length_zrange. split; [f_equal; lia|].
  apply Forall_forall. intros row Hrow. apply list_elem_of_In, in_map_iff in Hrow.
  destruct Hrow as (_ & <- & _). rewrite length_map, length_zrange. f_equal. lia.
Qed.

Lemma grid_entries {A} (w h : Z) (v : A) y x u :
  lookup2 (grid w h v) y x = Some u -> u = v.
Proof.
  unfold lookup2, grid. destruct (_ !! Z.to_nat y) as [row|] eqn:Er; simpl; [|discriminate].
  intros Hu. apply list_elem_of_lookup_2, list_elem_of_In, in_map_iff in Er.
  destruct Er as (_ & <- & _).
  apply list_elem_of_lookup_2, list_elem_of_In, in_map_iff in Hu.
  destruct Hu as (_ & <- & _). done.
Qed.

Lemma get2_grid {A} (d : A) (w h : Z) (v : A) y x :
  0 <= w -> 0 <= h -> 0 <= y < h -> 0 <= x < w -> get2 d (grid w h v) y x = v.
Proof.
  intros Hw Hh Hy Hx. rewrite get2_lookup2.
  destruct (rows_of_lookup2 _ _ _ y x (grid_rows_of w h v Hw Hh) Hy Hx) as [u Hu].
  rewrite Hu. simpl. exact (grid_entries w h v y x u Hu).
Qed.

Lemma new_canvas_wf w h : 1 <= w -> 1 <= h -> wf (new_canvas w h).
Proof.
  intros Hw Hh. unfold wf, new_canvas. simpl.
  split; [lia|]. split; [lia|]. split; [done|]. split; [done|].
  split; [apply grid_rows_of; lia|]. split; left; done.
Qed.

(** X12. TextCanvas: the constructor raises [ValueError] exactly when the width
    or the height is [< 1]; otherwise it returns a well-formed canvas with
    a screen of [2 * width] by [4 * height] pixels, all off, with neither
    a color buffer nor a text buffer, and not inverted. *)
Theorem TextCanvas_new_spec (w h : Z) :
  (TextCanvas_new w h = inl ValueError_canvas_size <-> w <= 0 \/ h <= 0) /\
  (1 <= w -> 1 <= h ->
   exists c, TextCanvas_new w h = inr c /\ wf c /\
     width (screen c) = w * 2 /\ height (screen c) = h * 4 /\
     (forall x y, 0 <= x < w * 2 -> 0 <= y < h * 4 -> get_pixel c x y = Some false) /\
     is_colorized c = false /\ is_textual c = false /\ is_inverted c = false).
Proof.
  split.
  - unfold TextCanvas_new. destruct (Z.leb_spec w 0), (Z.leb_spec h 0); simpl;
      split; try done; try lia; intros _; discriminate.
  - intros Hw Hh. exists (new_canvas w h). split; [apply TextCanvas_new_ok; done|].
    split; [apply new_canvas_wf; done|]. split; [done|]. split; [done|].
    split; [|done].
    intros x y Hx Hy. unfold get_pixel.
    replace (_check_screen_bounds (new_canvas w h) x y) with true
      by (symmetry; apply check_screen_bounds_spec; simpl; lia).
    simpl. f_equal. apply get2_grid; lia.
Qed.

Lemma TextCanvas_new_spec_witness :
  (TextCanvas_new 0 3 = inl ValueError_canvas_size) /\
  (exists c, TextCanvas_new 2 1 = inr c /\ get_pixel c 3 3 = Some false).
Proof.
  destruct (TextCanvas_new_spec 0 3) as [[_ Hraise] _].
  destruct (TextCanvas_new_spec 2 1) as [_ Hok].
  split; [apply Hraise; lia|].
  destruct Hok as (c & E & _ & _ & _ & Hoff & _); [lia|lia|].
  exists c. split; [exact E|]. apply Hoff; lia.
Defined.

(** X13. invert: drawing a pixel in the other drawing mode: [set_pixel] with
    state [s] on the inverted canvas is [set_pixel] with state [not s] on
    the canvas itself, followed by [invert]; and [invert] twice is the
    identity. *)
Theorem invert_set_pixel (c : TextCanvas) (x y : Z) (state : bool) :
  set_pixel (invert c) x y state = invert (set_pixel c x y (negb state)) /\
  invert (invert c) = c.
Proof.
  split.
  - unfold set_pixel, invert, _check_screen_bounds, is_colorized, _color_pixel, _decolor_pixel,
      with_buffer, with_color_buffer. simpl.
    destruct (_ && _); [|done].
    destruct (is_inverted c), state, (color_buffer c); done.
  - destruct c. unfold invert. simpl. rewrite negb_involutive. done.
Qed.

Lemma zrange_0_S n : zrange 0 (Z.of_nat (S n)) = zrange 0 (Z.of_nat n) ++ [Z.of_nat n].
Proof.
  unfold zrange. rewrite !Z.sub_0_r, !Nat2Z.id, seq_S, map_app. done.
Qed.

Lemma fold_insert_prefix {A} (v : A) (r : list A) (n : nat) :
  (n <= length r)%nat ->
  fold_left (fun r' x => <[Z.to_nat x := v]> r') (zrange 0 (Z.of_nat n)) r =
  map (fun _ => v) (take n r) ++ drop n r.
Proof.
  induction n as [|n IH]; intros Hn; [done|].
  rewrite zrange_0_S, fold_left_app, IH by lia. simpl.
  destruct (r !! n) as [a|] eqn:Ea; [|apply lookup_ge_None in Ea; lia].
  rewrite (drop_S r a n Ea), (take_S_r r n a Ea), map_app, <- app_assoc.
  rewrite insert_app_r_alt by (rewrite length_map, length_take; lia).
  rewrite length_map, length_take. replace (Z.to_nat _ - _)%nat with 0%nat by lia.
  done.
Qed.

Lemma fold_set2_row {A} (v : A) (xs : list Z) (b : list (list A)) (y : Z) :
  fold_left (fun b'' x => set2 b'' y x v) xs b =
  alter (fun row => fold_left (fun r' x => <[Z.to_nat x := v]> r') xs row) (Z.to_nat y) b.
Proof.
  revert b. induction xs as [|x xs IH]; intros b; simpl.
  - apply list_eq. intros i. rewrite list_lookup_alter.
    destruct (decide (Z.to_nat y = i)) as [<-|]; [|done].
    destruct (b !! Z.to_nat y); done.
  - rewrite IH. unfold set2. apply list_eq. intros i. rewrite !list_lookup_alter.
    destruct (decide (Z.to_nat y = i)) as [<-|]; [|done].
    rewrite decide_True by done. destruct (b !! Z.to_nat y); done.
Qed.

Lemma clear_rows_spec {A} (v : A) (b : list (list A)) :
  clear_rows v b = map (map (fun _ => v)) b.
Proof.
  unfold clear_rows.
  assert (H : forall k, (k <= length b)%nat ->
    fold_left (fun b' y =>
      fold_left (fun b'' x => set2 b'' y x v)
        (zrange 0 (Z.of_nat (length (default [] (b' !! Z.to_nat y))))) b')
      (zrange 0 (Z.of_nat k)) b = map (map (fun _ => v)) (take k b) ++ drop k b).
  { induction k as [|k IH]; intros Hk; [done|].
    rewrite zrange_0_S, fold_left_app, IH by lia. simpl.
    destruct (b !! k) as [row|] eqn:Er; [|apply lookup_ge_None in Er; lia].
    rewrite Nat2Z.id.
    assert (Hl : (map (map (fun _ => v)) (take k b) ++ drop k b) !! k = Some row).
    { rewrite lookup_app_r by (rewrite length_map, length_take; lia).
      rewrite length_map, length_take, lookup_drop. rewrite <- Er. f_equal. lia. }
    rewrite Hl. simpl. rewrite fold_set2_row, Nat2Z.id.
    rewrite (drop_S b row k Er), (take_S_r b k row Er), map_app, <- app_assoc.
    apply list_eq. intros i. rewrite list_lookup_alter.
    destruct (decide (k = i)) as [<-|Hne].
    - rewrite !lookup_app_r by (rewrite length_map, length_take; lia).
      rewrite !length_map, !length_take. replace (k - min k (length b))%nat with 0%nat by lia.
      simpl. rewrite fold_insert_prefix by lia. rewrite take_ge, drop_all by lia.
      rewrite app_nil_r. done.
    - destruct (decide (i < k)%nat).
      + rewrite !lookup_app_l by (rewrite length_map, length_take; lia). done.
      + rewrite !lookup_app_r by (rewrite length_map, length_take; lia).
        rewrite length_map, length_take.
        destruct (i - min k (length b))%nat as [|j] eqn:Ej; [lia|]. done. }
  rewrite H by lia. rewrite take_ge, drop_all by lia. apply app_nil_r.
Qed.

Lemma set_all_loop_spec (v : bool) (l : list (Z * Z)) (c0 : TextCanvas) :
  let c' := fold_left (fun c' '(x, y) => with_buffer c' (set2 (buffer c') y x v)) l c0 in
  output c' = output c0 /\ screen c' = screen c0 /\
  color_buffer c' = color_buffer c0 /\ text_buffer c' = text_buffer c0 /\
  is_inverted c' = is_inverted c0 /\ _color c' = _color c0 /\
  (forall h w, rows_of (buffer c0) h w -> rows_of (buffer c') h w) /\
  (forall x y w, lookup2 (buffer c0) y x = Some w -> In (x, y) l \/ w = v ->
     lookup2 (buffer c') y x = Some v).
Proof.
  revert c0. induction l as [|[a b] l IH]; intros c0 c'.
  - subst c'. simpl. do 6 (split; [done|]). split.
    + intros h w H. exact H.
    + intros x y w Hw [Hf|Hw']; [destruct Hf|subst w; done].
  - subst c'. simpl.
    destruct (IH (with_buffer c0 (set2 (buffer c0) b a v)))
      as (Ho & Hs & Hc & Ht & Hi & Hcol & Hr & Hp).
    simpl in *. do 6 (split; [done|]). split.
    + intros h0 w0 Hrw. apply Hr. apply rows_of_set2. done.
    + intros x y w Hw Hin.
      destruct (decide ((Z.to_nat b, Z.to_nat a) = (Z.to_nat y, Z.to_nat x))) as [E|E].
      * injection E as E1 E2. apply (Hp x y v); [|right; done].
        unfold lookup2 in *. rewrite <- E1, <- E2 in *.
        apply (lookup2_set2_eq (buffer c0) b a v w Hw).
      * apply (Hp x y w); [rewrite lookup2_set2_ne; done|].
        destruct Hin as [[Hab|Hin]|Hw']; auto.
        injection Hab as -> ->. contradiction.
Qed.

Lemma lookup_map_std {A B} (f : A -> B) (l : list A) (i : nat) :
  map f l !! i = f <$> l !! i.
Proof. revert i. induction l as [|a l IH]; intros [|i]; simpl; try done. Qed.

Lemma rows_of_map {A B} (f : A -> B) (b : list (list A)) h w :
  rows_of b h w -> rows_of (map (map f) b) h w.
Proof.
  intros [Hl Hf]. split; [rewrite length_map; done|].
  apply Forall_forall. intros row Hrow. apply list_elem_of_In, in_map_iff in Hrow.
  destruct Hrow as (r & <- & Hr). rewrite length_map.
  apply (proj1 (Forall_forall _ _) Hf). apply list_elem_of_In. done.
Qed.

Lemma get2_map_const {A B} (d : B) (b : list (list A)) y x :
  get2 d (map (map (fun _ => d)) b) y x = d.
Proof.
  unfold get2. rewrite lookup_map_std.
  destruct (b !! Z.to_nat y) as [row|]; simpl; [|done].
  rewrite lookup_map_std. destruct (row !! Z.to_nat x); done.
Qed.

Lemma lookup2_rows_range {A} (b : list (list A)) h w y x u :
  rows_of b h w -> lookup2 b y x = Some u ->
  0 <= Z.of_nat (Z.to_nat y) < h /\ 0 <= Z.of_nat (Z.to_nat x) < w.
Proof.
  intros [Hl Hf]. unfold lookup2.
  destruct (b !! Z.to_nat y) as [row|] eqn:Er; simpl; [|discriminate]. intros Hu.
  pose proof (lookup_lt_Some _ _ _ Er). pose proof (lookup_lt_Some _ _ _ Hu).
  pose proof (Forall_lookup_1 _ _ _ _ Hf Er) as Hrow. simpl in Hrow. lia.
Qed.

Lemma lookup2_to_nat {A} (b : list (list A)) y x :
  lookup2 b (Z.of_nat (Z.to_nat y)) (Z.of_nat (Z.to_nat x)) = lookup2 b y x.
Proof. unfold lookup2. rewrite !Nat2Z.id. done. Qed.

Lemma clear_facts (c : TextCanvas) :
  wf c ->
  wf (clear c) /\ output (clear c) = output c /\ screen (clear c) = screen c /\
  is_inverted (clear c) = is_inverted c /\ _color (clear c) = _color c /\
  (forall y x u, lookup2 (buffer (clear c)) y x = Some u -> u = false) /\
  (forall x y, 0 <= x < width (screen c) -> 0 <= y < height (screen c) ->
     get_pixel (clear c) x y = Some false) /\
  color_buffer (clear c) = map (map (fun _ => NoColor)) (color_buffer c) /\
  text_buffer (clear c) = map (map (fun _ => [])) (text_buffer c).
Proof.
  intros Hwf.
  destruct (set_all_loop_spec false (iter_buffer c) c) as (Ho & Hs & Hc & Ht & Hi & Hcol & Hr & Hp).
  fold (_clear_buffer c) in *. set (cb := _clear_buffer c) in *.
  assert (Hbuf : buffer (clear c) = buffer cb /\ output (clear c) = output cb /\
                 screen (clear c) = screen cb /\ is_inverted (clear c) = is_inverted cb /\
                 _color (clear c) = _color cb /\
                 color_buffer (clear c) = map (map (fun _ => NoColor)) (color_buffer cb) /\
                 text_buffer (clear c) = map (map (fun _ => [])) (text_buffer cb)).
  { unfold clear. fold cb. unfold _clear_text_buffer, _clear_color_buffer, is_colorized, is_textual.
    destruct (color_buffer cb) as [|r1 cb1] eqn:E1; destruct (text_buffer cb) as [|r2 tb2] eqn:E2;
      simpl; rewrite ?E1, ?E2; rewrite ?clear_rows_spec; done. }
  destruct Hbuf as (Hb' & Ho' & Hs' & Hi' & Hcol' & Hc' & Ht').
  pose proof Hwf as (Hw & Hh & Hsw & Hsh & Hb & Hcb & Htb).
  assert (Hrb : rows_of (buffer (clear c)) (height (screen c)) (width (screen c)))
    by (rewrite Hb'; apply Hr; exact Hb).
  assert (Hin : forall x y, 0 <= x < width (screen c) -> 0 <= y < height (screen c) ->
                  lookup2 (buffer (clear c)) y x = Some false).
  { intros x y Hx Hy. rewrite Hb'.
    destruct (rows_of_lookup2 _ _ _ y x Hb Hy Hx) as [w0 Hw0].
    apply (Hp x y w0 Hw0). left. apply in_iter_buffer; done. }
  split.
  - unfold wf. rewrite Ho', Hs', Hc', Ht', Ho, Hs, Hc, Ht.
    split; [done|]. split; [done|]. split; [done|]. split; [done|].
    split; [rewrite <- Hs; rewrite <- Hs in Hrb; exact Hrb|].
    split.
    + destruct Hcb as [->|Hcb]; [left; done|right; apply rows_of_map; done].
    + destruct Htb as [->|Htb]; [left; done|right; apply rows_of_map; done].
  - rewrite Ho', Hs', Hi', Hcol', Hc', Ht', Ho, Hs, Hi, Hcol, Hc, Ht.
    split; [done|]. split; [done|]. split; [done|]. split; [done|].
    split; [|split; [|done]].
    + intros y x u Hu. destruct (lookup2_rows_range _ _ _ _ _ _ Hrb Hu) as [Hy Hx].
      rewrite <- lookup2_to_nat, (Hin _ _ Hx Hy) in Hu. congruence.
    + intros x y Hx Hy. rewrite (get_pixel_same_screen c _ x y) by (rewrite Hs'; done).
      replace (_check_screen_bounds c x y) with true
        by (symmetry; apply check_screen_bounds_spec; done).
      rewrite get2_lookup2, (Hin x y Hx Hy). done.
Qed.

(** X14. clear: on a well-formed canvas, [clear] turns every pixel off and
    clears the color and text buffers in place: each keeps its presence
    and its shape, with every color entry [Color()] and every text entry
    [""]; the canvas stays well-formed, and its sizes, drawing mode and
    draw color are unchanged. *)
Theorem clear_spec (c : TextCanvas) :
  wf c ->
  wf (clear c) /\ output (clear c) = output c /\ screen (clear c) = screen c /\
  is_inverted (clear c) = is_inverted c /\ _color (clear c) = _color c /\
  (forall x y, 0 <= x < width (screen c) -> 0 <= y < height (screen c) ->
     get_pixel (clear c) x y = Some false) /\
  color_buffer (clear c) = map (map (fun _ => NoColor)) (color_buffer c) /\
  text_buffer (clear c) = map (map (fun _ => [])) (text_buffer c).
Proof.
  intros Hwf. destruct (clear_facts c Hwf) as (H1 & H2 & H3 & H4 & H5 & _ & H7 & H8 & H9).
  repeat (split; [assumption|]). exact H9.
Qed.

Lemma clear_spec_witness :
  get_pixel (clear fill_witness_canvas) 1 2 = Some false /\
  text_buffer (clear fill_witness_canvas) = [[[]; []]].
Proof.
  destruct (clear_spec fill_witness_canvas) as (_ & _ & _ & _ & _ & Hoff & _ & Ht);
    [apply wfb_wf; vm_compute; reflexivity|].
  split; [apply Hoff; simpl; lia|].
  rewrite Ht. vm_compute. reflexivity.
Defined.

Lemma to_string_loop_ext c1 c2 :
  output c1 = output c2 ->
  (forall x y, _get_text_char c1 x y = _get_text_char c2 x y) ->
  (forall x y s, _color_pixel_char c1 x y s = _color_pixel_char c2 x y s) ->
  forall blocks i res, to_string_loop c1 i blocks res = to_string_loop c2 i blocks res.
Proof.
  intros Ho Ht Hc blocks. induction blocks as [|pb blocks IH]; intros i res; [done|].
  simpl. rewrite Ho, Ht, Hc. apply IH.
Qed.

Lemma to_string_ext c1 c2 :
  output c1 = output c2 -> screen c1 = screen c2 ->
  (forall y x, get2 false (buffer c1) y x = get2 false (buffer c2) y x) ->
  (forall x y, _get_text_char c1 x y = _get_text_char c2 x y) ->
  (forall x y s, _color_pixel_char c1 x y s = _color_pixel_char c2 x y s) ->
  to_string c1 = to_string c2.
Proof.
  intros Ho Hs Hb Ht Hc. unfold to_string.
  replace (_iter_buffer_by_blocks_lrtb c1) with (_iter_buffer_by_blocks_lrtb c2).
  - apply to_string_loop_ext; done.
  - unfold _iter_buffer_by_blocks_lrtb. rewrite Hs.
    apply flat_map_ext. intros y. apply map_ext. intros x.
    unfold block_at. cbv zeta. rewrite !Hb. done.
Qed.

(** X15. clear: a cleared well-formed canvas renders exactly like a fresh
    canvas of the same size: [to_string] gives the same string, whatever
    was drawn, colored or written before. *)
Theorem clear_renders_fresh (c : TextCanvas) :
  wf c ->
  to_string (clear c) = to_string (new_canvas (width (output c)) (height (output c))).
Proof.
  intros Hwf.
  destruct (clear_facts c Hwf) as (_ & Ho & Hs & _ & _ & Hz & _ & Hc & Ht).
  pose proof Hwf as (Hw & Hh & Hsw & Hsh & _).
  apply to_string_ext.
  - rewrite Ho. destruct (output c). done.
  - rewrite Hs. unfold new_canvas. simpl. rewrite <- Hsw, <- Hsh. destruct (screen c). done.
  - intros y x. rewrite !get2_lookup2.
    destruct (lookup2 (buffer (clear c)) y x) as [u|] eqn:Eu;
      [rewrite (Hz _ _ _ Eu)|];
      (destruct (lookup2 (buffer (new_canvas (width (output c)) (height (output c)))) y x) as [u'|] eqn:Eu';
       [rewrite (grid_entries _ _ _ _ _ _ Eu')|]); done.
  - intros x y. unfold _get_text_char. rewrite Ht.
    destruct (is_textual (clear c)); [apply get2_map_const|done].
  - intros x y s. unfold _color_pixel_char. rewrite Hc.
    destruct (is_colorized (clear c)); [rewrite get2_map_const; done|done].
Qed.

Lemma clear_renders_fresh_witness :
  to_string (clear fill_witness_canvas) = to_string (new_canvas 2 1).
Proof. apply (clear_renders_fresh fill_witness_canvas). apply wfb_wf; vm_compute; reflexivity. Defined.

(* ================================================================== *)
(** * Layout of [to_string] *)


Lemma zrange_cons a b : a < b -> zrange a b = a :: zrange (a + 1) b.
Proof.
  intros Hab. unfold zrange.
  replace (Z.to_nat (b - a)) with (S (Z.to_nat (b - (a + 1)))) by lia.
  simpl. rewrite Z.add_0_r. f_equal.
  rewrite <- seq_shift, map_map. apply map_ext. intros k. lia.
Qed.

Lemma zrange_empty a b : b <= a -> zrange a b = [].
Proof. intros Hab. unfold zrange. replace (Z.to_nat (b - a)) with 0%nat by lia. done. Qed.

Lemma zrange_step_scaled (n s : Z) :
  0 <= n -> 0 < s -> zrange_step 0 (s * n) s = map (fun k => s * k) (zrange 0 n).
Proof.
  intros Hn Hs. unfold zrange_step, zrange. rewrite map_map.
  replace ((s * n - 0 + s - 1) / s) with (n - 0).
  - apply map_ext. intros k. lia.
  - replace (s * n - 0 + s - 1) with (n * s + (s - 1)) by lia.
    rewrite Z.div_add_l by lia. rewrite (Z.div_small (s - 1) s) by lia. lia.
Qed.

Section ToStringLayout.
Variable c : TextCanvas.
Hypothesis Hwf : wf c.

Let W := width (output c).

Lemma pieces_row_exact (r : Z) :
  0 <= r ->
  forall (n : nat) (m : Z), 0 <= m -> m + Z.of_nat n = W -> n <> 0%nat ->
  to_string_pieces c (W * r + m) (map (fun x => block_at c (2 * x) (4 * r)) (zrange m W)) =
  concat (map (fun x => to_string_cell c x r) (zrange m W)) ++ [NEWLINE].
Proof.
  intros Hr n. induction n as [|n IH]; intros m Hm Hn Hn0; [done|].
  assert (HW : 1 <= W) by (destruct Hwf; done).
  rewrite (zrange_cons m W) by lia. simpl.
  assert (Hx : (W * r + m) mod W = m).
  { rewrite Z.mul_comm, Z.add_comm, Z.mod_add by lia. apply Z.mod_small. lia. }
  assert (Hy : (W * r + m) / W = r).
  { rewrite Z.mul_comm, Z.add_comm, Z.div_add by lia. rewrite Z.div_small by lia. lia. }
  unfold to_string_piece, to_string_eol. cbv zeta. fold W. rewrite Hx, Hy.
  fold (to_string_cell c m r).
  destruct n as [|n].
  - rewrite zrange_empty by lia. simpl.
    replace (W * r + m + 1) with ((r + 1) * W) by lia. rewrite Z.mod_mul by lia. simpl.
    rewrite !app_nil_r. done.
  - replace ((W * r + m + 1) mod W =? 0) with false.
    + rewrite app_nil_r. replace (W * r + m + 1) with (W * r + (m + 1)) by lia.
      rewrite (IH (m + 1)) by lia. rewrite app_assoc. done.
    + symmetry. apply Z.eqb_neq.
      replace (W * r + m + 1) with ((m + 1) + r * W) by lia.
      rewrite Z.mod_add, Z.mod_small by lia. lia.
Qed.

Lemma pieces_rows_exact (k : nat) (r : Z) :
  0 <= r ->
  to_string_pieces c (W * r)
    (flat_map (fun y => map (fun x => block_at c (2 * x) (4 * y)) (zrange 0 W))
       (zrange r (r + Z.of_nat k))) =
  concat (map (fun y => concat (map (fun x => to_string_cell c x y) (zrange 0 W)) ++ [NEWLINE])
            (zrange r (r + Z.of_nat k))).
Proof.
  revert r. induction k as [|k IH]; intros r Hr.
  - rewrite (zrange_empty r (r + Z.of_nat 0)) by lia. done.
  - assert (HW : 1 <= W) by (destruct Hwf; done).
    rewrite (zrange_cons r) by lia. simpl.
    rewrite to_string_pieces_app, length_map, length_zrange.
    replace (r + Z.of_nat (S k)) with (r + 1 + Z.of_nat k) by lia.
    rewrite <- (IH (r + 1)) by lia.
    replace (W * r + Z.of_nat (Z.to_nat (W - 0))) with (W * (r + 1)) by lia.
    f_equal.
    rewrite <- (Z.add_0_r (W * r)).
    apply (pieces_row_exact r Hr (Z.to_nat W) 0); lia.
Qed.

Lemma to_string_layout_aux :
  to_string c =
  concat (map (fun y => concat (map (fun x => to_string_cell c x y) (zrange 0 W)) ++ [NEWLINE])
            (zrange 0 (height (output c)))).
Proof.
  destruct Hwf as (HW & HH & Hsw & Hsh & _).
  unfold to_string. rewrite to_string_loop_pieces. simpl app.
  unfold _iter_buffer_by_blocks_lrtb. rewrite Hsw, Hsh.
  rewrite (Z.mul_comm (width (output c))), (Z.mul_comm (height (output c))).
  rewrite !zrange_step_scaled by lia.
  rewrite flat_map_concat_map, map_map.
  replace (concat (map (fun y => map (fun x => block_at c x (4 * y)) (map (fun k => 2 * k) (zrange 0 (width (output c)))))
             (zrange 0 (height (output c)))))
    with (flat_map (fun y => map (fun x => block_at c (2 * x) (4 * y)) (zrange 0 W))
            (zrange 0 (0 + Z.of_nat (Z.to_nat (height (output c)))))).
  - pose proof (pieces_rows_exact (Z.to_nat (height (output c))) 0 ltac:(lia)) as E.
    rewrite Z.mul_0_r in E. rewrite E.
    replace (0 + Z.of_nat (Z.to_nat (height (output c)))) with (height (output c)) by lia. done.
  - rewrite flat_map_concat_map.
    replace (0 + Z.of_nat (Z.to_nat (height (output c)))) with (height (output c)) by lia.
    f_equal. apply map_ext. intros y. rewrite map_map. done.
Qed.

End ToStringLayout.

Lemma map_const_repeat {A B} (v : B) (l : list A) : map (fun _ => v) l = repeat v (length l).
Proof. induction l as [|a l IH]; simpl; [done|]. rewrite IH. done. Qed.

Lemma concat_repeat_singleton {A} (a : A) (n : nat) : concat (repeat [a] n) = repeat a n.
Proof. induction n as [|n IH]; simpl; [done|]. rewrite IH. done. Qed.

Lemma get2_new_canvas w h y x : get2 false (buffer (new_canvas w h)) y x = false.
Proof.
  rewrite get2_lookup2.
  destruct (lookup2 (buffer (new_canvas w h)) y x) as [u|] eqn:Eu; [|done].
  simpl. exact (grid_entries _ _ _ _ _ _ Eu).
Qed.

(** X16. to_string: for a well-formed canvas, [to_string] is the
    concatenation, for each output row [y] from top to bottom, of the
    cells [(0, y)], ..., [(output.width - 1, y)] followed by a newline;
    cell [(x, y)] is the text character written there if there is one,
    and otherwise the Braille character of the 2x4 pixel block at screen
    position [(2 * x, 4 * y)], wrapped in the cell's color when the canvas
    is colorized. *)
Theorem to_string_layout (c : TextCanvas) :
  wf c ->
  to_string c =
  concat (map (fun y => concat (map (fun x => to_string_cell c x y) (zrange 0 (width (output c))))
                        ++ [NEWLINE])
            (zrange 0 (height (output c)))).
Proof. intros Hwf. exact (to_string_layout_aux c Hwf). Qed.

Lemma to_string_layout_witness :
  to_string fill_witness_canvas =
  concat (map (fun y => concat (map (fun x => to_string_cell fill_witness_canvas x y) (zrange 0 2))
                        ++ [NEWLINE])
            (zrange 0 1)).
Proof. apply (to_string_layout fill_witness_canvas). apply wfb_wf; vm_compute; reflexivity. Defined.

(** X17. TextCanvas, to_string: a fresh [TextCanvas(w, h)] renders as [h]
    lines, each made of [w] blank Braille characters U+2800 followed by a
    newline. *)
Theorem fresh_canvas_renders (w h : Z) :
  1 <= w -> 1 <= h ->
  to_string (new_canvas w h) =
  concat (repeat (repeat BRAILLE_UNICODE_0 (Z.to_nat w) ++ [NEWLINE]) (Z.to_nat h)).
Proof.
  intros Hw Hh. rewrite (to_string_layout_aux _ (new_canvas_wf w h Hw Hh)). simpl output.
  simpl width. simpl height.
  assert (Hcell : forall x y, to_string_cell (new_canvas w h) x y = [BRAILLE_UNICODE_0]).
  { intros x y. unfold to_string_cell, block_at. cbv zeta. rewrite !get2_new_canvas. done. }
  rewrite (map_ext _ (fun _ : Z => repeat BRAILLE_UNICODE_0 (Z.to_nat w) ++ [NEWLINE])).
  - rewrite map_const_repeat, length_zrange, Z.sub_0_r. done.
  - intros y. rewrite (map_ext _ (fun _ : Z => [BRAILLE_UNICODE_0]) (fun x => Hcell x y)).
    rewrite map_const_repeat, concat_repeat_singleton, length_zrange, Z.sub_0_r. done.
Qed.

Lemma fresh_canvas_renders_witness :
  to_string (new_canvas 2 1) = [BRAILLE_UNICODE_0; BRAILLE_UNICODE_0; NEWLINE].
Proof. rewrite fresh_canvas_renders by lia. reflexivity. Defined.

(** The text cell left by [_draw_char(char, ...)] over a cell holding
    [old]. *)
Definition drawn_cell (merge : bool) (col : Color) (ch : Z) (old : ustr) : ustr :=
  if ch =? SPACE then (if merge then old else []) else format col [ch].

Ltac blia :=
  repeat match goal with
  | H : (_ && _) = true |- _ => apply andb_true_iff in H; destruct H
  | H : (_ <=? _) = true |- _ => apply Z.leb_le in H
  | H : (_ <? _) = true |- _ => apply Z.ltb_lt in H
  | H : (_ =? _) = true |- _ => apply Z.eqb_eq in H
  | H : (_ <=? _) = false |- _ => apply Z.leb_gt in H
  | H : (_ <? _) = false |- _ => apply Z.ltb_ge in H
  | H : (_ =? _) = false |- _ => apply Z.eqb_neq in H
  end; lia.

(* ================================================================== *)
(** * Text layer *)

Lemma set2_nil {A} (b : list (list A)) y x v : set2 b y x v = [] -> b = [].
Proof.
  unfold set2. intros H. apply (f_equal length) in H. rewrite length_alter in H.
  destruct b; [done|discriminate].
Qed.

Lemma textual_rows c :
  wf c -> is_textual c = true ->
  rows_of (text_buffer c) (height (output c)) (width (output c)).
Proof.
  intros (_ & _ & _ & _ & _ & _ & Htb) Ht. unfold is_textual in Ht.
  destruct Htb as [E|E]; [rewrite E in Ht; discriminate|done].
Qed.

Lemma _draw_char_facts c ch x y merge :
  wf c -> is_textual c = true ->
  let c' := _draw_char c ch x y merge in
  wf c' /\ is_textual c' = true /\ output c' = output c /\ screen c' = screen c /\
  buffer c' = buffer c /\ color_buffer c' = color_buffer c /\
  is_inverted c' = is_inverted c /\ _color c' = _color c /\
  (forall X Y, _check_output_bounds c X Y = true ->
     _get_text_char c' X Y =
       if (X =? x) && (Y =? y) then drawn_cell merge (_color c) ch (_get_text_char c X Y)
       else _get_text_char c X Y).
Proof.
  intros Hwf Ht c'.
  assert (Hgen : forall v, _check_output_bounds c x y = true ->
    let c2 := with_text_buffer c (set2 (text_buffer c) y x v) in
    wf c2 /\ is_textual c2 = true /\
    (forall X Y, _check_output_bounds c X Y = true ->
       _get_text_char c2 X Y = if (X =? x) && (Y =? y) then v else _get_text_char c X Y)).
  { intros v Hb c2. pose proof (textual_rows c Hwf Ht) as Hr.
    assert (Ht2 : is_textual c2 = true).
    { unfold is_textual in *. simpl. destruct (set2 (text_buffer c) y x v) eqn:E; [|done].
      apply set2_nil in E. rewrite E in Ht. discriminate. }
    split; [apply with_text_buffer_wf; done|]. split; [done|].
    intros X Y HXY. unfold _get_text_char. rewrite Ht, Ht2. simpl.
    unfold _check_output_bounds in Hb, HXY. rewrite !andb_true_iff, !Z.leb_le, !Z.ltb_lt in Hb, HXY.
    rewrite !get2_lookup2.
    destruct (Z.eqb_spec X x) as [->|Ex], (Z.eqb_spec Y y) as [->|Ey]; simpl.
    - destruct (rows_of_lookup2 _ _ _ y x Hr) as [w Hw]; [lia|lia|].
      erewrite lookup2_set2_eq by exact Hw. done.
    - rewrite lookup2_set2_ne; [done|]. intros E. injection E. intros. lia.
    - rewrite lookup2_set2_ne; [done|]. intros E. injection E. intros. lia.
    - rewrite lookup2_set2_ne; [done|]. intros E. injection E. intros. lia. }
  unfold c', _draw_char.
  destruct (_check_output_bounds c x y) eqn:Hb; simpl.
  2:{ do 8 (split; [done|]). intros X Y HXY.
      destruct (Z.eqb_spec X x) as [->|], (Z.eqb_spec Y y) as [->|]; simpl; try done.
      rewrite HXY in Hb. discriminate. }
  destruct (Z.eqb_spec ch SPACE) as [Esp|Esp].
  - destruct merge.
    + do 8 (split; [done|]). intros X Y _.
      unfold drawn_cell. rewrite Esp, Z.eqb_refl.
      destruct ((X =? x) && (Y =? y)); done.
    + destruct (Hgen [] eq_refl) as (H1 & H2 & H3).
      do 8 (split; [done|]). intros X Y HXY. rewrite H3 by done.
      unfold drawn_cell. rewrite Esp, Z.eqb_refl. done.
  - destruct (Hgen (format (_color c) [ch]) eq_refl) as (H1 & H2 & H3).
    do 8 (split; [done|]). intros X Y HXY. rewrite H3 by done.
    unfold drawn_cell. replace (ch =? SPACE) with false by lia. done.
Qed.

Lemma output_bounds_same c c' X Y :
  output c' = output c -> _check_output_bounds c' X Y = _check_output_bounds c X Y.
Proof. intros E. unfold _check_output_bounds. rewrite E. done. Qed.

Lemma draw_chars_h_spec c text x y merge :
  wf c -> is_textual c = true ->
  let c' := draw_chars_h c text x y merge in
  wf c' /\ is_textual c' = true /\ output c' = output c /\ screen c' = screen c /\
  buffer c' = buffer c /\ color_buffer c' = color_buffer c /\
  is_inverted c' = is_inverted c /\ _color c' = _color c /\
  (forall X Y, _check_output_bounds c X Y = true ->
     _get_text_char c' X Y =
       if (Y =? y) && (x <=? X) && (X <? x + Z.of_nat (length text))
       then drawn_cell merge (_color c) (nth (Z.to_nat (X - x)) text SPACE) (_get_text_char c X Y)
       else _get_text_char c X Y).
Proof.
  revert c x. induction text as [|ch text IH]; intros c x Hwf Ht; cbn [draw_chars_h].
  { do 8 (split; [done|]). intros X Y _.
    destruct (Y =? y); simpl; [|done]. destruct (x <=? X) eqn:E1; simpl; [|done].
    destruct (X <? _) eqn:E2; [|done]. blia. }
  destruct (_draw_char_facts c ch x y merge Hwf Ht) as (W1 & T1 & O1 & S1 & B1 & C1 & I1 & K1 & G1).
  destruct (IH _ (x + 1) W1 T1) as (W2 & T2 & O2 & S2 & B2 & C2 & I2 & K2 & G2).
  rewrite O2, S2, B2, C2, I2, K2, O1, S1, B1, C1, I1, K1.
  do 8 (split; [done|]). intros X Y HXY.
  rewrite G2 by (rewrite (output_bounds_same c) by done; done).
  rewrite G1 by done. rewrite K1, length_cons, Nat2Z.inj_succ.
  destruct (Z.eqb_spec Y y) as [->|Ey]; cbn [andb]; [|destruct (X =? x); done].
  destruct (Z.eqb_spec X x) as [->|Ex]; cbn [andb].
  - replace (x + 1 <=? x) with false by (symmetry; apply Z.leb_gt; lia).
    replace (x <=? x) with true by (symmetry; apply Z.leb_le; lia).
    replace (x <? x + Z.succ (Z.of_nat (length text))) with true by (symmetry; apply Z.ltb_lt; lia).
    cbn [andb]. rewrite Z.sub_diag. done.
  - destruct (Z.leb_spec (x + 1) X), (Z.leb_spec x X); cbn [andb]; try lia; [|done].
    replace (X <? x + 1 + Z.of_nat (length text)) with (X <? x + Z.succ (Z.of_nat (length text))) by (f_equal; lia).
    destruct (X <? _); [|done].
    replace (Z.to_nat (X - x)) with (S (Z.to_nat (X - (x + 1)))) by lia. done.
Qed.

Lemma draw_chars_v_spec c text x y merge :
  wf c -> is_textual c = true ->
  let c' := draw_chars_v c text x y merge in
  wf c' /\ is_textual c' = true /\ output c' = output c /\ screen c' = screen c /\
  buffer c' = buffer c /\ color_buffer c' = color_buffer c /\
  is_inverted c' = is_inverted c /\ _color c' = _color c /\
  (forall X Y, _check_output_bounds c X Y = true ->
     _get_text_char c' X Y =
       if (X =? x) && (y <=? Y) && (Y <? y + Z.of_nat (length text))
       then drawn_cell merge (_color c) (nth (Z.to_nat (Y - y)) text SPACE) (_get_text_char c X Y)
       else _get_text_char c X Y).
Proof.
  revert c y. induction text as [|ch text IH]; intros c y Hwf Ht; cbn [draw_chars_v].
  { do 8 (split; [done|]). intros X Y _.
    destruct (X =? x); simpl; [|done]. destruct (y <=? Y) eqn:E1; simpl; [|done].
    destruct (Y <? _) eqn:E2; [blia|done]. }
  destruct (_draw_char_facts c ch x y merge Hwf Ht) as (W1 & T1 & O1 & S1 & B1 & C1 & I1 & K1 & G1).
  destruct (IH _ (y + 1) W1 T1) as (W2 & T2 & O2 & S2 & B2 & C2 & I2 & K2 & G2).
  rewrite O2, S2, B2, C2, I2, K2, O1, S1, B1, C1, I1, K1.
  do 8 (split; [done|]). intros X Y HXY.
  rewrite G2 by (rewrite (output_bounds_same c) by done; done).
  rewrite G1 by done. rewrite K1, length_cons, Nat2Z.inj_succ.
  destruct (Z.eqb_spec X x) as [->|Ex]; cbn [andb]; [|destruct (Y =? y); done].
  destruct (Z.eqb_spec Y y) as [->|Ey]; cbn [andb].
  - replace (y + 1 <=? y) with false by (symmetry; apply Z.leb_gt; lia).
    replace (y <=? y) with true by (symmetry; apply Z.leb_le; lia).
    replace (y <? y + Z.succ (Z.of_nat (length text))) with true by (symmetry; apply Z.ltb_lt; lia).
    cbn [andb]. rewrite Z.sub_diag. done.
  - destruct (Z.leb_spec (y + 1) Y), (Z.leb_spec y Y); cbn [andb]; try lia; [|done].
    replace (Y <? y + 1 + Z.of_nat (length text)) with (Y <? y + Z.succ (Z.of_nat (length text))) by (f_equal; lia).
    destruct (Y <? _); [|done].
    replace (Z.to_nat (Y - y)) with (S (Z.to_nat (Y - (y + 1)))) by lia. done.
Qed.

Lemma ensure_textual_facts c :
  wf c ->
  let c' := ensure_textual c in
  wf c' /\ is_textual c' = true /\ output c' = output c /\ screen c' = screen c /\
  buffer c' = buffer c /\ color_buffer c' = color_buffer c /\
  is_inverted c' = is_inverted c /\ _color c' = _color c /\
  (forall X Y, _check_output_bounds c X Y = true -> _get_text_char c' X Y = _get_text_char c X Y).
Proof.
  intros Hwf c'. unfold c', ensure_textual.
  destruct (is_textual c) eqn:Ht; [do 8 (split; [done|]); done|].
  destruct Hwf as (Hw & Hh & Hsw & Hsh & Hb & Hcb & Htb).
  assert (Hg : rows_of (grid (width (output c)) (height (output c)) ([] : ustr))
                 (height (output c)) (width (output c))) by (apply grid_rows_of; lia).
  assert (Ht2 : is_textual (_init_text_buffer c) = true).
  { unfold is_textual, _init_text_buffer, grid. simpl.
    rewrite (zrange_cons 0 (height (output c))) by lia. simpl. done. }
  split; [exact (conj Hw (conj Hh (conj Hsw (conj Hsh (conj Hb (conj Hcb (or_intror Hg)))))))|].
  do 7 (split; [done|]). intros X Y HXY.
  unfold _get_text_char. rewrite Ht, Ht2. simpl.
  unfold _check_output_bounds in HXY. rewrite !andb_true_iff, !Z.leb_le, !Z.ltb_lt in HXY.
  apply get2_grid; lia.
Qed.

(** X18. draw_text, merge_text: on a well-formed canvas, writing [text]
    at [(x, y)] sets each on-screen cell [(x + i, y)], [i < len(text)], to
    what [_draw_char] leaves there: the empty string for a space with
    [draw_text], the old cell for a space with [merge_text], and the
    character formatted in the draw color otherwise.  Every other cell
    keeps its text; the pixels, the color buffer, the sizes and the draw
    color are unchanged. *)
Theorem text_row_cells (c : TextCanvas) (text : ustr) (x y : Z) (merge : bool) :
  wf c ->
  let c' := if merge then merge_text c text x y else draw_text c text x y in
  wf c' /\ output c' = output c /\ screen c' = screen c /\
  buffer c' = buffer c /\ color_buffer c' = color_buffer c /\ _color c' = _color c /\
  (forall X Y, _check_output_bounds c X Y = true ->
     _get_text_char c' X Y =
       if (Y =? y) && (x <=? X) && (X <? x + Z.of_nat (length text))
       then drawn_cell merge (_color c) (nth (Z.to_nat (X - x)) text SPACE) (_get_text_char c X Y)
       else _get_text_char c X Y).
Proof.
  intros Hwf c'.
  destruct (ensure_textual_facts c Hwf) as (W0 & T0 & O0 & S0 & B0 & C0 & I0 & K0 & G0).
  destruct (draw_chars_h_spec (ensure_textual c) text x y merge W0 T0)
    as (W1 & T1 & O1 & S1 & B1 & C1 & I1 & K1 & G1).
  assert (Ec : c' = draw_chars_h (ensure_textual c) text x y merge) by (unfold c'; destruct merge; done).
  rewrite Ec, O1, S1, B1, C1, K1, O0, S0, B0, C0, K0.
  do 6 (split; [done|]). intros X Y HXY.
  rewrite G1 by (rewrite (output_bounds_same c) by done; done).
  rewrite K0, G0 by done. done.
Qed.

Lemma text_row_cells_witness :
  _get_text_char (draw_text (new_canvas 3 1) [97; 98] 1 0) 2 0 = [98] /\
  _get_text_char (merge_text (new_canvas 3 1) [32; 32] 1 0) 2 0 = [].
Proof.
  assert (Hwf : wf (new_canvas 3 1)) by (apply wfb_wf; vm_compute; reflexivity).
  destruct (text_row_cells (new_canvas 3 1) [97; 98] 1 0 false Hwf) as (_ & _ & _ & _ & _ & _ & G1).
  destruct (text_row_cells (new_canvas 3 1) [32; 32] 1 0 true Hwf) as (_ & _ & _ & _ & _ & _ & G2).
  split.
  - simpl in G1. rewrite G1 by (vm_compute; reflexivity). vm_compute. reflexivity.
  - simpl in G2. rewrite G2 by (vm_compute; reflexivity). vm_compute. reflexivity.
Defined.

(** X19. draw_text_vertical, merge_text_vertical: the same for the cells
    [(x, y + i)] of the column: a space gives the empty string with
    [draw_text_vertical] and keeps the old cell with [merge_text_vertical],
    any other character is written formatted in the draw color; every
    other cell keeps its text, and the pixels, the color buffer, the sizes
    and the draw color are unchanged. *)
Theorem text_column_cells (c : TextCanvas) (text : ustr) (x y : Z) (merge : bool) :
  wf c ->
  let c' := if merge then merge_text_vertical c text x y else draw_text_vertical c text x y in
  wf c' /\ output c' = output c /\ screen c' = screen c /\
  buffer c' = buffer c /\ color_buffer c' = color_buffer c /\ _color c' = _color c /\
  (forall X Y, _check_output_bounds c X Y = true ->
     _get_text_char c' X Y =
       if (X =? x) && (y <=? Y) && (Y <? y + Z.of_nat (length text))
       then drawn_cell merge (_color c) (nth (Z.to_nat (Y - y)) text SPACE) (_get_text_char c X Y)
       else _get_text_char c X Y).
Proof.
  intros Hwf c'.
  destruct (ensure_textual_facts c Hwf) as (W0 & T0 & O0 & S0 & B0 & C0 & I0 & K0 & G0).
  destruct (draw_chars_v_spec (ensure_textual c) text x y merge W0 T0)
    as (W1 & T1 & O1 & S1 & B1 & C1 & I1 & K1 & G1).
  assert (Ec : c' = draw_chars_v (ensure_textual c) text x y merge) by (unfold c'; destruct merge; done).
  rewrite Ec, O1, S1, B1, C1, K1, O0, S0, B0, C0, K0.
  do 6 (split; [done|]). intros X Y HXY.
  rewrite G1 by (rewrite (output_bounds_same c) by done; done).
  rewrite K0, G0 by done. done.
Qed.

Lemma text_column_cells_witness :
  _get_text_char (draw_text_vertical (new_canvas 1 3) [97; 98] 0 1) 0 2 = [98] /\
  _get_text_char (merge_text_vertical (new_canvas 1 3) [32; 32] 0 1) 0 2 = [].
Proof.
  assert (Hwf : wf (new_canvas 1 3)) by (apply wfb_wf; vm_compute; reflexivity).
  destruct (text_column_cells (new_canvas 1 3) [97; 98] 0 1 false Hwf) as (_ & _ & _ & _ & _ & _ & G1).
  destruct (text_column_cells (new_canvas 1 3) [32; 32] 0 1 true Hwf) as (_ & _ & _ & _ & _ & _ & G2).
  split.
  - simpl in G1. rewrite G1 by (vm_compute; reflexivity). vm_compute. reflexivity.
  - simpl in G2. rewrite G2 by (vm_compute; reflexivity). vm_compute. reflexivity.
Defined.

(* ================================================================== *)
(** * Compositing: the pixel layer *)

(** The pixel a compositing write leaves over [old]. *)
Definition composited (merge old pixel : bool) : bool :=
  if merge then old || pixel else pixel.

Lemma composite_step_pixels src dx dy merge s p :
  screen (composite_step src dx dy merge s p) = screen s /\
  buffer (composite_step src dx dy merge s p) =
    if _check_screen_bounds s (dx + fst p) (dy + snd p) &&
       (negb merge || get2 false (buffer src) (snd p) (fst p))
    then set2 (buffer s) (dy + snd p) (dx + fst p) (get2 false (buffer src) (snd p) (fst p))
    else buffer s.
Proof.
  destruct p as [x y]. unfold composite_step. simpl.
  destruct (_check_screen_bounds s (dx + x) (dy + y)); simpl; [|done].
  destruct (negb merge || get2 false (buffer src) y x);
    destruct (is_colorized src), (is_textual src); simpl;
    try destruct (negb merge || negb (bool_decide _)); done.
Qed.

Lemma composite_fold_pixels src dx dy merge (l : list (Z * Z)) s0 :
  let s := fold_left (composite_step src dx dy merge) l s0 in
  screen s = screen s0 /\
  (forall X Y, 0 <= X -> 0 <= Y -> ~ In (X - dx, Y - dy) l ->
     lookup2 (buffer s) Y X = lookup2 (buffer s0) Y X) /\
  (forall x y w0, In (x, y) l -> _check_screen_bounds s0 (dx + x) (dy + y) = true ->
     lookup2 (buffer s0) (dy + y) (dx + x) = Some w0 ->
     lookup2 (buffer s) (dy + y) (dx + x) = Some (composited merge w0 (get2 false (buffer src) y x))).
Proof.
  revert s0. induction l as [|[a b] l IH]; intros s0; cbn [fold_left].
  { split; [done|]. split; [done|]. intros x y w0 []. }
  set (s1 := composite_step src dx dy merge s0 (a, b)).
  destruct (composite_step_pixels src dx dy merge s0 (a, b)) as [Hs1 Hb1]. fold s1 in Hs1, Hb1.
  simpl in Hb1.
  destruct (IH s1) as (HS & HU & HW).
  assert (Hb : forall x y, _check_screen_bounds s1 x y = _check_screen_bounds s0 x y)
    by (intros; unfold _check_screen_bounds; rewrite Hs1; done).
  split; [rewrite HS; done|]. split.
  - intros X Y HX HY Hn. rewrite HU by (try done; intros Hin; apply Hn; right; done).
    rewrite Hb1.
    destruct (_check_screen_bounds s0 (dx + a) (dy + b) && _) eqn:E; [|done].
    rewrite lookup2_set2_ne; [done|].
    apply andb_true_iff in E as [E _]. unfold _check_screen_bounds in E.
    intros Eq. injection Eq. intros. apply Hn. left. f_equal; blia.
  - intros x y w0 Hin Hbd Hw0.
    (* the value of the destination after the first iteration *)
    assert (Hw1 : lookup2 (buffer s1) (dy + y) (dx + x) =
                  Some (if (x =? a) && (y =? b) then composited merge w0 (get2 false (buffer src) y x) else w0)).
    { rewrite Hb1. destruct (Z.eqb_spec x a) as [->|Ea], (Z.eqb_spec y b) as [->|Eb]; simpl.
      - rewrite Hbd. unfold composited.
        destruct merge, (get2 false (buffer src) b a); simpl;
          try (erewrite lookup2_set2_eq by exact Hw0; f_equal; destruct w0; done);
          rewrite Hw0; f_equal; destruct w0; done.
      - destruct (_ && _) eqn:E; [|done]. rewrite lookup2_set2_ne; [done|].
        apply andb_true_iff in E as [E _]. unfold _check_screen_bounds in E, Hbd.
        intros Eq. injection Eq. intros. blia.
      - destruct (_ && _) eqn:E; [|done]. rewrite lookup2_set2_ne; [done|].
        apply andb_true_iff in E as [E _]. unfold _check_screen_bounds in E, Hbd.
        intros Eq. injection Eq. intros. blia.
      - destruct (_ && _) eqn:E; [|done]. rewrite lookup2_set2_ne; [done|].
        apply andb_true_iff in E as [E _]. unfold _check_screen_bounds in E, Hbd.
        intros Eq. injection Eq. intros. blia. }
    destruct (in_dec (fun p q => decide (p = q)) (x, y) l) as [Hl|Hl].
    + rewrite (HW x y _ Hl) by (try rewrite Hb; done).
      f_equal. unfold composited.
      destruct ((x =? a) && (y =? b)); [|done].
      unfold composited. destruct merge, w0, (get2 false (buffer src) y x); done.
    + destruct Hin as [Eq|Hin]; [|done]. injection Eq as -> ->.
      rewrite HU; [| unfold _check_screen_bounds in Hbd; blia | unfold _check_screen_bounds in Hbd; blia |].
      * rewrite Hw1, !Z.eqb_refl. done.
      * replace (dx + x - dx) with x by lia. replace (dy + y - dy) with y by lia. done.
Qed.

Lemma in_iter_buffer_inv (c : TextCanvas) (x y : Z) :
  In (x, y) (iter_buffer c) -> 0 <= x < width (screen c) /\ 0 <= y < height (screen c).
Proof.
  unfold iter_buffer. rewrite in_flat_map. intros (y' & Hy' & Hin).
  apply in_map_iff in Hin as (x' & Eq & Hx'). injection Eq as -> ->.
  apply zrange_In in Hy', Hx'. lia.
Qed.

Lemma draw_canvas_onto_canvas_pixels self src dx dy merge :
  wf self ->
  let c' := draw_canvas_onto_canvas self src dx dy merge in
  screen c' = screen self /\
  (forall x y old p, get_pixel self (dx + x) (dy + y) = Some old -> get_pixel src x y = Some p ->
     get_pixel c' (dx + x) (dy + y) = Some (composited merge old p)) /\
  (forall X Y, get_pixel src (X - dx) (Y - dy) = None -> get_pixel c' X Y = get_pixel self X Y).
Proof.
  intros Hwf c'.
  set (pre := let self := if negb (is_colorized self) && is_colorized src then _init_color_buffer self else self in
              if negb (is_textual self) && is_textual src then _init_text_buffer self else self).
  assert (Hpre : screen pre = screen self /\ buffer pre = buffer self).
  { unfold pre. repeat case_match; simpl; split; done. }
  destruct Hpre as [Sp Bp].
  assert (Ec : c' = fold_left (composite_step src dx dy merge) (iter_buffer src) pre) by done.
  destruct (composite_fold_pixels src dx dy merge (iter_buffer src) pre) as (HS & HU & HW).
  rewrite <- Ec in HS, HU, HW. rewrite Sp in HS. rewrite Bp in HU, HW.
  assert (Hb : forall X Y, _check_screen_bounds c' X Y = _check_screen_bounds self X Y)
    by (intros; unfold _check_screen_bounds; rewrite HS; done).
  assert (Hbp : forall X Y, _check_screen_bounds pre X Y = _check_screen_bounds self X Y)
    by (intros; unfold _check_screen_bounds; rewrite Sp; done).
  destruct Hwf as (_ & _ & _ & _ & Hrows & _ & _).
  split; [done|]. split.
  - intros x y old p Hold Hp. unfold get_pixel in *. rewrite Hb.
    destruct (_check_screen_bounds self (dx + x) (dy + y)) eqn:Hin; simpl in *; [|discriminate].
    destruct (_check_screen_bounds src x y) eqn:Hin'; simpl in *; [|discriminate].
    injection Hold as <-. injection Hp as <-.
    assert (Hr := Hin). unfold _check_screen_bounds in Hr.
    destruct (rows_of_lookup2 _ _ _ (dy + y) (dx + x) Hrows) as [w Hw]; [blia|blia|].
    rewrite (get2_lookup2 false (buffer c')).
    rewrite (HW x y w) by (try rewrite Hbp; try done; unfold _check_screen_bounds in Hin';
                                 apply in_iter_buffer; blia).
    rewrite (get2_lookup2 false (buffer self)), Hw. done.
  - intros X Y Hn. unfold get_pixel in *. rewrite Hb.
    destruct (_check_screen_bounds self X Y) eqn:Hin; simpl; [|done].
    f_equal. rewrite !get2_lookup2. unfold _check_screen_bounds in Hin.
    rewrite HU; [done|blia|blia|].
    intros Hit. apply in_iter_buffer_inv in Hit.
    destruct (_check_screen_bounds src (X - dx) (Y - dy)) eqn:E; [discriminate|].
    unfold _check_screen_bounds in E. blia.
Qed.

(** X20. draw_canvas, merge_canvas: on a well-formed destination (and a
    source distinct from it), every destination pixel [(dx + x, dy + y)]
    covered by a source pixel [(x, y)] becomes the source pixel with
    [draw_canvas], and the OR of its old value and the source pixel with
    [merge_canvas]; every pixel the source does not cover keeps its value,
    and the screen size is unchanged. *)
Theorem draw_canvas_pixels (self src : TextCanvas) (dx dy : Z) (merge : bool) :
  wf self ->
  let c' := if merge then merge_canvas self src dx dy else draw_canvas self src dx dy in
  screen c' = screen self /\
  (forall x y old p, get_pixel self (dx + x) (dy + y) = Some old -> get_pixel src x y = Some p ->
     get_pixel c' (dx + x) (dy + y) = Some (if merge then old || p else p)) /\
  (forall X Y, get_pixel src (X - dx) (Y - dy) = None -> get_pixel c' X Y = get_pixel self X Y).
Proof.
  intros Hwf c'.
  assert (Ec : c' = draw_canvas_onto_canvas self src dx dy merge) by (unfold c'; destruct merge; done).
  rewrite Ec. exact (draw_canvas_onto_canvas_pixels self src dx dy merge Hwf).
Qed.

Lemma draw_canvas_pixels_witness :
  get_pixel (merge_canvas (fill (new_canvas 1 1)) (new_canvas 1 1) 1 0) 1 0 = Some true /\
  get_pixel (draw_canvas (fill (new_canvas 1 1)) (new_canvas 1 1) 1 0) 1 0 = Some false.
Proof.
  assert (Hwf : wf (fill (new_canvas 1 1))) by (apply wfb_wf; vm_compute; reflexivity).
  destruct (draw_canvas_pixels (fill (new_canvas 1 1)) (new_canvas 1 1) 1 0 true Hwf) as (_ & G1 & _).
  destruct (draw_canvas_pixels (fill (new_canvas 1 1)) (new_canvas 1 1) 1 0 false Hwf) as (_ & G2 & _).
  split.
  - apply (G1 0 0 true false); vm_compute; reflexivity.
  - apply (G2 0 0 true false); vm_compute; reflexivity.
Defined.

(** The SGR parameter string of a [color.Color], and the canvas-side
    value ([Color]) that stands for it. *)
Definition sgr_of (c : ColorPy.Color) : ustr :=
  ColorPy._format_display_attributes c ++ (if ColorPy._has_colors c then [59] else []) ++
  ColorPy._format_colors c.

(** Lower-case hexadecimal digit of [0 <= d < 16], and the two digits of
    [0 <= n < 256] ([f"{n:02x}"]). *)
Definition hexdigit (d : Z) : Z := if d <? 10 then 48 + d else 87 + d.
Definition hex2 (n : Z) : ustr := [hexdigit (n / 16); hexdigit (n mod 16)].

(** [int(s, 16)] on ASCII input of one or two digits, without sign,
    prefix, underscores or surrounding whitespace. *)
Definition hexval (d : Z) : option Z :=
  if (48 <=? d) && (d <=? 57) then Some (d - 48)
  else if (97 <=? d) && (d <=? 102) then Some (d - 87)
  else if (65 <=? d) && (d <=? 70) then Some (d - 55)
  else None.
Definition int16_ascii (s : ustr) : option Z :=
  match s with
  | [a] => hexval a
  | [a; b] => match hexval a, hexval b with Some x, Some y => Some (16 * x + y) | _, _ => None end
  | _ => None
  end.

Definition color_of (c : ColorPy.Color) : Color :=
  if ColorPy._is_empty c then NoColor else Ansi (sgr_of c).

(* ================================================================== *)
(** * Colors *)

Definition no_brace (t : ustr) : Prop := Forall (fun d => d <> 123) t.

Lemma replace_no_brace_app t u s :
  no_brace t -> ColorPy.replace_placeholder (t ++ u) s = t ++ ColorPy.replace_placeholder u s.
Proof.
  induction t as [|ch t IH]; [done|]. intros Hf. apply Forall_cons in Hf as [Hch Hf].
  simpl. destruct (t ++ u) as [|ch2 r] eqn:E.
  - apply app_eq_nil in E as [-> ->]. done.
  - replace (ch =? 123) with false by lia. cbn [andb]. rewrite IH by done. done.
Qed.

Lemma replace_no_brace t s : no_brace t -> ColorPy.replace_placeholder t s = t.
Proof.
  intros H. pose proof (replace_no_brace_app t [] s H) as E.
  rewrite app_nil_r in E. rewrite E. simpl. apply app_nil_r.
Qed.

Lemma uint_digits_range u : Forall (fun d => 48 <= d <= 57) (ColorPy.uint_digits u).
Proof. induction u; simpl; try constructor; try done; lia. Qed.

Lemma str_of_int_range n : Forall (fun d => d = 45 \/ 48 <= d <= 57) (ColorPy.str_of_int n).
Proof.
  unfold ColorPy.str_of_int.
  destruct (Z.to_int n) as [u|u]; [|constructor; [left; done|]];
    (eapply Forall_impl; [apply uint_digits_range|]); intros d Hd; right; exact Hd.
Qed.

Lemma str_of_int_no_brace n : no_brace (ColorPy.str_of_int n).
Proof. eapply Forall_impl; [apply str_of_int_range|]. intros d Hd. simpl in Hd. lia. Qed.

Lemma join_forall (P : Z -> Prop) sep items :
  Forall P sep -> Forall (Forall P) items -> Forall P (ColorPy.join sep items).
Proof.
  intros Hs. induction items as [|x items IH]; intros Hi; [constructor|].
  apply Forall_cons in Hi as [Hx Hi]. destruct items as [|y items']; [done|].
  change (Forall P (x ++ sep ++ ColorPy.join sep (y :: items'))).
  rewrite !Forall_app. auto.
Qed.

(** The characters [Color.to_string()] puts between [ESC] and the final
    ["m"]. *)
Definition sgr_any (d : Z) : Prop :=
  d = 27 \/ d = 91 \/ d = 109 \/ d = 59 \/ d = 45 \/ 48 <= d <= 57.

Lemma str_of_int_any n : Forall sgr_any (ColorPy.str_of_int n).
Proof. eapply Forall_impl; [apply str_of_int_range|]. unfold sgr_any. intros d Hd. lia. Qed.

Ltac pieces P :=
  repeat match goal with
  | |- Forall _ (_ ++ _) => apply Forall_app_2
  | |- Forall _ (ColorPy.str_of_int _) => apply P
  | |- Forall _ (_ :: _) => constructor
  | |- Forall _ [] => constructor
  | |- Forall _ ESC => unfold ESC
  | |- Forall _ (ustr_of ?s) =>
      let l := eval vm_compute in (ustr_of s) in change (ustr_of s) with l
  end.

Lemma attrs_any c : Forall sgr_any (ColorPy._format_display_attributes c).
Proof.
  unfold ColorPy._format_display_attributes, ColorPy._has_display_attributes.
  destruct (ColorPy._is_bold c), (ColorPy._is_italic c), (ColorPy._is_underlined c);
    simpl; pieces str_of_int_any; unfold sgr_any; lia.
Qed.

Lemma colors_any c : Forall sgr_any (ColorPy._format_colors c).
Proof.
  unfold ColorPy._format_colors, ColorPy._format_colors_rgb, ColorPy._format_colors_4bit,
    ColorPy._format_colors_8bit.
  destruct (ColorPy._mode c).
  - constructor.
  - destruct (ColorPy._color_rgb c) as [[[r g] b]|], (ColorPy._bg_color_rgb c) as [[[r' g'] b']|];
      cbv beta iota; pieces str_of_int_any; unfold sgr_any; lia.
  - destruct (ColorPy._color_4bit c), (ColorPy._bg_color_4bit c);
      cbv beta iota; pieces str_of_int_any; unfold sgr_any; lia.
  - destruct (ColorPy._color_8bit c), (ColorPy._bg_color_8bit c);
      cbv beta iota; pieces str_of_int_any; unfold sgr_any; lia.
Qed.

Lemma sgr_of_any c : Forall sgr_any (sgr_of c).
Proof.
  unfold sgr_of. apply Forall_app_2; [apply attrs_any|]. apply Forall_app_2; [|apply colors_any].
  destruct (ColorPy._has_colors c); pieces str_of_int_any; unfold sgr_any; lia.
Qed.

Lemma color_format_refines_aux (c : ColorPy.Color) (s : ustr) :
  ColorPy.format c s = format (color_of c) s.
Proof.
  unfold ColorPy.format, ColorPy.to_string, color_of.
  destruct (ColorPy._is_empty c).
  { change (s ++ ColorPy.replace_placeholder [] s = s). apply app_nil_r. }
  assert (Hnb : no_brace (ESC ++ sgr_of c ++ [109])).
  { apply Forall_app_2; [repeat constructor; unfold ESC; lia|]. apply Forall_app_2; [|repeat constructor; lia].
    eapply Forall_impl; [apply sgr_of_any|]. unfold sgr_any. intros d Hd. lia. }
  assert (E : ESC ++ ColorPy._format_display_attributes c ++
              (if ColorPy._has_colors c then [59] else []) ++
              ColorPy._format_colors c ++ [109] ++ ColorPy.PLACEHOLDER ++ RESET =
              (ESC ++ sgr_of c ++ [109]) ++ (ColorPy.PLACEHOLDER ++ RESET))
    by (unfold sgr_of; rewrite <- !app_assoc; done).
  rewrite E, replace_no_brace_app by exact Hnb.
  change (ColorPy.replace_placeholder (ColorPy.PLACEHOLDER ++ RESET) s)
    with (s ++ ColorPy.replace_placeholder RESET s).
  rewrite (replace_no_brace RESET) by (unfold no_brace, RESET; repeat constructor; lia).
  unfold format. rewrite <- !app_assoc. done.
Qed.

(** A code prints as plain digits when it is nonnegative. *)
Definition code_ok (o : option Z) : Prop :=
  match o with Some n => 0 <= n | None => True end.
Definition rgb_ok (o : option (Z * Z * Z)) : Prop :=
  match o with Some (r, g, b) => 0 <= r /\ 0 <= g /\ 0 <= b | None => True end.

(** The SGR string of a color is one sequence of digits and [';']. *)
Definition plain_sgr (c : ColorPy.Color) : Prop :=
  match ColorPy._mode c with
  | ColorPy.NO_COLOR => True
  | ColorPy.COLOR_RGB =>
      rgb_ok (ColorPy._color_rgb c) /\ rgb_ok (ColorPy._bg_color_rgb c) /\
      (ColorPy._color_rgb c = None \/ ColorPy._bg_color_rgb c = None)
  | ColorPy.COLOR_4BIT => code_ok (ColorPy._color_4bit c) /\ code_ok (ColorPy._bg_color_4bit c)
  | ColorPy.COLOR_8BIT =>
      code_ok (ColorPy._color_8bit c) /\ code_ok (ColorPy._bg_color_8bit c) /\
      (ColorPy._color_8bit c = None \/ ColorPy._bg_color_8bit c = None)
  end.

Lemma uint_digits_plain u : Forall sgr_char (ColorPy.uint_digits u).
Proof. eapply Forall_impl; [apply uint_digits_range|]. unfold sgr_char. intros d Hd. lia. Qed.

Lemma str_of_int_plain n : Forall sgr_char (ColorPy.str_of_int n) <-> 0 <= n.
Proof.
  unfold ColorPy.str_of_int. destruct n as [|p|p]; simpl.
  - split; [lia|intros _; repeat constructor; unfold sgr_char; lia].
  - split; [lia|intros _; apply uint_digits_plain].
  - rewrite Forall_cons. unfold sgr_char at 1. lia.
Qed.

Ltac lits :=
  repeat match goal with
  | |- context [ustr_of ?s] => let l := eval vm_compute in (ustr_of s) in change (ustr_of s) with l
  end; unfold ESC.

Definition sgr_charb (d : Z) : bool := ((48 <=? d) && (d <=? 57)) || (d =? 59).

Lemma Forall_sgr_char_iff l : Forall sgr_char l <-> forallb sgr_charb l = true.
Proof.
  rewrite List.Forall_forall, forallb_forall.
  unfold sgr_char, sgr_charb.
  split; intros H d Hd; specialize (H d Hd);
    rewrite ?orb_true_iff, ?andb_true_iff, ?Z.leb_le, ?Z.eqb_eq in *; lia.
Qed.

Ltac plain_tac :=
  cbv beta iota; lits; rewrite ?Forall_app, ?str_of_int_plain, ?Forall_sgr_char_iff; simpl;
  intuition (try lia; try discriminate).

Lemma attrs_plain c : Forall sgr_char (ColorPy._format_display_attributes c).
Proof.
  apply Forall_sgr_char_iff.
  unfold ColorPy._format_display_attributes, ColorPy._has_display_attributes.
  destruct (ColorPy._is_bold c), (ColorPy._is_italic c), (ColorPy._is_underlined c); reflexivity.
Qed.

Lemma rgb_plain c :
  Forall sgr_char (ColorPy._format_colors_rgb c) <->
  rgb_ok (ColorPy._color_rgb c) /\ rgb_ok (ColorPy._bg_color_rgb c) /\
  (ColorPy._color_rgb c = None \/ ColorPy._bg_color_rgb c = None).
Proof.
  unfold ColorPy._format_colors_rgb.
  destruct (ColorPy._color_rgb c) as [[[r g] b]|], (ColorPy._bg_color_rgb c) as [[[r' g'] b']|];
    unfold rgb_ok; plain_tac.
Qed.

Lemma c4bit_plain c :
  Forall sgr_char (ColorPy._format_colors_4bit c) <->
  code_ok (ColorPy._color_4bit c) /\ code_ok (ColorPy._bg_color_4bit c).
Proof.
  unfold ColorPy._format_colors_4bit.
  destruct (ColorPy._color_4bit c), (ColorPy._bg_color_4bit c); unfold code_ok; plain_tac.
Qed.

Lemma c8bit_plain c :
  Forall sgr_char (ColorPy._format_colors_8bit c) <->
  code_ok (ColorPy._color_8bit c) /\ code_ok (ColorPy._bg_color_8bit c) /\
  (ColorPy._color_8bit c = None \/ ColorPy._bg_color_8bit c = None).
Proof.
  unfold ColorPy._format_colors_8bit.
  destruct (ColorPy._color_8bit c), (ColorPy._bg_color_8bit c); unfold code_ok; plain_tac.
Qed.

Lemma color_ok_plain_aux c : color_ok (color_of c) <-> plain_sgr c.
Proof.
  unfold color_of, plain_sgr. destruct (ColorPy._is_empty c) eqn:He.
  { unfold ColorPy._is_empty in He. simpl.
    destruct (ColorPy._mode c); simpl in He; try discriminate. done. }
  simpl. unfold sgr_of, ColorPy._format_colors, ColorPy._has_colors.
  rewrite !Forall_app. pose proof (attrs_plain c).
  destruct (ColorPy._mode c); simpl.
  - split; [done|]. intros _. repeat split; try done; constructor.
  - rewrite <- rgb_plain. split; [intros (_ & _ & H2); exact H2|].
    intros H2. repeat split; try done. constructor; [unfold sgr_char; lia|constructor].
  - rewrite <- c4bit_plain. split; [intros (_ & _ & H2); exact H2|].
    intros H2. repeat split; try done. constructor; [unfold sgr_char; lia|constructor].
  - rewrite <- c8bit_plain. split; [intros (_ & _ & H2); exact H2|].
    intros H2. repeat split; try done. constructor; [unfold sgr_char; lia|constructor].
Qed.

Lemma hexval_hexdigit a : 0 <= a < 16 -> hexval (hexdigit a) = Some a.
Proof.
  intros Ha. unfold hexval, hexdigit. destruct (Z.ltb_spec a 10).
  - replace ((48 <=? 48 + a) && (48 + a <=? 57)) with true
      by (symmetry; apply andb_true_iff; split; apply Z.leb_le; lia).
    f_equal. lia.
  - replace ((48 <=? 87 + a) && (87 + a <=? 57)) with false
      by (symmetry; apply andb_false_iff; right; apply Z.leb_gt; lia).
    replace ((97 <=? 87 + a) && (87 + a <=? 102)) with true
      by (symmetry; apply andb_true_iff; split; apply Z.leb_le; lia).
    f_equal. lia.
Qed.

Lemma int16_ascii_hex a b :
  0 <= a < 16 -> 0 <= b < 16 -> int16_ascii [hexdigit a; hexdigit b] = Some (16 * a + b).
Proof. intros Ha Hb. simpl. rewrite !hexval_hexdigit by done. done. Qed.

Lemma hexdigit_not_hash a : 0 <= a < 16 -> (hexdigit a =? 35) = false.
Proof. intros Ha. unfold hexdigit. destruct (Z.ltb_spec a 10); apply Z.eqb_neq; lia. Qed.

(** X21. Color.format: for every color, [format(s)] is [s] itself when the
    color is empty (no color mode, no display attribute), and otherwise
    ESC, the SGR string, [m], [s] and RESET, where the SGR string is the
    display attributes, a [;] when a color mode is set, and the codes of
    the current mode: the placeholder is replaced exactly once, since the
    SGR string never holds a brace. *)
Theorem color_format_refines (c : ColorPy.Color) (s : ustr) :
  ColorPy.format c s = format (color_of c) s.
Proof. exact (color_format_refines_aux c s). Qed.

(** X22. Color.format: a color leaves every string unchanged exactly
    when it is empty: no color mode, and none of bold, italic and
    underline. *)
Theorem color_transparent_iff (c : ColorPy.Color) :
  (forall s, ColorPy.format c s = s) <-> ColorPy._is_empty c = true.
Proof.
  split.
  - intros H. specialize (H []). rewrite color_format_refines_aux in H.
    unfold color_of in H. destruct (ColorPy._is_empty c); [done|].
    simpl in H. discriminate.
  - intros He s. rewrite color_format_refines_aux. unfold color_of. rewrite He. done.
Qed.

(** X23. Color.to_string: the SGR parameters are plain decimal codes
    separated by [;] exactly when every code of the current mode is
    nonnegative and, in RGB and 8-bit mode, a foreground and a background
    are not both set (those two are emitted as two escape sequences). *)
Theorem color_sgr_plain (c : ColorPy.Color) : color_ok (color_of c) <-> plain_sgr c.
Proof. exact (color_ok_plain_aux c). Qed.

(** X24. Color.to_string: the output depends only on the mode, the display
    attributes and the colors of the current mode; colors set before in
    another mode are not printed. *)
Theorem to_string_current_mode (c1 c2 : ColorPy.Color) :
  ColorPy._mode c1 = ColorPy._mode c2 ->
  ColorPy._is_bold c1 = ColorPy._is_bold c2 ->
  ColorPy._is_italic c1 = ColorPy._is_italic c2 ->
  ColorPy._is_underlined c1 = ColorPy._is_underlined c2 ->
  match ColorPy._mode c1 with
  | ColorPy.NO_COLOR => True
  | ColorPy.COLOR_RGB =>
      ColorPy._color_rgb c1 = ColorPy._color_rgb c2 /\ ColorPy._bg_color_rgb c1 = ColorPy._bg_color_rgb c2
  | ColorPy.COLOR_4BIT =>
      ColorPy._color_4bit c1 = ColorPy._color_4bit c2 /\ ColorPy._bg_color_4bit c1 = ColorPy._bg_color_4bit c2
  | ColorPy.COLOR_8BIT =>
      ColorPy._color_8bit c1 = ColorPy._color_8bit c2 /\ ColorPy._bg_color_8bit c1 = ColorPy._bg_color_8bit c2
  end ->
  ColorPy.to_string c1 = ColorPy.to_string c2.
Proof.
  intros Hm Hb Hi Hu Hc.
  unfold ColorPy.to_string, ColorPy._is_empty, ColorPy._has_colors, ColorPy._has_display_attributes,
    ColorPy._format_display_attributes, ColorPy._format_colors,
    ColorPy._format_colors_rgb, ColorPy._format_colors_4bit, ColorPy._format_colors_8bit.
  unfold ColorPy._has_display_attributes.
  rewrite <- Hm, <- Hb, <- Hi, <- Hu.
  destruct (ColorPy._mode c1); [done| | |]; destruct Hc as [H1 H2]; rewrite H1, H2; done.
Qed.

Lemma to_string_current_mode_witness :
  ColorPy.to_string (ColorPy._apply_bg_color_8bit (ColorPy._apply_color_4bit ColorPy.Color_new 31) 79) =
  ColorPy.to_string (ColorPy._apply_bg_color_8bit ColorPy.Color_new 79).
Proof. apply to_string_current_mode; simpl; done. Defined.

(** X25. Color._hex_to_rgb: for any [int(s, 16)] that reads two lower-case
    hexadecimal digits as their value, a six-digit lower-case hex string,
    with or without a leading [#], is read back as the three bytes it
    encodes. *)
Theorem hex_to_rgb_roundtrip (int16 : ustr -> option Z)
  (Hint16 : forall a b, 0 <= a < 16 -> 0 <= b < 16 -> int16 [hexdigit a; hexdigit b] = Some (16 * a + b))
  (r g b : Z) :
  0 <= r < 256 -> 0 <= g < 256 -> 0 <= b < 256 ->
  ColorPy._hex_to_rgb int16 (35 :: hex2 r ++ hex2 g ++ hex2 b) = (r, g, b) /\
  ColorPy._hex_to_rgb int16 (hex2 r ++ hex2 g ++ hex2 b) = (r, g, b).
Proof.
  intros Hr Hg Hb.
  assert (H2 : forall n, 0 <= n < 256 -> int16 (hex2 n) = Some n).
  { intros n Hn. unfold hex2. rewrite Hint16.
    - f_equal. pose proof (Z.div_mod n 16 ltac:(lia)). lia.
    - split; [apply Z.div_pos; lia|apply Z.div_lt_upper_bound; lia].
    - apply Z.mod_pos_bound; lia. }
  assert (E : forall h, h = hex2 r ++ hex2 g ++ hex2 b ->
                ColorPy._hex_to_rgb int16 (35 :: h) = (r, g, b)).
  { intros h ->. unfold ColorPy._hex_to_rgb. simpl.
    change [hexdigit (r / 16); hexdigit (r mod 16)] with (hex2 r).
    change [hexdigit (g / 16); hexdigit (g mod 16)] with (hex2 g).
    change [hexdigit (b / 16); hexdigit (b mod 16)] with (hex2 b).
    rewrite !H2 by done. done. }
  split; [apply E; done|].
  unfold ColorPy._hex_to_rgb, hex2 at 1. simpl.
  rewrite hexdigit_not_hash by (split; [apply Z.div_pos; lia|apply Z.div_lt_upper_bound; lia]).
  simpl. change [hexdigit (r / 16); hexdigit (r mod 16)] with (hex2 r).
  change [hexdigit (g / 16); hexdigit (g mod 16)] with (hex2 g).
  change [hexdigit (b / 16); hexdigit (b mod 16)] with (hex2 b).
  rewrite !H2 by done. done.
Qed.

Lemma hex_to_rgb_roundtrip_witness :
  ColorPy._hex_to_rgb int16_ascii (ustr_of "#1f2c3b") = (31, 44, 59).
Proof.
  change (ustr_of "#1f2c3b") with (35 :: hex2 31 ++ hex2 44 ++ hex2 59).
  apply (hex_to_rgb_roundtrip int16_ascii int16_ascii_hex 31 44 59); lia.
Defined.

(* ================================================================== *)
(** * Shape of [to_string] for the colors [color.py] builds *)

Lemma csi_app t u : csi_ok t -> csi_ok u -> csi_ok (t ++ u).
Proof.
  induction 1 as [|d t Hd Hn _ IH|t _ IH]; intros Hu; simpl; [exact Hu| |].
  - apply csi_char; auto.
  - apply csi_reopen; auto.
Qed.

Lemma csi_forall t : Forall (fun d => d <> 109 /\ d <> NEWLINE) t -> csi_ok t.
Proof. induction 1 as [|d t [Hd Hn] _ IH]; [apply csi_nil|apply csi_char; auto]. Qed.

Lemma csi_str_of_int n : csi_ok (ColorPy.str_of_int n).
Proof.
  apply csi_forall. eapply Forall_impl; [apply str_of_int_range|].
  intros d Hd. cbn beta in Hd |- *. unfold NEWLINE. lia.
Qed.

Ltac csi_pieces :=
  repeat match goal with
  | |- csi_ok ([109] ++ ESC) => exact (csi_reopen [] csi_nil)
  | |- csi_ok (_ ++ _) => apply csi_app
  | |- csi_ok (ColorPy.str_of_int _) => apply csi_str_of_int
  | |- csi_ok (ustr_of ?s) =>
      let l := eval vm_compute in (ustr_of s) in change (ustr_of s) with l
  | |- csi_ok (_ :: _) => apply csi_char; [lia|unfold NEWLINE; lia|]
  | |- csi_ok [] => apply csi_nil
  end.

Lemma csi_attrs c : csi_ok (ColorPy._format_display_attributes c).
Proof.
  unfold ColorPy._format_display_attributes, ColorPy._has_display_attributes.
  destruct (ColorPy._is_bold c), (ColorPy._is_italic c), (ColorPy._is_underlined c);
    simpl; csi_pieces.
Qed.

Lemma csi_colors c : csi_ok (ColorPy._format_colors c).
Proof.
  unfold ColorPy._format_colors, ColorPy._format_colors_rgb, ColorPy._format_colors_4bit,
    ColorPy._format_colors_8bit.
  destruct (ColorPy._mode c).
  - apply csi_nil.
  - destruct (ColorPy._color_rgb c) as [[[r g] b]|], (ColorPy._bg_color_rgb c) as [[[r' g'] b']|];
      cbv beta iota; csi_pieces.
  - destruct (ColorPy._color_4bit c), (ColorPy._bg_color_4bit c); cbv beta iota; csi_pieces.
  - destruct (ColorPy._color_8bit c), (ColorPy._bg_color_8bit c); cbv beta iota; csi_pieces.
Qed.

Lemma color_of_strips c : color_strips (color_of c).
Proof.
  unfold color_of. destruct (ColorPy._is_empty c); [exact I|].
  unfold color_strips, sgr_of. apply csi_app; [apply csi_attrs|]. apply csi_app; [|apply csi_colors].
  destruct (ColorPy._has_colors c); csi_pieces.
Qed.

(** The colors a canvas holds: [Color] values as [color.py] builds them
    ([Color()] is [NoColor]). *)
Definition built_color (col : Color) : Prop := exists cp : ColorPy.Color, col = color_of cp.

(** A text-buffer entry as [_draw_char] stores it: empty, or one
    character, neither a line feed nor an escape, passed through
    [Color.format] of such a color. *)
Definition built_text_cell (t : ustr) : Prop :=
  t = [] \/ exists (cp : ColorPy.Color) ch, t = format (color_of cp) [ch] /\ ch <> NEWLINE /\ ch <> 27.

(** Claim C5 (amended).  For a well-formed canvas whose colors are
    [Color] values and whose text-buffer entries are empty or one
    character other than line feed and escape passed through
    [Color.format], [to_string] contains exactly [output.height] line
    feeds; with the [ESC '[' ... 'm'] sequences removed (both of them
    where an RGB or 8-bit color has a foreground and a background) it is
    [output.height] rows of exactly [output.width] glyphs (none a line
    feed), each followed by a line feed; without colors and text the
    string itself is these rows, every glyph a Braille character. *)
Theorem to_string_shape (c : TextCanvas) :
  wf c ->
  Forall (Forall built_text_cell) (text_buffer c) ->
  Forall (Forall built_color) (color_buffer c) ->
  count_newlines (to_string c) = Z.to_nat (height (output c)) /\
  exists rows : list ustr,
    length rows = Z.to_nat (height (output c)) /\
    Forall (fun row => length row = Z.to_nat (width (output c)) /\ ~ In NEWLINE row) rows /\
    strip_ansi (to_string c) = concat (map (fun row => row ++ [NEWLINE]) rows) /\
    (is_textual c = false -> is_colorized c = false ->
       Forall (Forall is_braille) rows /\
       to_string c = concat (map (fun row => row ++ [NEWLINE]) rows)).
Proof.
  intros Hwf Htext Hcolor.
  destruct (to_string_rows c Hwf) as (rows & Hl & Hrows & Hs & Hn & Hb).
  - eapply Forall_impl; [exact Htext|]. intros row Hrow.
    eapply Forall_impl; [exact Hrow|]. intros t [->|(cp & ch & -> & Hnl & Hesc)]; [left; done|].
    right. exists (color_of cp), ch. split; [done|]. split; [apply color_of_strips|done].
  - eapply Forall_impl; [exact Hcolor|]. intros row Hrow.
    eapply Forall_impl; [exact Hrow|]. intros col [cp ->]. apply color_of_strips.
  - split; [exact Hn|]. exists rows. split; [exact Hl|]. split; [exact Hrows|].
    split; [exact Hs|exact Hb].
Qed.

(** [Color().x_dark_goldenrod().bg_x_aquamarine_3()]: an 8-bit
    foreground and background, printed as two escape sequences. *)
Definition goldenrod_on_aquamarine : ColorPy.Color :=
  ColorPy._apply_bg_color_8bit (ColorPy._apply_color_8bit ColorPy.Color_new 136) 79.

(** A 2x1 canvas drawn in that color: the pixel [(0, 0)] on, and the
    text ["h"] in the second cell. *)
Definition shape_witness_canvas : TextCanvas :=
  draw_text (set_pixel (set_color (new_canvas 2 1) (color_of goldenrod_on_aquamarine)) 0 0 true)
    [104] 1 0.

Lemma shape_witness_text :
  text_buffer shape_witness_canvas = [[[]; format (color_of goldenrod_on_aquamarine) [104]]].
Proof. vm_compute. reflexivity. Qed.

Lemma shape_witness_colors :
  color_buffer shape_witness_canvas = [[color_of goldenrod_on_aquamarine; color_of ColorPy.Color_new]].
Proof. vm_compute. reflexivity. Qed.

Lemma to_string_shape_witness :
  count_newlines (to_string shape_witness_canvas) = Z.to_nat (height (output shape_witness_canvas)) /\
  exists rows : list ustr,
    length rows = Z.to_nat (height (output shape_witness_canvas)) /\
    Forall (fun row => length row = Z.to_nat (width (output shape_witness_canvas)) /\ ~ In NEWLINE row) rows /\
    strip_ansi (to_string shape_witness_canvas) = concat (map (fun row => row ++ [NEWLINE]) rows) /\
    (is_textual shape_witness_canvas = false -> is_colorized shape_witness_canvas = false ->
       Forall (Forall is_braille) rows /\
       to_string shape_witness_canvas = concat (map (fun row => row ++ [NEWLINE]) rows)).
Proof.
  apply (to_string_shape shape_witness_canvas).
  - apply wfb_wf. vm_compute. reflexivity.
  - rewrite shape_witness_text.
    constructor; [|constructor].
    constructor; [left; reflexivity|].
    constructor; [|constructor].
    right. exists goldenrod_on_aquamarine, 104.
    split; [reflexivity|]. unfold NEWLINE. split; lia.
  - rewrite shape_witness_colors.
    constructor; [|constructor].
    constructor; [exists goldenrod_on_aquamarine; reflexivity|].
    constructor; [exists ColorPy.Color_new; reflexivity|constructor].
Defined.
